(** * DRIVON request-intake server ([server.py]): a shallow embedding

    The development follows the layout of [server.py]:
    - [Py]: the fragment of Python's [str], [bytes] and JSON values the server
      relies on (code points, [strip], [split], [join], [replace], slicing,
      UTF-8 decoding, truthiness);
    - [Sanitizer]: [clean_text], [clean_comment], [PHONE_RE], [validate_payload];
    - [Cache]: the services cache of [load_active_services], with the clock
      and the backing store as explicit inputs and the two globals as state;
    - [Handler]: [parse_admin_ids], [build_admin_message],
      [send_telegram_message] and [AppHandler.do_POST], with the network as
      an explicit input and exceptions as an explicit result;
    - [Threads]: calls of [load_active_services] that overlap, as the
      threads of [ThreadingHTTPServer] make them, under any interleaving;
    - [Dotenv] and [Routes]: [load_dotenv], [AppHandler.do_OPTIONS] and
      [AppHandler.do_GET];
    - the properties of each component, stated after all definitions. *)

From stdpp Require Import gmap strings list.
From Stdlib Require Import ZArith NArith Lia.
From Stdlib.Strings Require Ascii String Byte.

Set Warnings "-register-all".

(* ===================================================================== *)
(** ** Python strings, bytes and values *)
(* ===================================================================== *)

Module Py.

(** A Python [str] is a sequence of Unicode code points. *)
Definition char := N.
Definition pstr := list char.

(** ASCII literals of the source, as code points. *)
Definition u (x : string) : pstr :=
  Ascii.N_of_ascii <$> String.list_ascii_of_string x.
Global Arguments u : simpl never.

Definition SPACE : char := 32%N.
Definition LF : char := 10%N.
Definition CR : char := 13%N.

(** [Py_UNICODE_ISSPACE]: the characters removed by [str.strip()], separating
    words in [str.split()] and matched by [\s] in a [str] pattern. *)
Definition isspace (c : char) : bool :=
  ((9 <=? c) && (c <=? 13) || (28 <=? c) && (c <=? 32)
   || (c =? 133) || (c =? 160) || (c =? 5760)
   || (8192 <=? c) && (c <=? 8202)
   || (c =? 8232) || (c =? 8233) || (c =? 8239) || (c =? 8287)
   || (c =? 12288))%N.

(** [s.lstrip()], [s.rstrip()], [s.strip()]. *)
Fixpoint str_lstrip (s : pstr) : pstr :=
  match s with
  | [] => []
  | c :: s' => if isspace c then str_lstrip s' else s
  end.

Fixpoint str_rstrip (s : pstr) : pstr :=
  match s with
  | [] => []
  | c :: s' =>
      match str_rstrip s' with
      | [] => if isspace c then [] else [c]
      | r => c :: r
      end
  end.

Definition str_strip (s : pstr) : pstr := str_rstrip (str_lstrip s).

(** [s.split()]: the maximal runs of non-whitespace characters, in order. *)
Fixpoint str_split (s : pstr) : list pstr :=
  match s with
  | [] => []
  | c :: s' =>
      if isspace c then str_split s'
      else
        match s' with
        | [] => [[c]]
        | c' :: _ =>
            if isspace c' then [c] :: str_split s'
            else
              match str_split s' with
              | w :: ws => (c :: w) :: ws
              | [] => [[c]]
              end
        end
  end.

(** [s.split(sep)] for a one-character separator: every occurrence cuts,
    empty pieces are kept, and the result is never empty. *)
Fixpoint str_split_sep (sep : char) (s : pstr) : list pstr :=
  match s with
  | [] => [[]]
  | c :: s' =>
      if (c =? sep)%N then [] :: str_split_sep sep s'
      else
        match str_split_sep sep s' with
        | l :: ls => (c :: l) :: ls
        | [] => [[c]]
        end
  end.

(** [sep.join(parts)]. *)
Fixpoint str_join (sep : pstr) (parts : list pstr) : pstr :=
  match parts with
  | [] => []
  | [p] => p
  | p :: ps => p ++ sep ++ str_join sep ps
  end.

(** [s.startswith(p)] and [s.removeprefix(p)]. *)
Fixpoint str_startswith (s p : pstr) {struct p} : bool :=
  match p, s with
  | [], _ => true
  | _ :: _, [] => false
  | a :: p', b :: s' => (a =? b)%N && str_startswith s' p'
  end.

Definition str_removeprefix (s p : pstr) : pstr :=
  if str_startswith s p then drop (length p) s else s.

(** [s.replace(old, new)] for a non-empty [old]: occurrences are replaced
    left to right without overlap. [skip] counts the characters of the
    occurrence just replaced that are still to be passed over. *)
Fixpoint replace_go (old new : pstr) (skip : nat) (s : pstr) : pstr :=
  match s with
  | [] => []
  | c :: s' =>
      match skip with
      | S k => replace_go old new k s'
      | O =>
          if str_startswith s old
          then new ++ replace_go old new (length old - 1) s'
          else c :: replace_go old new 0 s'
      end
  end.

Definition str_replace (old new s : pstr) : pstr := replace_go old new 0 s.

(** JSON values as Python objects ([json.loads] results, [dict.get] results
    and response envelopes). A [float] is kept as its binary64 bit pattern. *)
Inductive pyval :=
| PNone
| PBool (b : bool)
| PInt (z : Z)
| PFloat (bits : Z)
| PStr (s : pstr)
| PList (l : list pyval)
| PDict (d : gmap pstr pyval).

(** Truth value of an object, as tested by [if], [not] and [or]. *)
Definition truthy (v : pyval) : bool :=
  match v with
  | PNone => false
  | PBool b => b
  | PInt z => negb (z =? 0)%Z
  | PFloat bits => negb ((bits =? 0)%Z || (bits =? 2 ^ 63)%Z)
  | PStr s => match s with [] => false | _ => true end
  | PList l => match l with [] => false | _ => true end
  | PDict d => negb (bool_decide (d = ∅))
  end.

(** [os.getenv(key, default)] over the process environment. *)
Definition getenv (environ : gmap pstr pstr) (key default : pstr) : pstr :=
  match environ !! key with
  | Some value => value
  | None => default
  end.

(** [not s] for a [str]. *)
Definition str_empty (s : pstr) : bool :=
  match s with [] => true | _ => false end.

(** A lone surrogate code point cannot be encoded as UTF-8. *)
Definition is_surrogate (c : char) : bool := ((55296 <=? c) && (c <=? 57343))%N.

(** [s.encode("utf-8")] succeeds exactly when [s] holds no surrogate. *)
Definition utf8_encodable (s : pstr) : bool := forallb (λ c, negb (is_surrogate c)) s.

(** [raw.decode("utf-8")] with the default strict error handler; [None]
    stands for [UnicodeDecodeError]. *)
Definition is_cont (b : N) : bool := ((128 <=? b) && (b <=? 191))%N.

Fixpoint utf8_decode_N (bs : list N) : option pstr :=
  match bs with
  | [] => Some []
  | b0 :: r0 =>
      if (b0 <? 128)%N then cons b0 <$> utf8_decode_N r0
      else if ((194 <=? b0) && (b0 <=? 223))%N then
        match r0 with
        | b1 :: r1 =>
            if is_cont b1
            then cons ((b0 - 192) * 64 + (b1 - 128))%N <$> utf8_decode_N r1
            else None
        | _ => None
        end
      else if ((224 <=? b0) && (b0 <=? 239))%N then
        match r0 with
        | b1 :: b2 :: r2 =>
            if is_cont b1 && is_cont b2
               && negb ((b0 =? 224) && (b1 <? 160))%N
               && negb ((b0 =? 237) && (160 <=? b1))%N
            then cons ((b0 - 224) * 4096 + (b1 - 128) * 64 + (b2 - 128))%N
                   <$> utf8_decode_N r2
            else None
        | _ => None
        end
      else if ((240 <=? b0) && (b0 <=? 244))%N then
        match r0 with
        | b1 :: b2 :: b3 :: r3 =>
            if is_cont b1 && is_cont b2 && is_cont b3
               && negb ((b0 =? 240) && (b1 <? 144))%N
               && negb ((b0 =? 244) && (144 <=? b1))%N
            then cons ((b0 - 240) * 262144 + (b1 - 128) * 4096
                       + (b2 - 128) * 64 + (b3 - 128))%N
                   <$> utf8_decode_N r3
            else None
        | _ => None
        end
      else None
  end.

Definition utf8_decode (raw : list Byte.byte) : option pstr :=
  utf8_decode_N (Byte.to_N <$> raw).

End Py.
Export Py.

(* ===================================================================== *)
(** ** Input sanitizer *)
(* ===================================================================== *)

Module Sanitizer.

(** [clean_text(value, max_len)] *)
Definition clean_text (value : option pyval) (max_len : nat) : pstr :=
  match value with
  | Some (PStr value) =>
      let compact := str_join [SPACE] (str_split (str_strip value)) in
      take max_len compact
  | _ => []
  end.

(** [clean_comment(value, max_len)] *)
Definition clean_comment (value : option pyval) (max_len : nat) : pstr :=
  match value with
  | Some (PStr value) =>
      let normalized :=
        str_strip (str_replace [CR] [LF] (str_replace [CR; LF] [LF] value)) in
      let lines := str_strip <$> str_split_sep LF normalized in
      take max_len (str_join [LF] (filter (λ line, line ≠ []) lines))
  | _ => []
  end.

(** [PHONE_RE = re.compile(r"^[0-9+()\-\s]{6,25}$")]: the character class. *)
Definition phone_class (c : char) : bool :=
  ((48 <=? c) && (c <=? 57) || (c =? 43) || (c =? 40) || (c =? 41) || (c =? 45))%N
  || isspace c.

(** [PHONE_RE.fullmatch(s) is not None]. Under [fullmatch] the match must
    span the whole string, so both anchors hold at its two ends and the
    bounded repetition has to consume every character. *)
Definition PHONE_RE_fullmatch (s : pstr) : bool :=
  (6 <=? length s) && (length s <=? 25) && forallb phone_class s.

(** The record returned by a successful validation. *)
Record valid_request := ValidRequest {
  vr_name : pstr;
  vr_phone : pstr;
  vr_car : pstr;
  vr_service : pstr;
  vr_comment : pstr
}.

(** [validate_payload(payload)]: [inl data] is [(data, None)] and
    [inr error] is [(None, error)]. *)
Definition validate_payload (payload : gmap pstr pyval) : valid_request + pstr :=
  let name := clean_text (payload !! u "name") 80 in
  let phone := clean_text (payload !! u "phone") 40 in
  let car := clean_text (payload !! u "car") 120 in
  let service := clean_text (payload !! u "service") 120 in
  let comment := clean_comment (payload !! u "comment") 600 in
  if str_empty name then inr (u "name_required")
  else if str_empty phone then inr (u "phone_required")
  else if negb (PHONE_RE_fullmatch phone) then inr (u "phone_invalid")
  else if str_empty car then inr (u "car_required")
  else if str_empty service then inr (u "service_required")
  else inl (ValidRequest name phone car service comment).

End Sanitizer.
Export Sanitizer.

(* ===================================================================== *)
(** ** Services cache *)
(* ===================================================================== *)

Module Cache.

Definition SERVICES_CACHE_TTL_SECONDS : Z := 60.

(** One row of the listing built by [fetch_active_services]. *)
Record service := Service {
  svc_id : Z;
  svc_name : pstr;
  svc_description : pstr;
  svc_duration_minutes : Z;
  svc_base_price : pstr
}.

(** The two module-level globals guarded by [_services_cache_lock]. Clock
    readings of [time.monotonic()] are counted in whole time units. *)
Record cache := MkCache {
  _services_cache_until : Z;
  _services_cache_data : option (list service)
}.

(** State at import time: [_services_cache_until = 0.0] and
    [_services_cache_data = None]. *)
Definition cache_init : cache :=
  {| _services_cache_until := 0; _services_cache_data := None |}.

(** [normalize_database_url(value)] *)
Definition normalize_database_url (value : pstr) : pstr :=
  let database_url := str_strip value in
  if str_startswith database_url (u "postgres://") then
    u "postgresql://" ++ str_removeprefix database_url (u "postgres://")
  else if str_startswith database_url (u "postgresql+asyncpg://") then
    u "postgresql://" ++ str_removeprefix database_url (u "postgresql+asyncpg://")
  else database_url.

(** [database_url] of line 189. *)
Definition database_url_of (environ : gmap pstr pstr) : pstr :=
  normalize_database_url (getenv environ (u "DATABASE_URL") []).

(** What [asyncio.run(fetch_active_services(database_url))] does at one
    call: it returns the listing or raises. *)
Inductive fetch_outcome :=
| Fetched (services : list service)
| RaisedModuleNotFoundError
| RaisedException.

(** The result of one call: the returned pair ([inl services] for
    [(services, None)], [inr error] for [(None, error)]), the arguments with
    which [fetch_active_services] was called at line 199, and the globals
    afterwards. The backing store is reached only inside such a call; when
    it raises [ModuleNotFoundError] the call failed at [import asyncpg],
    before any connection. *)
Record call_result := CallResult {
  returned : list service + pstr;
  fetch_calls : list pstr;
  cache_after : cache
}.

(** The locked read of lines 194-196: the snapshot, when there is one and
    [now < _services_cache_until]. *)
Definition cache_lookup (c : cache) (now : Z) : option (list service) :=
  match _services_cache_data c with
  | Some data => if (now <? _services_cache_until c)%Z then Some data else None
  | None => None
  end.

(** [load_active_services()], given the process environment, the reading
    [now] of the monotonic clock taken at line 193, the behaviour of the
    backing store during this call, and the globals before the call. *)
Definition load_active_services
    (environ : gmap pstr pstr) (now : Z)
    (fetch_active_services : pstr → fetch_outcome) (c : cache) : call_result :=
  let database_url := database_url_of environ in
  if str_empty database_url then
    CallResult (inr (u "database_not_configured")) [] c
  else
    match cache_lookup c now with
    | Some data => CallResult (inl data) [] c
    | None =>
        match fetch_active_services database_url with
        | RaisedModuleNotFoundError =>
            CallResult (inr (u "asyncpg_not_installed")) [database_url] c
        | RaisedException =>
            CallResult (inr (u "services_query_failed")) [database_url] c
        | Fetched services =>
            CallResult (inl services) [database_url]
              {| _services_cache_data := Some services;
                 _services_cache_until := now + SERVICES_CACHE_TTL_SECONDS |}
        end
    end.

(** One call as the environment sees it: the clock reading taken by the
    call before it looks at the cache, what the backing store answers, and
    the clock reading at which the fetch attempt (if any) completes. The
    code never reads [fetch_done]. *)
Record call := Call {
  call_now : Z;
  call_fetch : pstr → fetch_outcome;
  fetch_done : Z
}.

(** Calls that do not overlap, in a process with environment [environ]:
    each call returns before the next one looks at the cache. Calls that
    overlap are those of [Threads.run]. *)
Fixpoint serve (environ : gmap pstr pstr) (calls : list call) (c : cache)
  : list call_result * cache :=
  match calls with
  | [] => ([], c)
  | k :: ks =>
      let r := load_active_services environ (call_now k) (call_fetch k) c in
      let '(rs, c') := serve environ ks (cache_after r) in
      (r :: rs, c')
  end.

End Cache.
Export Cache.

(* ===================================================================== *)
(** ** Calls of the services cache that overlap *)
(* ===================================================================== *)

Module Threads.

(** [ThreadingHTTPServer] serves every request in a thread of its own, so
    calls of [load_active_services] overlap. [_services_cache_lock] is held
    for the read of lines 194-196 and for the write of lines 205-207 only;
    while the fetch runs between the two, other calls read and write the
    globals. A call in flight is at one of these points:
    - [AtLookup k]: the clock is read (line 193), the lock not yet taken;
    - [AtPublish k]: the locked read found nothing fresh and the fetch of
      line 199 is under way;
    - [Returned r calls]: the call returned [r], having called
      [fetch_active_services] with the arguments [calls]. *)
Inductive thread :=
| AtLookup (k : call)
| AtPublish (k : call)
| Returned (r : list service + pstr) (calls : list pstr).

(** What a step of a call does, as seen from outside. *)
Inductive event :=
| Unconfigured
| Hit (k : call) (data : list service)
| Miss (k : call)
| Publish (k : call) (services : list service)
| Failed (k : call) (error : pstr)
| Idle.

(** One step of a call on the globals [c]. The step of [AtLookup] is the
    test of line 190 and the locked read of lines 194-196. The step of
    [AtPublish] is the end of the fetch and, when it succeeded, the locked
    write of lines 205-207: the fetch itself touches no global, so only its
    end is a step. A call that returned has no step left. *)
Definition step (environ : gmap pstr pstr) (c : cache) (t : thread)
  : cache * thread * event :=
  let database_url := database_url_of environ in
  match t with
  | AtLookup k =>
      if str_empty database_url then
        (c, Returned (inr (u "database_not_configured")) [], Unconfigured)
      else
        match cache_lookup c (call_now k) with
        | Some data => (c, Returned (inl data) [], Hit k data)
        | None => (c, AtPublish k, Miss k)
        end
  | AtPublish k =>
      match call_fetch k database_url with
      | RaisedModuleNotFoundError =>
          (c, Returned (inr (u "asyncpg_not_installed")) [database_url],
           Failed k (u "asyncpg_not_installed"))
      | RaisedException =>
          (c, Returned (inr (u "services_query_failed")) [database_url],
           Failed k (u "services_query_failed"))
      | Fetched services =>
          ({| _services_cache_data := Some services;
              _services_cache_until := call_now k + SERVICES_CACHE_TTL_SECONDS |},
           Returned (inl services) [database_url],
           Publish k services)
      end
  | Returned _ _ => (c, t, Idle)
  end.

(** The globals and the calls in flight. *)
Record pool := Pool {
  pool_cache : cache;
  pool_threads : list thread
}.

(** The calls take their steps in the order of [schedule], a list of
    positions in the pool: any interleaving of the calls is a schedule. The
    result is the trace, one entry per entry of the schedule, and the pool
    at the end. *)
Fixpoint run (environ : gmap pstr pstr) (schedule : list nat) (p : pool)
  : list (nat * event) * pool :=
  match schedule with
  | [] => ([], p)
  | i :: rest =>
      match pool_threads p !! i with
      | None =>
          let '(trace, p') := run environ rest p in ((i, Idle) :: trace, p')
      | Some t =>
          let '(c, t', e) := step environ (pool_cache p) t in
          let '(trace, p') :=
            run environ rest (Pool c (<[i := t']> (pool_threads p))) in
          ((i, e) :: trace, p')
      end
  end.

(** The schedule of [n] calls that do not overlap: each call takes its two
    steps before the next one starts. *)
Definition sequential (n : nat) : list nat :=
  flat_map (λ i, [i; i]) (seq 0 n).

(** A call that returned, as a thread. *)
Definition to_thread (r : call_result) : thread :=
  Returned (returned r) (fetch_calls r).

(** The last successful fetch that stored its listing during a trace. *)
Fixpoint last_publish (trace : list (nat * event)) : option (call * list service) :=
  match trace with
  | [] => None
  | (_, e) :: rest =>
      match last_publish rest with
      | Some stored => Some stored
      | None => match e with
                | Publish k services => Some (k, services)
                | _ => None
                end
      end
  end.

(** The step of a call [k] that looks at the cache. *)
Definition is_lookup (k : call) (e : event) : Prop :=
  e = Miss k ∨ ∃ data, e = Hit k data.

(** How the fetch of a call [k] that missed ends: the event, and what the
    call returns. *)
Definition fetch_event (environ : gmap pstr pstr) (k : call) : event :=
  match call_fetch k (database_url_of environ) with
  | Fetched services => Publish k services
  | RaisedModuleNotFoundError => Failed k (u "asyncpg_not_installed")
  | RaisedException => Failed k (u "services_query_failed")
  end.

Definition fetch_result (environ : gmap pstr pstr) (k : call) : list service + pstr :=
  match call_fetch k (database_url_of environ) with
  | Fetched services => inl services
  | RaisedModuleNotFoundError => inr (u "asyncpg_not_installed")
  | RaisedException => inr (u "services_query_failed")
  end.

(** How many steps the schedule gives to the call at position [i]. *)
Fixpoint steps_of (i : nat) (schedule : list nat) : nat :=
  match schedule with
  | [] => 0
  | x :: rest => (if bool_decide (x = i) then 1 else 0) + steps_of i rest
  end.

(** Where a call whose fetch fails stands after [n] steps. *)
Definition failing_thread (environ : gmap pstr pstr) (k : call) (n : nat) : thread :=
  match n with
  | 0 => AtLookup k
  | 1 => AtPublish k
  | _ => Returned (fetch_result environ k) [database_url_of environ]
  end.

End Threads.
Export Threads.

(* ===================================================================== *)
(** ** Request handler *)
(* ===================================================================== *)

Module Handler.

Definition MAX_BODY_BYTES : Z := 20000.

(** Exceptions the modelled code can raise. *)
Inductive exn :=
| ValueError
| UnicodeDecodeError
| UnicodeEncodeError
| JSONDecodeError
| RecursionError
| OSError.

Inductive result (A : Type) :=
| Ok (a : A)
| Raise (e : exn).
Arguments Ok {A} a.
Arguments Raise {A} e.

#[export] Instance result_bind : MBind result := λ A B k r,
  match r with
  | Ok a => k a
  | Raise e => Raise e
  end.

(** Library functions of the Python runtime the handler calls: [int(s)] on
    a [str] ([None] is [ValueError]), [str(v)], and [json.loads(text)]. *)
Class PyBuiltins := {
  py_int : pstr → option Z;
  py_str : pyval → pstr;
  json_loads : pstr → result pyval
}.

(** [parse_admin_ids()] *)
Definition parse_admin_ids (environ : gmap pstr pstr) : list pstr :=
  let raw := getenv environ (u "ADMIN_IDS") [] in
  filter (λ value, value ≠ []) (str_strip <$> str_split_sep 44%N raw).

(** [build_admin_message(data, client_ip)]; [ts] is
    [datetime.now().strftime("%d.%m.%Y %H:%M")]. *)
Definition build_admin_message (data : valid_request) (client_ip ts : pstr) : pstr :=
  let comment := if str_empty (vr_comment data) then [8212%N] else vr_comment data in
  [127381; 32; 1053; 1086; 1074; 1072; 1103; 32; 1079; 1072; 1103; 1074; 1082;
   1072; 32; 1089; 32; 1089; 1072; 1081; 1090; 1072; 32; 68; 82; 73; 86; 79; 78;
   10]%N
  ++ [1048; 1084; 1103; 58; 32]%N ++ vr_name data
  ++ [10; 1058; 1077; 1083; 1077; 1092; 1086; 1085; 58; 32]%N ++ vr_phone data
  ++ [10; 1040; 1074; 1090; 1086; 1084; 1086; 1073; 1080; 1083; 1100; 58; 32]%N
  ++ vr_car data
  ++ [10; 1059; 1089; 1083; 1091; 1075; 1072; 58; 32]%N ++ vr_service data
  ++ [10; 1050; 1086; 1084; 1084; 1077; 1085; 1090; 1072; 1088; 1080; 1081; 58;
      32]%N ++ comment
  ++ [10; 73; 80; 58; 32]%N ++ client_ip
  ++ [10; 1042; 1088; 1077; 1084; 1103; 58; 32]%N ++ ts.

(** What happens inside the [try] block of [send_telegram_message]:
    [urlopen], [resp.read().decode("utf-8")] and [json.loads(raw)] either
    yield the decoded body or raise. *)
Inductive urlopen_outcome :=
| Replied (body : pyval)
| RaisedHTTPError (code : Z)
| RaisedURLError
| RaisedOtherException.

Section handler.
Context `{PyBuiltins}.

(** The [try] block of [send_telegram_message] with its [except] clauses:
    the pair returned for what the outbound call met. A body that is not a
    [dict] has no [get], and the [AttributeError] falls to the last clause. *)
Definition telegram_try (network : urlopen_outcome) : bool * option pstr :=
  match network with
  | Replied (PDict body) =>
      if from_option truthy false (body !! u "ok") then (true, None)
      else
        let description := default PNone (body !! u "description") in
        (false,
         Some (py_str (if truthy description then description
                       else PStr (u "telegram_unknown_error"))))
  | Replied _ => (false, Some (u "telegram_request_failed"))
  | RaisedHTTPError code => (false, Some (u "http_" ++ py_str (PInt code)))
  | RaisedURLError => (false, Some (u "telegram_unreachable"))
  | RaisedOtherException => (false, Some (u "telegram_request_failed"))
  end.

(** [send_telegram_message(bot_token, chat_id, text, thread_id)]. The
    conversion [int(thread_id)] and the UTF-8 encoding of the JSON payload
    come before the [try] block, so what they raise leaves the function. *)
Definition send_telegram_message
    (bot_token chat_id text : pstr) (thread_id : option pstr)
    (network : urlopen_outcome) : result (bool * option pstr) :=
  _ ← match thread_id with
      | Some t => match py_int t with Some n => Ok () | None => Raise ValueError end
      | None => Ok ()
      end;
  _ ← (if utf8_encodable chat_id && utf8_encodable text
       then Ok () else Raise UnicodeEncodeError);
  Ok (telegram_try network).

(** The [for admin_id in admin_ids] loop of [do_POST]; [i] is the position
    of [admin_id] in the configured list and [network i] what the [i]-th
    outbound call meets. *)
Fixpoint fan_out (bot_token text : pstr) (thread_id : option pstr)
    (network : nat → urlopen_outcome) (i : nat) (admin_ids : list pstr)
    (delivered : Z) (errors : list pstr) : result (Z * list pstr) :=
  match admin_ids with
  | [] => Ok (delivered, errors)
  | admin_id :: rest =>
      '(success, send_error) ←
        send_telegram_message bot_token admin_id text thread_id (network i);
      if success : bool then
        fan_out bot_token text thread_id network (S i) rest (delivered + 1) errors
      else
        match send_error with
        | Some ((_ :: _) as send_error) =>
            fan_out bot_token text thread_id network (S i) rest delivered
              (errors ++ [admin_id ++ u ":" ++ send_error])
        | _ =>
            fan_out bot_token text thread_id network (S i) rest delivered errors
        end
  end.

(** An inbound request: [urlparse(self.path).path], the [Content-Length]
    header if present, the bytes readable from [self.rfile], and the host of
    [self.client_address] if any. *)
Record request := Request {
  req_path : pstr;
  req_content_length : option pstr;
  req_rfile : list Byte.byte;
  req_client_address : option pstr
}.

(** How [do_POST] ends: [self.respond_json(status, data)],
    [self.send_error(status)], or an exception that leaves the handler. *)
Inductive outcome :=
| respond_json (status : Z) (data : gmap pstr pyval)
| error_page (status : Z)
| uncaught (e : exn).

(** The configuration read at lines 265-267. *)
Definition bot_token_of (environ : gmap pstr pstr) : pstr :=
  str_strip (getenv environ (u "BOT_TOKEN") []).

Definition thread_id_of (environ : gmap pstr pstr) : option pstr :=
  match str_strip (getenv environ (u "TELEGRAM_THREAD_ID") []) with
  | [] => None
  | t => Some t
  end.

(** [length] of lines 275-278. *)
Definition content_length (req : request) : Z :=
  match req_content_length req with
  | Some v => match py_int v with Some n => n | None => 0 end
  | None => 0
  end.

(** [AppHandler.do_POST()], lines 260-298: routing, the configuration check
    and the guards on the body. [inl] is the response that ends the request,
    [inr] the validated record handed on to delivery. *)
Definition do_POST_intake (environ : gmap pstr pstr) (req : request)
  : outcome + valid_request :=
  if negb (bool_decide (req_path req = u "/api/request")) then inl (error_page 404)
  else
    let bot_token := bot_token_of environ in
    let admin_ids := parse_admin_ids environ in
    if str_empty bot_token || bool_decide (admin_ids = []) then
      inl (respond_json 500
             {[ u "ok" := PBool false; u "error" := PStr (u "server_not_configured") ]})
    else
      let length := content_length req in
      if ((length <=? 0) || (MAX_BODY_BYTES <? length))%Z then
        inl (respond_json 400
               {[ u "ok" := PBool false; u "error" := PStr (u "invalid_body_size") ]})
      else
        let raw := take (Z.to_nat length) (req_rfile req) in
        match utf8_decode raw with
        | None => inl (uncaught UnicodeDecodeError)
        | Some text =>
            match json_loads text with
            | Raise JSONDecodeError =>
                inl (respond_json 400
                       {[ u "ok" := PBool false; u "error" := PStr (u "invalid_json") ]})
            | Raise e => inl (uncaught e)
            | Ok (PDict payload) =>
                match validate_payload payload with
                | inr error =>
                    inl (respond_json 400
                           {[ u "ok" := PBool false;
                              u "error" := PStr (if str_empty error
                                                 then u "invalid_payload"
                                                 else error) ]})
                | inl valid => inr valid
                end
            | Ok _ =>
                inl (respond_json 400
                       {[ u "ok" := PBool false; u "error" := PStr (u "invalid_payload") ]})
            end
        end.

(** [AppHandler.do_POST()], lines 300-319: the message, the fan-out and the
    aggregate response. [respond_json] starts with
    [json.dumps(data, ensure_ascii=False).encode("utf-8")] (line 220), which
    raises [UnicodeEncodeError] on a string that holds a lone surrogate,
    before anything is sent. The envelopes of [do_POST] hold constants and
    integers, except [details], whose entries carry what Telegram answered. *)
Definition do_POST_deliver (environ : gmap pstr pstr) (ts : pstr)
    (network : nat → urlopen_outcome) (req : request) (valid : valid_request)
  : outcome :=
  let bot_token := bot_token_of environ in
  let admin_ids := parse_admin_ids environ in
  let thread_id := thread_id_of environ in
  let client_ip := default (u "-") (req_client_address req) in
  let text := build_admin_message valid client_ip ts in
  match fan_out bot_token text thread_id network 0 admin_ids 0 [] with
  | Raise e => uncaught e
  | Ok (delivered, errors) =>
      if (delivered =? 0)%Z then
        if forallb utf8_encodable errors then
          respond_json 502
            {[ u "ok" := PBool false;
               u "error" := PStr (u "telegram_send_failed");
               u "details" := PList (PStr <$> errors) ]}
        else uncaught UnicodeEncodeError
      else
        respond_json 200
          {[ u "ok" := PBool true; u "delivered" := PInt delivered ]}
  end.

(** [AppHandler.do_POST()] *)
Definition do_POST (environ : gmap pstr pstr) (ts : pstr)
    (network : nat → urlopen_outcome) (req : request) : outcome :=
  match do_POST_intake environ req with
  | inl response => response
  | inr valid => do_POST_deliver environ ts network req valid
  end.

End handler.

End Handler.
Export Handler.

(* ===================================================================== *)
(** ** The specification's wording, as definitions to compare with *)
(* ===================================================================== *)

Module Spec.

(** "Collapse all internal whitespace runs to single spaces": every maximal
    run of whitespace characters becomes one space. *)
Fixpoint collapse_ws (s : pstr) : pstr :=
  match s with
  | [] => []
  | c :: s' =>
      if isspace c then
        match s' with
        | [] => [SPACE]
        | c' :: _ => if isspace c' then collapse_ws s' else SPACE :: collapse_ws s'
        end
      else c :: collapse_ws s'
  end.

(** Text fields: collapse, then trim both ends, then truncate. *)
Definition text_field (s : pstr) (max_len : nat) : pstr :=
  take max_len (str_strip (collapse_ws s)).

(** "Normalize all line-ending styles to one": CR LF, lone CR and LF all
    become LF, in one pass. *)
Fixpoint normalize_newlines (s : pstr) : pstr :=
  match s with
  | [] => []
  | c :: s' =>
      if (c =? CR)%N then
        match s' with
        | [] => [LF]
        | c' :: _ => if (c' =? LF)%N then normalize_newlines s' else LF :: normalize_newlines s'
        end
      else c :: normalize_newlines s'
  end.

(** "Trim per-line, drop resulting empty lines." *)
Definition keep_trimmed (ls : list pstr) : list pstr :=
  filter (λ line, line ≠ []) (str_strip <$> ls).

(** The trimmed, non-empty lines of a text whose line ending is LF. *)
Definition kept_lines (t : pstr) : list pstr := keep_trimmed (str_split_sep LF t).

(** Comment field: normalize line endings, trim per line, drop the lines
    that became empty, rejoin with newline, truncate. *)
Definition comment_field (s : pstr) (max_len : nat) : pstr :=
  take max_len (str_join [LF] (kept_lines (normalize_newlines s))).

(** The phone character class in the specification's words: digits, [+],
    [-], [(], [)] and spaces. *)
Definition allowed_phone_char (c : char) : bool :=
  ((48 <=? c) && (c <=? 57) || (c =? 43) || (c =? 45) || (c =? 40) || (c =? 41)
   || (c =? 32))%N.

Definition phone_matches (s : pstr) : Prop :=
  6 ≤ length s ≤ 25 ∧ Forall (λ c, allowed_phone_char c = true) s.

(** The rejection reasons in their priority order, each with the condition
    under which it applies to the normalized fields. *)
Definition rejection_table (name phone car service : pstr) : list (pstr * bool) :=
  [ (u "name_required", str_empty name);
    (u "phone_required", str_empty phone);
    (u "phone_invalid", negb (PHONE_RE_fullmatch phone));
    (u "car_required", str_empty car);
    (u "service_required", str_empty service) ].

(** The reasons that apply, in priority order. *)
Definition applicable_reasons (name phone car service : pstr) : list pstr :=
  fst <$> filter (λ entry, snd entry = true) (rejection_table name phone car service).

(** Delivery report: how many deliveries succeeded, and one
    [recipient_id:error_code] entry per failed delivery, in recipient order. *)
Definition delivered_count (outcomes : list (pstr * option pstr)) : Z :=
  Z.of_nat (length (filter (λ o, snd o = None) outcomes)).

Definition failure_entries (outcomes : list (pstr * option pstr)) : list pstr :=
  omap (λ o, match snd o with
             | Some code => Some (fst o ++ u ":" ++ code)
             | None => None
             end) outcomes.

(** What each delivery met, in recipient order: [None] for a success, the
    error code for a failure. [i] is the position of the first recipient. *)
Fixpoint delivery_outcomes `{PyBuiltins} (network : nat → urlopen_outcome)
    (i : nat) (admin_ids : list pstr) : list (pstr * option pstr) :=
  match admin_ids with
  | [] => []
  | admin_id :: rest =>
      (admin_id,
       let '(success, send_error) := telegram_try (network i) in
       if success : bool then None else Some (default [] send_error))
      :: delivery_outcomes network (S i) rest
  end.

(** The freshness window as the specification words it: 60 time units
    counted from the completion of the fetch. *)
Definition fresh_since_completion (done t : Z) : Prop :=
  (done ≤ t < done + 60)%Z.

End Spec.
Export Spec.

(* ===================================================================== *)
(** ** A sample deployment *)
(* ===================================================================== *)

(** Concrete requests, environments and a stand-in for the Python runtime,
    on which the general statements below are exercised. *)
Module Sample.

(** Stand-in for [int(s)]: surrounding whitespace and ASCII digits. *)
Fixpoint digits_value (acc : Z) (s : pstr) : option Z :=
  match s with
  | [] => Some acc
  | c :: s' =>
      if ((48 <=? c) && (c <=? 57))%N
      then digits_value (10 * acc + Z.of_N (c - 48)) s'
      else None
  end.

Definition sample_int (s : pstr) : option Z :=
  match str_strip s with
  | [] => None
  | digits => digits_value 0 digits
  end.

(** Decimal digits of a number, most significant first. *)
Fixpoint digits_of (fuel : nat) (n : N) (acc : pstr) : pstr :=
  let acc' := (48 + n mod 10)%N :: acc in
  match fuel with
  | O => acc'
  | S fuel' => if (n / 10 =? 0)%N then acc' else digits_of fuel' (n / 10)%N acc'
  end.

Definition decimal (z : Z) : pstr :=
  (if (z <? 0)%Z then [45%N] else [])
  ++ digits_of (N.to_nat (Z.to_N (Z.abs z))) (Z.to_N (Z.abs z)) [].

(** Stand-in for [str(v)]: exact on strings and integers. *)
Definition sample_str (v : pyval) : pstr :=
  match v with
  | PStr s => s
  | PInt z => decimal z
  | _ => u "<object>"
  end.

Definition json_str (s : pstr) : pstr := [34%N] ++ s ++ [34%N].

(** A submission and the JSON text that carries it. *)
Definition sample_payload : gmap pstr pyval :=
  {[ u "name" := PStr (u "Ivan");
     u "phone" := PStr (u "+7 (900) 123-45-67");
     u "car" := PStr (u "BMW X5");
     u "service" := PStr (u "Polishing") ]}.

Definition sample_text : pstr :=
  u "{" ++ json_str (u "name") ++ u ": " ++ json_str (u "Ivan") ++ u ", "
  ++ json_str (u "phone") ++ u ": " ++ json_str (u "+7 (900) 123-45-67") ++ u ", "
  ++ json_str (u "car") ++ u ": " ++ json_str (u "BMW X5") ++ u ", "
  ++ json_str (u "service") ++ u ": " ++ json_str (u "Polishing") ++ u "}".

(** Stand-in for [json.loads]: it knows the sample document, the empty
    array and the empty object. *)
Definition sample_loads (text : pstr) : result pyval :=
  if bool_decide (text = sample_text) then Ok (PDict sample_payload)
  else if bool_decide (text = u "[]") then Ok (PList [])
  else if bool_decide (text = u "{}") then Ok (PDict ∅)
  else Raise JSONDecodeError.

Definition sample_builtins : PyBuiltins :=
  {| py_int := sample_int; py_str := sample_str; json_loads := sample_loads |}.

(** ASCII text as the bytes on the wire. *)
Definition ascii_bytes (s : pstr) : list Byte.byte := omap Byte.of_N s.

(** A configured deployment with three recipients, and one without
    recipients. *)
Definition sample_environ : gmap pstr pstr :=
  {[ u "BOT_TOKEN" := u "123:abc";
     u "ADMIN_IDS" := u "101, 102,103";
     u "DATABASE_URL" := u "postgres://drivon@db/drivon" ]}.

Definition unconfigured_environ : gmap pstr pstr :=
  {[ u "BOT_TOKEN" := u "123:abc" ]}.

Definition sample_request : request :=
  {| req_path := u "/api/request";
     req_content_length := Some (u "88");
     req_rfile := ascii_bytes sample_text;
     req_client_address := Some (u "203.0.113.7") |}.

Definition sample_valid : valid_request :=
  {| vr_name := u "Ivan"; vr_phone := u "+7 (900) 123-45-67";
     vr_car := u "BMW X5"; vr_service := u "Polishing"; vr_comment := [] |}.

Definition sample_ts : pstr := u "03.11.2026 12:00".


(** Every recipient is rejected with HTTP 403. *)
Definition all_fail (i : nat) : urlopen_outcome := RaisedHTTPError 403.

Definition polishing : service :=
  {| svc_id := 1; svc_name := u "Polishing"; svc_description := [];
     svc_duration_minutes := 90; svc_base_price := u "4500.00" |}.

Definition washing : service :=
  {| svc_id := 2; svc_name := u "Washing"; svc_description := [];
     svc_duration_minutes := 30; svc_base_price := u "900.00" |}.

End Sample.
Export Sample.

(* ===================================================================== *)
(** ** Configuration file *)
(* ===================================================================== *)

Module Dotenv.

(** The line boundaries of [str.splitlines()]. *)
Definition is_linebreak (c : char) : bool :=
  ((c =? 10) || (c =? 11) || (c =? 12) || (c =? 13) || (c =? 28) || (c =? 29)
   || (c =? 30) || (c =? 133) || (c =? 8232) || (c =? 8233))%N.

(** [s.splitlines()]: CR LF is one boundary, and a final boundary opens no
    empty last line. [skip_lf] holds right after a CR. *)
Fixpoint splitlines_go (skip_lf : bool) (s : pstr) : list pstr :=
  match s with
  | [] => []
  | c :: s' =>
      if skip_lf && (c =? LF)%N then splitlines_go false s'
      else if is_linebreak c then [] :: splitlines_go (c =? CR)%N s'
      else
        match splitlines_go false s' with
        | l :: ls => (c :: l) :: ls
        | [] => [[c]]
        end
  end.

Definition str_splitlines (s : pstr) : list pstr := splitlines_go false s.

(** Reading a file in text mode translates CR LF and CR to LF. *)
Fixpoint translate_newlines (s : pstr) : pstr :=
  match s with
  | [] => []
  | c :: s' =>
      if (c =? CR)%N then
        match s' with
        | [] => [LF]
        | c' :: _ => if (c' =? LF)%N then translate_newlines s' else LF :: translate_newlines s'
        end
      else c :: translate_newlines s'
  end.

(** [s.strip(chars)] for a one-character [chars]. *)
Fixpoint str_lstrip_char (q : char) (s : pstr) : pstr :=
  match s with
  | [] => []
  | c :: s' => if (c =? q)%N then str_lstrip_char q s' else s
  end.

Fixpoint str_rstrip_char (q : char) (s : pstr) : pstr :=
  match s with
  | [] => []
  | c :: s' =>
      match str_rstrip_char q s' with
      | [] => if (c =? q)%N then [] else [c]
      | r => c :: r
      end
  end.

Definition str_strip_char (q : char) (s : pstr) : pstr :=
  str_rstrip_char q (str_lstrip_char q s).

(** [s.split(sep, 1)] when [sep] occurs in [s]: the text before the first
    occurrence and the text after it. *)
Fixpoint split_once (sep : char) (s : pstr) : option (pstr * pstr) :=
  match s with
  | [] => None
  | c :: s' =>
      if (c =? sep)%N then Some ([], s')
      else prod_map (cons c) id <$> split_once sep s'
  end.

(** [os.environ[key] = value]: both strings are encoded with the
    surrogateescape handler, then [putenv] refuses an embedded NUL. *)
Definition fs_encodable (s : pstr) : bool :=
  forallb (λ c, negb (is_surrogate c) || ((56448 <=? c) && (c <=? 56575))%N) s.

Definition environ_setitem (environ : gmap pstr pstr) (key value : pstr)
  : result (gmap pstr pstr) :=
  if negb (fs_encodable key && fs_encodable value) then Raise UnicodeEncodeError
  else if bool_decide (0%N ∈ key) || bool_decide (0%N ∈ value) then Raise ValueError
  else Ok (<[key := value]> environ).

(** The body of the [for raw_line in ...] loop of [load_dotenv]. *)
Definition dotenv_line (environ : gmap pstr pstr) (raw_line : pstr)
  : result (gmap pstr pstr) :=
  let line := str_strip raw_line in
  if str_empty line || str_startswith line (u "#") || negb (bool_decide (61%N ∈ line))
  then Ok environ
  else
    match split_once 61%N line with
    | None => Ok environ
    | Some (key, value) =>
        let key := str_strip key in
        let value := str_strip_char 34%N (str_strip_char 39%N (str_strip value)) in
        if negb (str_empty key) && negb (bool_decide (is_Some (environ !! key)))
        then environ_setitem environ key value
        else Ok environ
    end.

Fixpoint dotenv_lines (environ : gmap pstr pstr) (lines : list pstr)
  : result (gmap pstr pstr) :=
  match lines with
  | [] => Ok environ
  | raw_line :: rest =>
      environ' ← dotenv_line environ raw_line;
      dotenv_lines environ' rest
  end.

(** What the file system answers at lines 32-34: [path.exists()] is false;
    or the path is there and cannot be read, so that [path.exists()] or
    [path.read_text] raises an [OSError] ([IsADirectoryError] for a
    directory, [PermissionError] for a file without read permission); or
    [path.read_text] reads the bytes of the file. *)
Inductive dotenv_file :=
| NoFile
| RaisedOSError
| FileBytes (raw : list Byte.byte).

(** [load_dotenv(path)]; the result is [os.environ] afterwards. *)
Definition load_dotenv (file : dotenv_file) (environ : gmap pstr pstr)
  : result (gmap pstr pstr) :=
  match file with
  | NoFile => Ok environ
  | RaisedOSError => Raise OSError
  | FileBytes raw =>
      match utf8_decode raw with
      | None => Raise UnicodeDecodeError
      | Some text => dotenv_lines environ (str_splitlines (translate_newlines text))
      end
  end.

End Dotenv.
Export Dotenv.

(* ===================================================================== *)
(** ** The other routes *)
(* ===================================================================== *)

Module Routes.

(** How [do_OPTIONS] ends: 204 with an [Allow] header, or [send_error]. *)
Inductive options_outcome :=
| no_content (allow : pstr)
| options_error (status : Z).

(** [AppHandler.do_OPTIONS()]; [path] is [urlparse(self.path).path]. *)
Definition do_OPTIONS (path : pstr) : options_outcome :=
  if bool_decide (path = u "/api/request") then no_content (u "POST, OPTIONS")
  else if bool_decide (path = u "/api/services") then no_content (u "GET, OPTIONS")
  else options_error 404.

(** One listing row as sent in the [services] array. *)
Definition service_dict (s : service) : pyval :=
  PDict {[ u "id" := PInt (svc_id s);
           u "name" := PStr (svc_name s);
           u "description" := PStr (svc_description s);
           u "duration_minutes" := PInt (svc_duration_minutes s);
           u "base_price" := PStr (svc_base_price s) ]}.

(** How [do_GET] ends: the static file handler of the base class takes
    over, or a JSON envelope is sent. *)
Inductive get_outcome :=
| static_file
| get_json (status : Z) (data : gmap pstr pyval).

(** [AppHandler.do_GET()]: the outcome and the cache globals afterwards. *)
Definition do_GET (environ : gmap pstr pstr) (now : Z)
    (fetch_active_services : pstr → fetch_outcome) (c : cache) (path : pstr)
  : get_outcome * cache :=
  if negb (bool_decide (path = u "/api/services")) then (static_file, c)
  else
    let r := load_active_services environ now fetch_active_services c in
    match returned r with
    | inr error =>
        let status :=
          if bool_decide (error = u "database_not_configured")
             || bool_decide (error = u "asyncpg_not_installed")
          then 500%Z else 502%Z in
        (get_json status
           {[ u "ok" := PBool false;
              u "error" := PStr (if str_empty error
                                 then u "services_unavailable" else error) ]},
         cache_after r)
    | inl services =>
        (get_json 200
           {[ u "ok" := PBool true;
              u "services" := PList (service_dict <$> services);
              u "count" := PInt (Z.of_nat (length services)) ]},
         cache_after r)
    end.

End Routes.
Export Routes.

(* ===================================================================== *)
(** ** Vocabulary for the further properties *)
(* ===================================================================== *)

Module Shape.

(** No two neighbouring characters both satisfy [P]. *)
Fixpoint no_adjacent (P : char → bool) (s : pstr) : bool :=
  match s with
  | [] => true
  | c :: s' =>
      match s' with
      | [] => true
      | c' :: _ => negb (P c && P c') && no_adjacent P s'
      end
  end.

(** The first character, if any, does not satisfy [P]. *)
Definition no_leading (P : char → bool) (s : pstr) : bool :=
  match s with
  | [] => true
  | c :: _ => negb (P c)
  end.

Definition is_LF (c : char) : bool := (c =? LF)%N.

(** The successful fetch of a call, if it made one: the clock reading of
    the call and the listing fetched. *)
Definition fetched (k : call) (r : call_result) : option (Z * list service) :=
  match fetch_calls r, returned r with
  | _ :: _, inl services => Some (call_now k, services)
  | _, _ => None
  end.


(** What a line of the configuration file assigns, if anything: the key
    and the value, for a line that is not blank, not a comment, holds an
    equals sign and has a non-empty key. *)
Definition dotenv_assignment (raw_line : pstr) : option (pstr * pstr) :=
  let line := str_strip raw_line in
  if str_empty line || str_startswith line (u "#") then None
  else
    match split_once 61%N line with
    | None => None
    | Some (key, value) =>
        if str_empty (str_strip key) then None
        else Some (str_strip key,
                   str_strip_char 34%N (str_strip_char 39%N (str_strip value)))
    end.

(** The value of the first line that assigns [key]. *)
Fixpoint dotenv_lookup (key : pstr) (lines : list pstr) : option pstr :=
  match lines with
  | [] => None
  | raw_line :: rest =>
      match dotenv_assignment raw_line with
      | Some (k, value) =>
          if bool_decide (k = key) then Some value else dotenv_lookup key rest
      | None => dotenv_lookup key rest
      end
  end.

(** The response codes [do_POST] can put in an [error] field. *)
Definition post_error_codes : list pstr :=
  [ u "server_not_configured"; u "invalid_body_size"; u "invalid_json";
    u "invalid_payload"; u "name_required"; u "phone_required";
    u "phone_invalid"; u "car_required"; u "service_required";
    u "telegram_send_failed" ].

End Shape.
Export Shape.

(** Further sample data: a configuration file and a run of cache calls. *)
Module MoreSamples.

Definition sample_dotenv : list Byte.byte :=
  ascii_bytes
    (u "# DRIVON" ++ [LF] ++ u "BOT_TOKEN = 'from-file'" ++ [CR; LF]
     ++ u "ADMIN_IDS=101, 102" ++ [LF] ++ u "no equals sign here" ++ [LF]
     ++ u "ADMIN_IDS=999" ++ [LF]).

(** A submission whose name is the JSON escape of the lone surrogate
    U+D800, which [json.loads] turns into that code point, and a stand-in
    for [json.loads] that knows this document. *)
Definition surrogate_text : pstr :=
  u "{" ++ json_str (u "name") ++ u ": " ++ json_str (u "\ud800") ++ u ", "
  ++ json_str (u "phone") ++ u ": " ++ json_str (u "+7 (900) 123-45-67") ++ u ", "
  ++ json_str (u "car") ++ u ": " ++ json_str (u "BMW X5") ++ u ", "
  ++ json_str (u "service") ++ u ": " ++ json_str (u "Polishing") ++ u "}".

Definition surrogate_payload : gmap pstr pyval :=
  <[ u "name" := PStr [55296%N] ]> sample_payload.

Definition surrogate_loads (text : pstr) : result pyval :=
  if bool_decide (text = surrogate_text) then Ok (PDict surrogate_payload)
  else sample_loads text.

Definition surrogate_builtins : PyBuiltins :=
  {| py_int := sample_int; py_str := sample_str; json_loads := surrogate_loads |}.

Definition surrogate_request : request :=
  {| req_path := u "/api/request";
     req_content_length := Some (u "90");
     req_rfile := ascii_bytes surrogate_text;
     req_client_address := Some (u "203.0.113.7") |}.

Definition surrogate_valid : valid_request :=
  {| vr_name := [55296%N]; vr_phone := u "+7 (900) 123-45-67";
     vr_car := u "BMW X5"; vr_service := u "Polishing"; vr_comment := [] |}.

(** Every recipient accepts the message. *)
Definition all_accept (i : nat) : urlopen_outcome :=
  Replied (PDict {[ u "ok" := PBool true ]}).

(** Telegram refuses every recipient with a description that holds the
    lone surrogate U+D800 (sent as the escape of it). *)
Definition surrogate_replies (i : nat) : urlopen_outcome :=
  Replied (PDict {[ u "ok" := PBool false;
                    u "description" := PStr [55296%N] ]}).

Definition sample_calls : list call :=
  [ Call 0 (λ _, Fetched [polishing]) 2;
    Call 30 (λ _, RaisedException) 31;
    Call 75 (λ _, Fetched [polishing; washing]) 77 ].

(** Four calls that overlap. The first two miss before either has
    stored anything; the second, which read the clock at 40, ends its fetch
    at 45 and stores its listing first; the first, which read the clock at
    0, ends its fetch at 47 and stores its own after it. The call that reads
    50 then finds the listing of the first, and the call that reads 65 finds
    it expired. *)
Definition overlapping_calls : list call :=
  [ Call 0 (λ _, Fetched [polishing]) 47;
    Call 40 (λ _, Fetched [washing]) 45;
    Call 65 (λ _, Fetched [polishing; washing]) 70;
    Call 50 (λ _, RaisedException) 51 ].

Definition overlapping_schedule : list nat := [0; 1; 1; 0; 3; 2; 2].

Definition failing_calls : list call :=
  [ Call 0 (λ _, RaisedException) 1;
    Call 1 (λ _, RaisedModuleNotFoundError) 2 ].

End MoreSamples.
Export MoreSamples.

(* ===================================================================== *)
(** ** Lemmas on Python strings *)
(* ===================================================================== *)

(** Two string literals of the source differ. *)
Ltac str_neq :=
  let H := fresh in intros H; vm_compute in H; discriminate H.

Section str_lemmas.
Implicit Types (c : char) (s t : pstr).

Lemma isspace_SPACE : isspace SPACE = true.
Proof. reflexivity. Qed.

Lemma isspace_LF : isspace LF = true.
Proof. reflexivity. Qed.

Lemma str_rstrip_cons c s :
  str_rstrip (c :: s) =
    match str_rstrip s with
    | [] => if isspace c then [] else [c]
    | r => c :: r
    end.
Proof. reflexivity. Qed.

Lemma str_rstrip_cons_nonspace c s :
  isspace c = false → str_rstrip (c :: s) = c :: str_rstrip s.
Proof. intros Hc. rewrite str_rstrip_cons, Hc. by destruct (str_rstrip s). Qed.

Lemma str_rstrip_cons_space c s :
  isspace c = true →
  str_rstrip (c :: s) = match str_rstrip s with [] => [] | r => c :: r end.
Proof. intros Hc. by rewrite str_rstrip_cons, Hc. Qed.

(** A non-empty right-stripped string starts like the original. *)
Lemma str_rstrip_head c r s : str_rstrip s = c :: r → ∃ s', s = c :: s'.
Proof.
  destruct s as [|c0 s']; [done|]. rewrite str_rstrip_cons.
  destruct (str_rstrip s'); [destruct (isspace c0)|]; intros [= <- _]; eauto.
Qed.

Lemma str_lstrip_head s :
  str_lstrip s = [] ∨ ∃ c r, str_lstrip s = c :: r ∧ isspace c = false.
Proof.
  induction s as [|c s IH]; [by left|]. simpl.
  destruct (isspace c) eqn:Hc; [done|]. right. eauto.
Qed.

Lemma str_strip_comm s : str_rstrip (str_lstrip s) = str_lstrip (str_rstrip s).
Proof.
  induction s as [|c s IH]; [done|]. simpl str_lstrip at 1.
  destruct (isspace c) eqn:Hc.
  - rewrite str_rstrip_cons_space by done. rewrite IH.
    destruct (str_rstrip s); [done|]. simpl. by rewrite Hc.
  - rewrite str_rstrip_cons_nonspace by done. simpl. by rewrite Hc.
Qed.

Lemma str_strip_cons_space c s : isspace c = true → str_strip (c :: s) = str_strip s.
Proof. intros Hc. unfold str_strip. simpl. by rewrite Hc. Qed.

Lemma str_strip_cons_nonspace c s :
  isspace c = false → str_strip (c :: s) = c :: str_rstrip s.
Proof.
  intros Hc. unfold str_strip. simpl. rewrite Hc.
  by apply str_rstrip_cons_nonspace.
Qed.

(** [str_rstrip s] is empty exactly when [s] is all whitespace. *)
Lemma str_rstrip_nil s : str_rstrip s = [] ↔ forallb isspace s = true.
Proof.
  induction s as [|c s IH]; [done|]. rewrite str_rstrip_cons. simpl.
  destruct (str_rstrip s) eqn:Hr, (isspace c) eqn:Hc; simpl.
  - tauto.
  - done.
  - split; [done|]. intros Hall. by apply IH in Hall.
  - done.
Qed.

Lemma str_strip_of_rstrip_nil s : str_rstrip s = [] → str_strip s = [].
Proof. intros Hr. unfold str_strip. by rewrite str_strip_comm, Hr. Qed.

End str_lemmas.

Section split_lemmas.
Implicit Types (c : char) (s t w : pstr) (ws : list pstr).

Lemma str_split_cons_space c s : isspace c = true → str_split (c :: s) = str_split s.
Proof. intros Hc. simpl. by rewrite Hc. Qed.

Lemma str_split_cons2 c c' s :
  str_split (c :: c' :: s) =
    if isspace c then str_split (c' :: s)
    else if isspace c' then [c] :: str_split (c' :: s)
    else match str_split (c' :: s) with
         | w :: ws => (c :: w) :: ws
         | [] => [[c]]
         end.
Proof. reflexivity. Qed.

(** A string starting with a non-whitespace character has a first word. *)
Lemma str_split_head c s :
  isspace c = false → ∃ w ws, str_split (c :: s) = (c :: w) :: ws.
Proof.
  revert c. induction s as [|c' s IH]; intros c Hc.
  - exists [], []. simpl. by rewrite Hc.
  - rewrite str_split_cons2, Hc. destruct (isspace c') eqn:Hc'.
    + by exists [], (str_split (c' :: s)).
    + destruct (IH c' Hc') as (w & ws & ->). by exists (c' :: w), ws.
Qed.

Lemma str_split_lstrip s : str_split (str_lstrip s) = str_split s.
Proof.
  induction s as [|c s IH]; [done|]. simpl str_lstrip.
  destruct (isspace c) eqn:Hc; [|done].
  by rewrite str_split_cons_space.
Qed.

Lemma str_split_rstrip s : str_split (str_rstrip s) = str_split s.
Proof.
  induction s as [|c s IH]; [done|]. rewrite str_rstrip_cons.
  destruct (str_rstrip s) as [|c' r] eqn:Hr.
  - simpl in IH. destruct (isspace c) eqn:Hc.
    + by rewrite str_split_cons_space.
    + simpl. rewrite Hc. destruct s as [|c' s']; [done|].
      destruct (isspace c'); by rewrite <-IH.
  - destruct (str_rstrip_head _ _ _ Hr) as [s' ->].
    by rewrite !str_split_cons2, IH.
Qed.

Lemma str_split_strip s : str_split (str_strip s) = str_split s.
Proof. unfold str_strip. by rewrite str_split_rstrip, str_split_lstrip. Qed.

Lemma str_join_cons2 sep w w' ws :
  str_join sep (w :: w' :: ws) = w ++ sep ++ str_join sep (w' :: ws).
Proof. reflexivity. Qed.

Lemma str_join_cons_head sep c w ws :
  str_join sep ((c :: w) :: ws) = c :: str_join sep (w :: ws).
Proof. by destruct ws. Qed.

(** The words of [str_split] hold no whitespace and are not empty. *)
Lemma str_split_words s :
  Forall (λ w, w ≠ [] ∧ forallb isspace w = false ∧ Forall (λ c, isspace c = false) w)
    (str_split s).
Proof.
  induction s as [|c s IH]; [constructor|]. simpl.
  destruct (isspace c) eqn:Hc; [done|].
  assert (Hone : [c] ≠ [] ∧ forallb isspace [c] = false
                 ∧ Forall (λ c, isspace c = false) [c]).
  { split; [done|]. split; [simpl; by rewrite Hc|]. by constructor. }
  destruct s as [|c' s']; [by constructor|].
  destruct (isspace c') eqn:Hc'; [by constructor|].
  destruct (str_split (c' :: s')) as [|w ws]; [by constructor|].
  inversion IH as [|? ? (Hne & Hf & Hall) Hws]; subst.
  constructor; [|done]. split; [done|]. split; [simpl; by rewrite Hc|].
  by constructor.
Qed.

(** After joining with single spaces the only whitespace left is the
    space character itself. *)
Lemma str_join_split_space s c :
  c ∈ str_join [SPACE] (str_split s) → isspace c = true → c = SPACE.
Proof.
  pose proof (str_split_words s) as Hws.
  induction Hws as [|w ws (_ & _ & Hw) Hws IH]; [by intros ?%elem_of_nil|].
  destruct ws as [|w' ws].
  - simpl. intros Hin Hc. rewrite Forall_forall in Hw. apply Hw in Hin. congruence.
  - rewrite str_join_cons2. intros [Hin|[Hin|Hin]%elem_of_app]%elem_of_app Hc.
    + rewrite Forall_forall in Hw. apply Hw in Hin. congruence.
    + by apply list_elem_of_singleton in Hin.
    + by apply IH.
Qed.

(** The link between the two readings of "collapse and trim". *)
Lemma str_rstrip_collapse_ws s :
  str_rstrip (collapse_ws s) =
    match s with
    | [] => []
    | c :: _ =>
        if isspace c then
          match str_split s with
          | [] => []
          | ws => SPACE :: str_join [SPACE] ws
          end
        else str_join [SPACE] (str_split s)
    end.
Proof.
  induction s as [|c s IH]; [done|].
  destruct (isspace c) eqn:Hc.
  - rewrite str_split_cons_space by done. simpl collapse_ws. rewrite Hc.
    destruct s as [|c' s']; [done|].
    destruct (isspace c') eqn:Hc'; [done|].
    rewrite str_rstrip_cons_space by done. rewrite IH.
    destruct (str_split_head c' s' Hc') as (w & ws & ->).
    by rewrite !str_join_cons_head.
  - simpl collapse_ws. rewrite Hc. rewrite str_rstrip_cons_nonspace by done.
    rewrite IH. simpl str_split. rewrite Hc.
    destruct s as [|c' s']; [done|].
    destruct (isspace c') eqn:Hc'.
    + destruct (str_split (c' :: s')) as [|w ws]; [done|].
      by rewrite str_join_cons2.
    + destruct (str_split_head c' s' Hc') as (w & ws & ->).
      by rewrite !str_join_cons_head.
Qed.

Lemma str_lstrip_collapse_ws s :
  str_lstrip (collapse_ws s) = collapse_ws (str_lstrip s).
Proof.
  induction s as [|c s IH]; [done|]. simpl.
  destruct (isspace c) eqn:Hc.
  - destruct s as [|c' s']; [done|].
    destruct (isspace c') eqn:Hc'; [done|].
    by rewrite <-IH.
  - simpl. by rewrite Hc.
Qed.

(** What the code computes is the collapsed and trimmed string. *)
Lemma str_join_split_collapse s :
  str_join [SPACE] (str_split (str_strip s)) = str_strip (collapse_ws s).
Proof.
  rewrite str_split_strip. unfold str_strip at 1.
  rewrite str_lstrip_collapse_ws, str_rstrip_collapse_ws, <-(str_split_lstrip s).
  destruct (str_lstrip_head s) as [->|(c & r & -> & Hc)]; [done|].
  by rewrite Hc.
Qed.

End split_lemmas.

Section line_lemmas.
Implicit Types (c : char) (s t l : pstr) (ls : list pstr).
Local Arguments N.eqb : simpl never.

(** The two [replace] calls of [clean_comment], one character at a time. *)
Lemma replace_crlf_hit s :
  str_replace [CR; LF] [LF] (CR :: LF :: s) = LF :: str_replace [CR; LF] [LF] s.
Proof. reflexivity. Qed.

Lemma replace_crlf_cr_miss c s :
  c ≠ LF → str_replace [CR; LF] [LF] (CR :: c :: s)
           = CR :: str_replace [CR; LF] [LF] (c :: s).
Proof.
  intros Hc. unfold str_replace. simpl.
  destruct (N.eqb_spec LF c) as [?|_]; [congruence|]. reflexivity.
Qed.

Lemma replace_crlf_other c s :
  c ≠ CR → str_replace [CR; LF] [LF] (c :: s) = c :: str_replace [CR; LF] [LF] s.
Proof.
  intros Hc. unfold str_replace. simpl.
  destruct (N.eqb_spec CR c) as [?|_]; [congruence|]. reflexivity.
Qed.

Lemma replace_cr_cons c s :
  str_replace [CR] [LF] (c :: s)
  = (if (c =? CR)%N then LF else c) :: str_replace [CR] [LF] s.
Proof.
  unfold str_replace. simpl. rewrite (N.eqb_sym CR c).
  destruct (c =? CR)%N; reflexivity.
Qed.

(** Both replacements together are the one-pass normalization. *)
Lemma replace_normalize_newlines s :
  str_replace [CR] [LF] (str_replace [CR; LF] [LF] s) = normalize_newlines s.
Proof.
  induction s as [|c s IH]; [done|].
  destruct (N.eqb_spec c CR) as [->|Hc].
  - destruct s as [|c' s']; [done|].
    destruct (N.eqb_spec c' LF) as [->|Hc'].
    + rewrite replace_crlf_hit. simpl normalize_newlines.
      rewrite (replace_crlf_other LF) in IH by done. exact IH.
    + rewrite replace_crlf_cr_miss by done. rewrite replace_cr_cons. simpl.
      destruct (N.eqb_spec c' LF) as [?|_]; [done|]. by rewrite IH.
  - rewrite replace_crlf_other by done. rewrite replace_cr_cons. simpl.
    destruct (N.eqb_spec c CR) as [?|_]; [done|]. by rewrite IH.
Qed.

(** No carriage return survives the normalization. *)
Lemma normalize_newlines_no_cr s : CR ∉ normalize_newlines s.
Proof.
  induction s as [|c s IH]; [by intros ?%elem_of_nil|]. simpl.
  destruct (N.eqb_spec c CR) as [->|Hc].
  - destruct s as [|c' s']; [by intros ?%list_elem_of_singleton|].
    destruct (c' =? LF)%N; [done|].
    intros [?|?]%elem_of_cons; [done|]. by apply IH.
  - intros [?|?]%elem_of_cons; [done|]. by apply IH.
Qed.

Lemma str_split_sep_nonempty s : ∃ l ls, str_split_sep LF s = l :: ls.
Proof.
  destruct s as [|c s]; simpl; [by eauto|].
  destruct (c =? LF)%N; [by eauto|]. destruct (str_split_sep LF s); eauto.
Qed.

Lemma str_split_sep_cons c s l ls :
  str_split_sep LF s = l :: ls →
  str_split_sep LF (c :: s) = if (c =? LF)%N then [] :: l :: ls else (c :: l) :: ls.
Proof. intros Hs. simpl. by rewrite Hs. Qed.

Lemma keep_trimmed_cons l ls :
  keep_trimmed (l :: ls) =
    (if str_empty (str_strip l) then [] else [str_strip l]) ++ keep_trimmed ls.
Proof.
  unfold keep_trimmed. rewrite fmap_cons, filter_cons.
  case_decide; by destruct (str_strip l).
Qed.

Lemma rstrip_eq_strip_eq l l' : str_rstrip l' = str_rstrip l → str_strip l' = str_strip l.
Proof. intros Hl. unfold str_strip. by rewrite !str_strip_comm, Hl. Qed.

(** Right-stripping a text changes its lines only in ways the per-line
    trimming and filtering cannot see. *)
Lemma str_rstrip_lines t l ls l' ls' :
  str_split_sep LF t = l :: ls →
  str_split_sep LF (str_rstrip t) = l' :: ls' →
  str_rstrip l' = str_rstrip l ∧ keep_trimmed ls' = keep_trimmed ls.
Proof.
  revert l ls l' ls'. induction t as [|c t IH]; intros l ls l' ls'.
  { by intros [= <- <-] [= <- <-]. }
  destruct (str_split_sep_nonempty t) as (l0 & ls0 & Ht).
  destruct (str_split_sep_nonempty (str_rstrip t)) as (l0' & ls0' & Hr).
  destruct (IH _ _ _ _ Ht Hr) as [Hl0 Hls0].
  rewrite (str_split_sep_cons c t l0 ls0 Ht), str_rstrip_cons.
  destruct (str_rstrip t) as [|c'' r''] eqn:Hrt.
  - injection Hr as <- <-. simpl in Hl0. symmetry in Hl0.
    unfold keep_trimmed at 1 in Hls0. simpl in Hls0. symmetry in Hls0.
    destruct (isspace c) eqn:Hc.
    + intros Hsplit [= <- <-]. destruct (N.eqb_spec c LF) as [->|Hne].
      * injection Hsplit as <- <-. split; [done|].
        by rewrite keep_trimmed_cons, (str_strip_of_rstrip_nil l0), Hls0.
      * injection Hsplit as <- <-. split; [|done].
        by rewrite str_rstrip_cons, Hl0, Hc.
    + destruct (N.eqb_spec c LF) as [->|Hne]; [done|].
      intros [= <- <-]. simpl. rewrite (proj2 (N.eqb_neq c LF)) by done.
      intros [= <- <-]. split; [|done].
      by rewrite !str_rstrip_cons, Hl0, Hc.
  - rewrite (str_split_sep_cons c _ l0' ls0' Hr).
    destruct (c =? LF)%N.
    + intros [= <- <-] [= <- <-]. split; [done|].
      by rewrite !keep_trimmed_cons, (rstrip_eq_strip_eq _ _ Hl0), Hls0.
    + intros [= <- <-] [= <- <-]. split; [|done].
      by rewrite !str_rstrip_cons, Hl0.
Qed.

Lemma kept_lines_cons_space c t : isspace c = true → kept_lines (c :: t) = kept_lines t.
Proof.
  intros Hc. unfold kept_lines.
  destruct (str_split_sep_nonempty t) as (l & ls & Ht).
  rewrite (str_split_sep_cons c t l ls Ht), Ht. destruct (c =? LF)%N.
  - by rewrite (keep_trimmed_cons []).
  - by rewrite !keep_trimmed_cons, str_strip_cons_space.
Qed.

Lemma kept_lines_lstrip t : kept_lines (str_lstrip t) = kept_lines t.
Proof.
  induction t as [|c t IH]; [done|]. simpl.
  destruct (isspace c) eqn:Hc; [|done]. by rewrite kept_lines_cons_space.
Qed.

Lemma kept_lines_rstrip t : kept_lines (str_rstrip t) = kept_lines t.
Proof.
  unfold kept_lines.
  destruct (str_split_sep_nonempty t) as (l & ls & Ht).
  destruct (str_split_sep_nonempty (str_rstrip t)) as (l' & ls' & Hr).
  destruct (str_rstrip_lines t l ls l' ls' Ht Hr) as [Hl Hls].
  by rewrite Ht, Hr, !keep_trimmed_cons, (rstrip_eq_strip_eq _ _ Hl), Hls.
Qed.

(** Trimming the whole text first, as [clean_comment] does, changes nothing. *)
Lemma kept_lines_strip t : kept_lines (str_strip t) = kept_lines t.
Proof. unfold str_strip. by rewrite kept_lines_rstrip, kept_lines_lstrip. Qed.

End line_lemmas.

(* ===================================================================== *)
(** ** Properties of the input sanitizer *)
(* ===================================================================== *)

Section sanitizer_props.
Implicit Types (payload : gmap pstr pyval) (value : option pyval).

Lemma clean_text_spec s max_len :
  clean_text (Some (PStr s)) max_len = text_field s max_len.
Proof. unfold clean_text, text_field. by rewrite str_join_split_collapse. Qed.

Lemma clean_comment_spec s max_len :
  clean_comment (Some (PStr s)) max_len = comment_field s max_len.
Proof.
  unfold clean_comment, comment_field.
  rewrite replace_normalize_newlines.
  fold (keep_trimmed (str_split_sep LF (str_strip (normalize_newlines s)))).
  fold (kept_lines (str_strip (normalize_newlines s))).
  by rewrite kept_lines_strip.
Qed.

(** Characters of a joined list come from the pieces or the separator. *)
Lemma elem_of_str_join c sep (parts : list pstr) :
  c ∈ str_join sep parts → c ∈ sep ∨ ∃ p, p ∈ parts ∧ c ∈ p.
Proof.
  induction parts as [|p [|p' ps] IH].
  - by intros ?%elem_of_nil.
  - simpl. intros Hc. right. exists p. split; [left|done].
  - rewrite str_join_cons2. intros [Hc|[Hc|Hc]%elem_of_app]%elem_of_app.
    + right. exists p. split; [left|done].
    + by left.
    + destruct (IH Hc) as [?|(q & Hq & Hcq)]; [by left|].
      right. exists q. split; [by right|done].
Qed.

Lemma elem_of_str_rstrip c s : c ∈ str_rstrip s → c ∈ s.
Proof.
  induction s as [|c0 s IH]; [done|]. rewrite str_rstrip_cons.
  destruct (str_rstrip s) as [|c1 r].
  - destruct (isspace c0); [by intros ?%elem_of_nil|].
    intros ->%list_elem_of_singleton. left.
  - intros [->|Hc]%elem_of_cons; [left|right; by apply IH].
Qed.

Lemma elem_of_str_lstrip c s : c ∈ str_lstrip s → c ∈ s.
Proof.
  induction s as [|c0 s IH]; [done|]. simpl.
  destruct (isspace c0); [|done]. intros Hc. right. by apply IH.
Qed.

Lemma elem_of_str_strip c s : c ∈ str_strip s → c ∈ s.
Proof. intros Hc%elem_of_str_rstrip. by apply elem_of_str_lstrip. Qed.

Lemma elem_of_str_split_sep c sep s l :
  l ∈ str_split_sep sep s → c ∈ l → c ∈ s.
Proof.
  revert l. induction s as [|c0 s IH]; intros l; simpl.
  - by intros ->%list_elem_of_singleton ?%elem_of_nil.
  - destruct (c0 =? sep)%N.
    + intros [->|Hl]%elem_of_cons Hc; [by apply elem_of_nil in Hc|].
      right. by apply (IH l).
    + destruct (str_split_sep sep s) as [|l0 ls] eqn:Hs.
      * intros ->%list_elem_of_singleton ->%list_elem_of_singleton. left.
      * intros [->|Hl]%elem_of_cons Hc.
        -- apply elem_of_cons in Hc as [->|Hc]; [left|right].
           apply (IH l0); [left|done].
        -- right. apply (IH l); [by right|done].
Qed.

(** No carriage return is left in a sanitized comment. *)
Lemma comment_field_no_cr s max_len : CR ∉ comment_field s max_len.
Proof.
  unfold comment_field. intros Hc%subseteq_take.
  apply elem_of_str_join in Hc as [Hc|(p & Hp & Hc)].
  - by apply list_elem_of_singleton in Hc.
  - unfold kept_lines, keep_trimmed in Hp.
    apply list_elem_of_filter in Hp as [_ Hp].
    apply list_elem_of_fmap in Hp as (l & -> & Hl).
    apply elem_of_str_strip in Hc.
    by apply (normalize_newlines_no_cr s), (elem_of_str_split_sep CR LF _ l).
Qed.

Lemma clean_comment_no_cr value max_len : CR ∉ clean_comment value max_len.
Proof.
  destruct value as [[]|]; try by intros ?%elem_of_nil.
  rewrite clean_comment_spec. apply comment_field_no_cr.
Qed.

Lemma clean_comment_length value max_len : length (clean_comment value max_len) ≤ max_len.
Proof.
  destruct value as [[]|]; simpl; try lia. rewrite length_take. lia.
Qed.

(** The record of a successful validation holds the five cleaned fields. *)
Lemma validate_payload_inl payload r :
  validate_payload payload = inl r →
  r = ValidRequest (clean_text (payload !! u "name") 80)
        (clean_text (payload !! u "phone") 40)
        (clean_text (payload !! u "car") 120)
        (clean_text (payload !! u "service") 120)
        (clean_comment (payload !! u "comment") 600).
Proof.
  unfold validate_payload.
  destruct (str_empty _); [done|]. destruct (str_empty _); [done|].
  destruct (negb _); [done|]. destruct (str_empty _); [done|].
  destruct (str_empty _); [done|]. by intros [= <-].
Qed.

(** C8: [clean_text] collapses every whitespace run to one space, trims both
    ends and only then truncates to the maximum length; a value that is not
    a string (a missing field included) gives the empty string; and the four
    text fields of a validated request are built this way with the maxima
    80, 40, 120 and 120. *)
Theorem clean_text_collapse_trim_truncate :
  (∀ value max_len,
     clean_text value max_len =
       match value with
       | Some (PStr s) => take max_len (str_strip (collapse_ws s))
       | _ => []
       end) ∧
  (∀ payload r,
     validate_payload payload = inl r →
     vr_name r = clean_text (payload !! u "name") 80 ∧
     vr_phone r = clean_text (payload !! u "phone") 40 ∧
     vr_car r = clean_text (payload !! u "car") 120 ∧
     vr_service r = clean_text (payload !! u "service") 120).
Proof.
  split.
  - intros [[]|] max_len; try done. apply clean_text_spec.
  - by intros payload r ->%validate_payload_inl.
Qed.

(** C7: [clean_comment] turns CR LF and lone CR into LF, trims every line,
    drops the lines that became empty, joins the rest with LF and truncates
    to the maximum; the stored comment uses 600 and thus holds at most 600
    characters and no CR, and the sample of the specification gives
    [a LF b LF c]. *)
Theorem clean_comment_normalizes_lines :
  (∀ s max_len,
     clean_comment (Some (PStr s)) max_len =
       take max_len
         (str_join [LF]
            (filter (λ line, line ≠ [])
               (str_strip <$> str_split_sep LF (normalize_newlines s))))) ∧
  (∀ payload r,
     validate_payload payload = inl r →
     vr_comment r = clean_comment (payload !! u "comment") 600 ∧
     length (vr_comment r) ≤ 600 ∧ CR ∉ vr_comment r) ∧
  clean_comment (Some (PStr [97; CR; LF; CR; LF; 98; CR; 99]%N)) 600
    = [97; LF; 98; LF; 99]%N.
Proof.
  split; [|split].
  - intros s max_len. apply clean_comment_spec.
  - intros payload r ->%validate_payload_inl. simpl.
    split; [done|]. split; [apply clean_comment_length|apply clean_comment_no_cr].
  - by vm_compute.
Qed.

(** After [clean_text] the only whitespace left is the space character. *)
Lemma clean_text_spaces value max_len c :
  c ∈ clean_text value max_len → isspace c = true → c = SPACE.
Proof.
  destruct value as [[]|]; try by intros ?%elem_of_nil.
  unfold clean_text. intros Hc%subseteq_take.
  by apply (str_join_split_space (str_strip s)).
Qed.

Lemma phone_class_allowed c :
  (isspace c = true → c = SPACE) → phone_class c = allowed_phone_char c.
Proof.
  intros Hsp. unfold phone_class, allowed_phone_char.
  destruct (isspace c) eqn:Hc.
  - rewrite (Hsp eq_refl). reflexivity.
  - assert ((c =? 32)%N = false) as ->.
    { apply N.eqb_neq. intros ->. discriminate Hc. }
    rewrite !orb_false_r.
    destruct ((48 <=? c) && (c <=? 57))%N, (c =? 43)%N, (c =? 45)%N,
      (c =? 40)%N, (c =? 41)%N; reflexivity.
Qed.

(** On a cleaned phone the pattern is the specification's character class
    and length window. *)
Lemma PHONE_RE_fullmatch_spec value :
  PHONE_RE_fullmatch (clean_text value 40) = true
  ↔ phone_matches (clean_text value 40).
Proof.
  unfold PHONE_RE_fullmatch, phone_matches.
  rewrite !andb_true_iff, !Nat.leb_le, forallb_forall, Forall_forall.
  split.
  - intros [Hlen Hall]. split; [done|]. intros c Hc.
    rewrite <-phone_class_allowed by (by apply (clean_text_spaces value 40)).
    by apply Hall, list_elem_of_In.
  - intros [Hlen Hall]. split; [done|]. intros c Hc%list_elem_of_In.
    rewrite phone_class_allowed by (by apply (clean_text_spaces value 40)).
    by apply Hall.
Qed.

Lemma str_empty_true s : str_empty s = true ↔ s = [].
Proof. by destruct s. Qed.

Lemma str_empty_false s : str_empty s = false ↔ s ≠ [].
Proof. by destruct s. Qed.

(** [validate_payload] returns the head of the applicable reasons. *)
Lemma validate_payload_first_reason payload :
  validate_payload payload =
    match applicable_reasons
            (clean_text (payload !! u "name") 80)
            (clean_text (payload !! u "phone") 40)
            (clean_text (payload !! u "car") 120)
            (clean_text (payload !! u "service") 120) with
    | [] => inl (ValidRequest
                   (clean_text (payload !! u "name") 80)
                   (clean_text (payload !! u "phone") 40)
                   (clean_text (payload !! u "car") 120)
                   (clean_text (payload !! u "service") 120)
                   (clean_comment (payload !! u "comment") 600))
    | reason :: _ => inr reason
    end.
Proof.
  unfold validate_payload, applicable_reasons, rejection_table.
  destruct (str_empty (clean_text (payload !! u "name") 80)),
    (str_empty (clean_text (payload !! u "phone") 40)),
    (PHONE_RE_fullmatch (clean_text (payload !! u "phone") 40)),
    (str_empty (clean_text (payload !! u "car") 120)),
    (str_empty (clean_text (payload !! u "service") 120)); reflexivity.
Qed.

(** Success is exactly the conjunction of the five checks. *)
Lemma validate_payload_inl_iff payload :
  (∃ r, validate_payload payload = inl r) ↔
    clean_text (payload !! u "name") 80 ≠ [] ∧
    clean_text (payload !! u "phone") 40 ≠ [] ∧
    PHONE_RE_fullmatch (clean_text (payload !! u "phone") 40) = true ∧
    clean_text (payload !! u "car") 120 ≠ [] ∧
    clean_text (payload !! u "service") 120 ≠ [].
Proof.
  rewrite <-!str_empty_false. unfold validate_payload.
  destruct (str_empty (clean_text (payload !! u "name") 80)),
    (str_empty (clean_text (payload !! u "phone") 40)),
    (PHONE_RE_fullmatch (clean_text (payload !! u "phone") 40)),
    (str_empty (clean_text (payload !! u "car") 120)),
    (str_empty (clean_text (payload !! u "service") 120)); simpl;
    split; try (by intros [r [=]]); try (by intros (? & ? & ? & ? & ?)); eauto.
Qed.

(** C1: validation succeeds exactly when the four required fields are
    non-empty after cleaning and the phone matches the allowed class;
    otherwise the result is the first reason that applies, in the order
    name_required, phone_required, phone_invalid, car_required,
    service_required; and deleting one required field from an accepted
    payload gives that field's reason. *)
Theorem validate_payload_first_rejection payload :
  let name := clean_text (payload !! u "name") 80 in
  let phone := clean_text (payload !! u "phone") 40 in
  let car := clean_text (payload !! u "car") 120 in
  let service := clean_text (payload !! u "service") 120 in
  let comment := clean_comment (payload !! u "comment") 600 in
  ((∃ r, validate_payload payload = inl r) ↔
     name ≠ [] ∧ phone ≠ [] ∧ car ≠ [] ∧ service ≠ [] ∧ phone_matches phone) ∧
  validate_payload payload =
    match applicable_reasons name phone car service with
    | [] => inl (ValidRequest name phone car service comment)
    | reason :: _ => inr reason
    end ∧
  ((∃ r, validate_payload payload = inl r) →
     validate_payload (delete (u "name") payload) = inr (u "name_required") ∧
     validate_payload (delete (u "phone") payload) = inr (u "phone_required") ∧
     validate_payload (delete (u "car") payload) = inr (u "car_required") ∧
     validate_payload (delete (u "service") payload) = inr (u "service_required")).
Proof.
  intros name phone car service comment. split; [|split].
  - rewrite validate_payload_inl_iff. subst name phone car service.
    rewrite PHONE_RE_fullmatch_spec. tauto.
  - apply validate_payload_first_reason.
  - intros (Hname & Hphone & Hre & Hcar & Hservice)%validate_payload_inl_iff.
    apply str_empty_false in Hname, Hphone, Hcar, Hservice.
    unfold validate_payload.
    repeat split.
    + by rewrite lookup_delete_eq.
    + rewrite lookup_delete_eq, lookup_delete_ne by str_neq. by rewrite Hname.
    + rewrite lookup_delete_eq, !lookup_delete_ne by str_neq.
      by rewrite Hname, Hphone, Hre.
    + rewrite lookup_delete_eq, !lookup_delete_ne by str_neq.
      by rewrite Hname, Hphone, Hre, Hcar.
Qed.

(** C6: for a payload whose name is present, a non-empty cleaned phone
    passes the format check exactly when it is made of digits, [+], [-],
    [(], [)] and spaces and is 6 to 25 characters long; otherwise the
    reason is phone_invalid, which differs from the phone_required given
    for a missing phone. The phone 123 is invalid and +7 (900) 123-45-67
    is valid. *)
Theorem phone_format_check payload :
  let name := clean_text (payload !! u "name") 80 in
  let phone := clean_text (payload !! u "phone") 40 in
  name ≠ [] →
  (phone = [] → validate_payload payload = inr (u "phone_required")) ∧
  (phone ≠ [] →
     (PHONE_RE_fullmatch phone = true ↔ phone_matches phone) ∧
     (¬ phone_matches phone → validate_payload payload = inr (u "phone_invalid")) ∧
     (phone_matches phone →
        validate_payload payload ≠ inr (u "phone_invalid") ∧
        validate_payload payload ≠ inr (u "phone_required"))) ∧
  u "phone_invalid" ≠ u "phone_required" ∧
  (payload !! u "phone" = Some (PStr (u "123")) →
     validate_payload payload = inr (u "phone_invalid")) ∧
  (payload !! u "phone" = Some (PStr (u "+7 (900) 123-45-67")) →
     phone = u "+7 (900) 123-45-67" ∧ phone_matches phone ∧
     validate_payload payload ≠ inr (u "phone_invalid") ∧
     validate_payload payload ≠ inr (u "phone_required")).
Proof.
  intros name phone Hname%str_empty_false. subst name phone.
  assert (Hok : PHONE_RE_fullmatch (clean_text (payload !! u "phone") 40) = true →
                validate_payload payload ≠ inr (u "phone_invalid") ∧
                validate_payload payload ≠ inr (u "phone_required")).
  { intros Hre. unfold validate_payload. rewrite Hname, Hre.
    destruct (clean_text (payload !! u "phone") 40); [done|]. simpl.
    destruct (str_empty (clean_text (payload !! u "car") 120));
      [split; str_neq|].
    destruct (str_empty (clean_text (payload !! u "service") 120));
      [split; str_neq|]. done. }
  split; [|split; [|split; [|split]]].
  - intros Hphone. unfold validate_payload. by rewrite Hname, Hphone.
  - intros Hphone%str_empty_false. split; [apply PHONE_RE_fullmatch_spec|]. split.
    + rewrite <-PHONE_RE_fullmatch_spec. intros Hre%not_true_is_false.
      unfold validate_payload. by rewrite Hname, Hphone, Hre.
    + intros Hre%PHONE_RE_fullmatch_spec. by apply Hok.
  - str_neq.
  - intros Hp. unfold validate_payload. rewrite Hname, Hp. reflexivity.
  - intros Hp. rewrite Hp in *. split; [by vm_compute|].
    split; [apply PHONE_RE_fullmatch_spec; by vm_compute|].
    apply Hok. by vm_compute.
Qed.

End sanitizer_props.

(** *** The sanitizer on sample submissions *)

Lemma validate_payload_first_rejection_witness :
  validate_payload sample_payload = inl sample_valid ∧
  validate_payload (delete (u "name") sample_payload) = inr (u "name_required") ∧
  validate_payload (delete (u "phone") sample_payload) = inr (u "phone_required") ∧
  validate_payload (delete (u "car") sample_payload) = inr (u "car_required") ∧
  validate_payload (delete (u "service") sample_payload) = inr (u "service_required").
Proof.
  assert (Hok : validate_payload sample_payload = inl sample_valid) by by vm_compute.
  split; [exact Hok|].
  destruct (validate_payload_first_rejection sample_payload) as (_ & _ & Hdel).
  apply Hdel. by exists sample_valid.
Defined.

Lemma phone_format_check_witness :
  let payload := <[u "phone" := PStr (u "123")]> sample_payload in
  clean_text (payload !! u "name") 80 ≠ [] ∧
  validate_payload payload = inr (u "phone_invalid") ∧
  phone_matches (clean_text (sample_payload !! u "phone") 40).
Proof.
  intros payload.
  assert (Hname : clean_text (payload !! u "name") 80 ≠ []) by by vm_compute.
  assert (Hname' : clean_text (sample_payload !! u "name") 80 ≠ []) by by vm_compute.
  split; [exact Hname|]. split.
  - destruct (phone_format_check payload Hname) as (_ & _ & _ & Hshort & _).
    apply Hshort. by vm_compute.
  - destruct (phone_format_check sample_payload Hname') as (_ & _ & _ & _ & Hlong).
    destruct Hlong as (_ & Hm & _); [by vm_compute|exact Hm].
Defined.

Lemma clean_text_collapse_trim_truncate_witness :
  clean_text (Some (PStr ([9; 32]%N ++ u "BMW" ++ [160; 10; 32]%N ++ u "X5 "))) 5
  = u "BMW X" ∧
  clean_text (Some (PInt 5)) 80 = [] ∧
  validate_payload sample_payload = inl sample_valid ∧
  vr_car sample_valid = clean_text (sample_payload !! u "car") 120.
Proof.
  destruct clean_text_collapse_trim_truncate as [Hclean Hfields].
  split; [rewrite Hclean; by vm_compute|]. split; [by rewrite Hclean|].
  assert (Hok : validate_payload sample_payload = inl sample_valid) by by vm_compute.
  split; [exact Hok|]. by destruct (Hfields _ _ Hok) as (_ & _ & -> & _).
Defined.

Lemma clean_comment_normalizes_lines_witness :
  let payload := <[u "comment" := PStr [32; 97; 32; CR; LF; 9; CR; 98; LF]%N]> sample_payload in
  let r := ValidRequest (u "Ivan") (u "+7 (900) 123-45-67") (u "BMW X5")
             (u "Polishing") [97; LF; 98]%N in
  validate_payload payload = inl r ∧
  vr_comment r = clean_comment (payload !! u "comment") 600 ∧
  length (vr_comment r) ≤ 600.
Proof.
  intros payload r.
  assert (Hok : validate_payload payload = inl r) by by vm_compute.
  split; [exact Hok|].
  destruct clean_comment_normalizes_lines as (_ & Hfield & _).
  by destruct (Hfield _ _ Hok) as (-> & Hlen & _).
Defined.

(* ===================================================================== *)
(** ** Properties of the services cache *)
(* ===================================================================== *)

Section cache_props.
Implicit Types (environ : gmap pstr pstr) (c : cache) (now t : Z)
  (fetch : pstr → fetch_outcome).

Lemma load_unconfigured environ now fetch c :
  database_url_of environ = [] →
  load_active_services environ now fetch c
  = CallResult (inr (u "database_not_configured")) [] c.
Proof.
  unfold load_active_services. by intros ->.
Qed.

Lemma load_hit environ now fetch c data :
  database_url_of environ ≠ [] →
  cache_lookup c now = Some data →
  load_active_services environ now fetch c = CallResult (inl data) [] c.
Proof.
  unfold load_active_services.
  intros Hurl%str_empty_false ->. by rewrite Hurl.
Qed.

Lemma load_miss environ now fetch c :
  database_url_of environ ≠ [] →
  cache_lookup c now = None →
  load_active_services environ now fetch c =
    match fetch (database_url_of environ) with
    | RaisedModuleNotFoundError =>
        CallResult (inr (u "asyncpg_not_installed")) [database_url_of environ] c
    | RaisedException =>
        CallResult (inr (u "services_query_failed")) [database_url_of environ] c
    | Fetched services =>
        CallResult (inl services) [database_url_of environ]
          (MkCache (now + 60) (Some services))
    end.
Proof.
  unfold load_active_services.
  intros Hurl%str_empty_false ->. by rewrite Hurl.
Qed.

(** A call queries the store only when it is configured and misses. *)
Lemma load_queried environ now fetch c url :
  fetch_calls (load_active_services environ now fetch c) = [url] →
  url = database_url_of environ ∧ url ≠ [] ∧ cache_lookup c now = None.
Proof.
  destruct (decide (database_url_of environ = [])) as [Hurl|Hurl].
  { by rewrite load_unconfigured. }
  destruct (cache_lookup c now) as [data|] eqn:Hlook.
  { by rewrite (load_hit _ _ _ _ data). }
  rewrite load_miss by done.
  destruct (fetch _); simpl; by intros [= <-].
Qed.

Lemma cache_lookup_fresh t0 services t :
  cache_lookup (MkCache (t0 + 60) (Some services)) t
  = if (t <? t0 + 60)%Z then Some services else None.
Proof. reflexivity. Qed.

Lemma database_url_absent environ :
  environ !! u "DATABASE_URL" = None → database_url_of environ = [].
Proof. unfold database_url_of, getenv. by intros ->. Qed.

(** C10: without a [DATABASE_URL] the call returns database_not_configured
    before it looks at the cache: the store is not queried, the cache is
    left as it is, and a snapshot still within its window is not served. *)
Theorem unconfigured_store_bypasses_cache environ now fetch c :
  environ !! u "DATABASE_URL" = None →
  let r := load_active_services environ now fetch c in
  returned r = inr (u "database_not_configured") ∧
  fetch_calls r = [] ∧ cache_after r = c ∧
  ∀ data, cache_lookup c now = Some data → returned r ≠ inl data.
Proof.
  intros Habs%database_url_absent r. subst r.
  by rewrite load_unconfigured.
Qed.

Lemma unconfigured_store_bypasses_cache_witness :
  let c := MkCache 100 (Some [polishing]) in
  let r := load_active_services unconfigured_environ 5 (λ _, Fetched [washing]) c in
  cache_lookup c 5 = Some [polishing] ∧
  returned r = inr (u "database_not_configured") ∧
  fetch_calls r = [] ∧ cache_after r = c.
Proof.
  intros c r. split; [reflexivity|].
  destruct (unconfigured_store_bypasses_cache unconfigured_environ 5
              (λ _, Fetched [washing]) c) as (Hret & Hq & Hc & _).
  - by vm_compute.
  - by repeat split.
Defined.

(** C4: when the fetch attempted by a call raises, the snapshot and its
    expiry are left as they were and the caller gets the error of that
    fetch, never a snapshot; a snapshot is handed out either fresh from a
    fetch that succeeded in the same call, or from the cache, within its
    window and without any query. *)
Theorem failed_fetch_leaves_cache environ now fetch c :
  let r := load_active_services environ now fetch c in
  (∀ url, fetch_calls r = [url] → (∀ services, fetch url ≠ Fetched services) →
     cache_after r = c ∧
     returned r = inr (match fetch url with
                       | RaisedModuleNotFoundError => u "asyncpg_not_installed"
                       | _ => u "services_query_failed"
                       end) ∧
     ∀ data, returned r ≠ inl data) ∧
  (∀ data, cache_lookup c now = Some data →
     fetch_calls r = [] ∧ cache_after r = c ∧
     (database_url_of environ ≠ [] → returned r = inl data)) ∧
  (∀ data url, returned r = inl data → fetch_calls r = [url] → fetch url = Fetched data).
Proof.
  intros r. subst r. split; [|split].
  - intros url Hq Hfail. destruct (load_queried _ _ _ _ _ Hq) as (-> & Hurl & Hmiss).
    revert Hq. rewrite load_miss by done.
    destruct (fetch (database_url_of environ)) eqn:Hf; simpl; try done.
    by destruct (Hfail services).
  - intros data Hhit. destruct (decide (database_url_of environ = [])) as [Hurl|Hurl].
    + by rewrite load_unconfigured.
    + by rewrite (load_hit _ _ _ _ data).
  - intros data url Hret Hq. destruct (load_queried _ _ _ _ _ Hq) as (-> & Hurl & Hmiss).
    revert Hret. rewrite load_miss by done.
    destruct (fetch (database_url_of environ)); simpl; try done. by intros [= ->].
Qed.

(** Calls made while the snapshot is fresh leave everything as it is. *)
Lemma serve_fresh environ c data calls :
  database_url_of environ ≠ [] →
  Forall (λ k, cache_lookup c (call_now k) = Some data) calls →
  serve environ calls c = ((λ _, CallResult (inl data) [] c) <$> calls, c).
Proof.
  intros Hurl. induction 1 as [|k ks Hk Hks IH]; [done|].
  simpl. rewrite (load_hit _ _ _ _ data) by done. simpl. by rewrite IH.
Qed.

(** C2 as the specification words it does not hold: the window does not
    start at the completion of the fetch. A fetch started at 0 and completed at 10 is followed by a call at 65, less than
    60 units after the completion, and that call queries the store again
    and returns another listing. *)
Lemma snapshot_not_fresh_from_completion :
  let k1 := Call 0 (λ _, Fetched [polishing]) 10 in
  let k2 := Call 65 (λ _, Fetched [polishing; washing]) 66 in
  let r1 := load_active_services sample_environ (call_now k1) (call_fetch k1) cache_init in
  let r2 := load_active_services sample_environ (call_now k2) (call_fetch k2)
              (cache_after r1) in
  fetch_calls r1 = [u "postgresql://drivon@db/drivon"] ∧
  returned r1 = inl [polishing] ∧
  fresh_since_completion (fetch_done k1) (call_now k2) ∧
  fetch_calls r2 = [u "postgresql://drivon@db/drivon"] ∧
  returned r2 = inl [polishing; washing] ∧
  ¬ (returned r2 = returned r1 ∧ fetch_calls r2 = []).
Proof.
  intros k1 k2 r1 r2.
  split; [by vm_compute|]. split; [by vm_compute|].
  split; [unfold fresh_since_completion; simpl; lia|].
  split; [by vm_compute|]. split; [by vm_compute|].
  intros [_ Hq]. vm_compute in Hq. discriminate Hq.
Qed.

End cache_props.

(* ===================================================================== *)
(** ** Properties of the request handler *)
(* ===================================================================== *)

Section handler_props.
Context `{PyBuiltins}.
Implicit Types (environ : gmap pstr pstr) (req : request) (ts : pstr)
  (network : nat → urlopen_outcome).

Lemma bot_token_absent environ :
  environ !! u "BOT_TOKEN" = None → bot_token_of environ = [].
Proof. unfold bot_token_of, getenv. by intros ->. Qed.

Lemma admin_ids_absent environ :
  environ !! u "ADMIN_IDS" = None → parse_admin_ids environ = [].
Proof. unfold parse_admin_ids, getenv. by intros ->. Qed.

Lemma intake_unconfigured environ req :
  req_path req = u "/api/request" →
  bot_token_of environ = [] ∨ parse_admin_ids environ = [] →
  do_POST_intake environ req =
    inl (respond_json 500
           {[ u "ok" := PBool false; u "error" := PStr (u "server_not_configured") ]}).
Proof.
  intros Hpath Hconf. unfold do_POST_intake.
  rewrite bool_decide_true by done. simpl.
  destruct Hconf as [->| ->]; [done|]. by rewrite orb_true_r.
Qed.

(** Past the configuration check, the request meets the body guards. *)
Lemma intake_configured environ req :
  req_path req = u "/api/request" →
  bot_token_of environ ≠ [] → parse_admin_ids environ ≠ [] →
  do_POST_intake environ req =
    if ((content_length req <=? 0) || (MAX_BODY_BYTES <? content_length req))%Z then
      inl (respond_json 400
             {[ u "ok" := PBool false; u "error" := PStr (u "invalid_body_size") ]})
    else
      match utf8_decode (take (Z.to_nat (content_length req)) (req_rfile req)) with
      | None => inl (uncaught UnicodeDecodeError)
      | Some text =>
          match json_loads text with
          | Raise JSONDecodeError =>
              inl (respond_json 400
                     {[ u "ok" := PBool false; u "error" := PStr (u "invalid_json") ]})
          | Raise e => inl (uncaught e)
          | Ok (PDict payload) =>
              match validate_payload payload with
              | inr error =>
                  inl (respond_json 400
                         {[ u "ok" := PBool false;
                            u "error" := PStr (if str_empty error
                                               then u "invalid_payload"
                                               else error) ]})
              | inl valid => inr valid
              end
          | Ok _ =>
              inl (respond_json 400
                     {[ u "ok" := PBool false; u "error" := PStr (u "invalid_payload") ]})
          end
      end.
Proof.
  intros Hpath Htoken%str_empty_false Hids. unfold do_POST_intake.
  rewrite bool_decide_true by done. rewrite Htoken.
  by rewrite bool_decide_false by done.
Qed.

(** C9: on [POST /api/request] the configuration check comes before every
    guard on the body: when [BOT_TOKEN] is unset or blank, or [ADMIN_IDS] is
    unset or names no recipient, the response is 500 server_not_configured
    whatever the declared length and the body are. *)
Theorem configuration_check_first environ ts network req :
  req_path req = u "/api/request" →
  environ !! u "BOT_TOKEN" = None ∨ bot_token_of environ = [] ∨
  environ !! u "ADMIN_IDS" = None ∨ parse_admin_ids environ = [] →
  do_POST environ ts network req =
    respond_json 500
      {[ u "ok" := PBool false; u "error" := PStr (u "server_not_configured") ]}.
Proof.
  intros Hpath Hconf. unfold do_POST. rewrite intake_unconfigured; [done..|].
  destruct Hconf as [?%bot_token_absent|[?|[?%admin_ids_absent|?]]]; auto.
Qed.

(** The size guard of a configured server: a declared length that is
    absent, not a number, zero, negative or above 20000 is answered with
    400 invalid_body_size. *)
Lemma body_size_guard environ ts network req :
  req_path req = u "/api/request" →
  bot_token_of environ ≠ [] → parse_admin_ids environ ≠ [] →
  (content_length req ≤ 0 ∨ 20000 < content_length req)%Z →
  do_POST environ ts network req =
    respond_json 400
      {[ u "ok" := PBool false; u "error" := PStr (u "invalid_body_size") ]}.
Proof.
  intros Hpath Htoken Hids Hlen. unfold do_POST.
  rewrite intake_configured by done.
  assert (((content_length req <=? 0) || (MAX_BODY_BYTES <? content_length req))%Z
          = true) as ->; [|done].
  unfold MAX_BODY_BYTES. apply orb_true_iff. rewrite Z.leb_le, Z.ltb_lt. lia.
Qed.

Lemma content_length_absent req :
  req_content_length req = None → content_length req = 0%Z.
Proof. unfold content_length. by intros ->. Qed.

(** A body that decodes and that [json.loads] rejects with
    [JSONDecodeError] is answered with 400 invalid_json; one that parses to
    anything but an object with 400 invalid_payload. *)
Lemma body_parse_guard environ ts network req text :
  req_path req = u "/api/request" →
  bot_token_of environ ≠ [] → parse_admin_ids environ ≠ [] →
  (0 < content_length req ≤ 20000)%Z →
  utf8_decode (take (Z.to_nat (content_length req)) (req_rfile req)) = Some text →
  (json_loads text = Raise JSONDecodeError →
     do_POST environ ts network req =
       respond_json 400
         {[ u "ok" := PBool false; u "error" := PStr (u "invalid_json") ]}) ∧
  (∀ v, json_loads text = Ok v → (∀ payload, v ≠ PDict payload) →
     do_POST environ ts network req =
       respond_json 400
         {[ u "ok" := PBool false; u "error" := PStr (u "invalid_payload") ]}).
Proof.
  intros Hpath Htoken Hids Hlen Hdec. unfold do_POST.
  rewrite intake_configured by done.
  assert (((content_length req <=? 0) || (MAX_BODY_BYTES <? content_length req))%Z
          = false) as ->.
  { unfold MAX_BODY_BYTES. apply orb_false_iff. rewrite Z.leb_gt, Z.ltb_ge. lia. }
  rewrite Hdec. split.
  - by intros ->.
  - intros v -> Hv. destruct v; try done. by destruct (Hv d).
Qed.

(** C5, where the code departs from it: a body that is not valid UTF-8 is
    not answered at all. [raw.decode("utf-8")] raises [UnicodeDecodeError],
    which is not a [JSONDecodeError], so the exception leaves [do_POST]
    and no invalid_json envelope is sent. *)
Theorem undecodable_body_uncaught environ ts network req :
  req_path req = u "/api/request" →
  bot_token_of environ ≠ [] → parse_admin_ids environ ≠ [] →
  (0 < content_length req ≤ 20000)%Z →
  utf8_decode (take (Z.to_nat (content_length req)) (req_rfile req)) = None →
  do_POST environ ts network req = uncaught UnicodeDecodeError.
Proof.
  intros Hpath Htoken Hids Hlen Hdec. unfold do_POST.
  rewrite intake_configured by done.
  assert (((content_length req <=? 0) || (MAX_BODY_BYTES <? content_length req))%Z
          = false) as ->.
  { unfold MAX_BODY_BYTES. apply orb_false_iff. rewrite Z.leb_gt, Z.ltb_ge. lia. }
  by rewrite Hdec.
Qed.

(** A request that reaches delivery found the server configured. *)
Lemma intake_inr_configured environ req valid :
  do_POST_intake environ req = inr valid →
  bot_token_of environ ≠ [] ∧ parse_admin_ids environ ≠ [].
Proof.
  unfold do_POST_intake. destruct (negb _); [done|].
  destruct (str_empty (bot_token_of environ)) eqn:Htoken; [done|].
  destruct (bool_decide (parse_admin_ids environ = [])) eqn:Hids; [done|].
  intros _. split; [by apply str_empty_false|].
  by apply bool_decide_eq_false in Hids.
Qed.


Lemma unencodable_message_uncaught environ ts network req valid :
  do_POST_intake environ req = inr valid →
  from_option (λ t, is_Some (py_int t)) True (thread_id_of environ) →
  utf8_encodable
    (build_admin_message valid (default (u "-") (req_client_address req)) ts) = false →
  do_POST environ ts network req = uncaught UnicodeEncodeError.
Proof.
  intros Hintake Hthread Htext. unfold do_POST. rewrite Hintake.
  destruct (intake_inr_configured _ _ _ Hintake) as [_ Hids].
  unfold do_POST_deliver.
  destruct (parse_admin_ids environ) as [|admin_id rest]; [done|].
  cbn [fan_out]. unfold send_telegram_message. rewrite Htext, andb_false_r.
  destruct (thread_id_of environ) as [t|]; [|done].
  simpl in Hthread. by destruct Hthread as [n ->].
Qed.

End handler_props.

Section fan_out_props.
Context `{PyBuiltins}.
Implicit Types (environ : gmap pstr pstr) (req : request) (ts : pstr)
  (network : nat → urlopen_outcome) (outcomes : list (pstr * option pstr)).

(** [str(v)] of a true value is not empty: true JSON values are [True],
    non-zero numbers and non-empty strings, arrays and objects. *)
Hypothesis py_str_truthy : ∀ v, truthy v = true → py_str v ≠ [].

(** A delivery that is not a success carries a non-empty error code. *)
Lemma telegram_try_code o :
  match telegram_try o with
  | (true, send_error) => send_error = None
  | (false, send_error) => ∃ code, send_error = Some code ∧ code ≠ []
  end.
Proof.
  destruct o as [[]| | |]; simpl; eauto; try (eexists; split; [done|]; str_neq).
  destruct (from_option truthy false (d !! u "ok")); [done|].
  eexists; split; [done|]. apply py_str_truthy.
  destruct (truthy (default PNone (d !! u "description"))) eqn:Ht; done.
Qed.

(** When building the request cannot raise, [send_telegram_message] returns
    what the [try] block returns. *)
Lemma send_telegram_message_ok bot_token chat_id text thread_id o :
  from_option (λ t, is_Some (py_int t)) True thread_id →
  utf8_encodable chat_id = true → utf8_encodable text = true →
  send_telegram_message bot_token chat_id text thread_id o = Ok (telegram_try o).
Proof.
  intros Hthread Hid Htext. unfold send_telegram_message.
  rewrite Hid, Htext. destruct thread_id as [t|]; [|done].
  simpl in Hthread. by destruct Hthread as [n ->].
Qed.

(** These conditions are exactly those under which the call returns. *)
Lemma send_telegram_message_returns bot_token chat_id text thread_id o :
  (∃ r, send_telegram_message bot_token chat_id text thread_id o = Ok r)
  ↔ from_option (λ t, is_Some (py_int t)) True thread_id
    ∧ utf8_encodable chat_id = true ∧ utf8_encodable text = true.
Proof.
  split.
  - intros [r Hr]. unfold send_telegram_message in Hr.
    destruct thread_id as [t|]; simpl in *.
    + destruct (py_int t) eqn:Hint; [|done]. split; [by eexists|].
      simpl in Hr.
      destruct (utf8_encodable chat_id), (utf8_encodable text); done.
    + split; [done|].
      destruct (utf8_encodable chat_id), (utf8_encodable text); done.
  - intros (Hthread & Hid & Htext). eexists.
    by apply send_telegram_message_ok.
Qed.

Lemma delivered_count_cons admin_id o outcomes :
  delivered_count ((admin_id, o) :: outcomes)
  = ((if o is None then 1 else 0) + delivered_count outcomes)%Z.
Proof.
  unfold delivered_count. rewrite filter_cons. simpl.
  destruct o; case_decide; try done. simpl length. lia.
Qed.

Lemma failure_entries_cons admin_id o outcomes :
  failure_entries ((admin_id, o) :: outcomes)
  = match o with
    | Some code => (admin_id ++ u ":" ++ code) :: failure_entries outcomes
    | None => failure_entries outcomes
    end.
Proof. by destruct o. Qed.

Lemma delivery_outcomes_cons network i admin_id rest :
  delivery_outcomes network i (admin_id :: rest)
  = (admin_id,
     if (telegram_try (network i)).1 then None
     else Some (default [] (telegram_try (network i)).2))
    :: delivery_outcomes network (S i) rest.
Proof. simpl. by destruct (telegram_try (network i)). Qed.

(** The loop counts the successes and lists the failures in order. *)
Lemma fan_out_report bot_token text thread_id network i admin_ids delivered errors :
  from_option (λ t, is_Some (py_int t)) True thread_id →
  utf8_encodable text = true →
  Forall (λ admin_id, utf8_encodable admin_id = true) admin_ids →
  fan_out bot_token text thread_id network i admin_ids delivered errors
  = Ok ((delivered + delivered_count (delivery_outcomes network i admin_ids))%Z,
        errors ++ failure_entries (delivery_outcomes network i admin_ids)).
Proof.
  intros Hthread Htext Hids. revert i delivered errors.
  induction Hids as [|admin_id rest Hid Hrest IH]; intros i delivered errors.
  { simpl. unfold delivered_count, failure_entries. simpl.
    by rewrite Z.add_0_r, app_nil_r. }
  rewrite delivery_outcomes_cons, delivered_count_cons, failure_entries_cons.
  pose proof (telegram_try_code (network i)) as Hcode.
  pose proof (send_telegram_message_ok bot_token admin_id text thread_id
                (network i) Hthread Hid Htext) as Hsend.
  destruct (telegram_try (network i)) as [[] send_error].
  - transitivity (fan_out bot_token text thread_id network (S i) rest
                    (delivered + 1) errors).
    { cbn [fan_out]. by rewrite Hsend. }
    rewrite IH. f_equal. f_equal. cbn [fst]. lia.
  - destruct Hcode as (code & -> & Hne). destruct code as [|c code]; [done|].
    transitivity (fan_out bot_token text thread_id network (S i) rest delivered
                    (errors ++ [admin_id ++ u ":" ++ c :: code])).
    { cbn [fan_out]. by rewrite Hsend. }
    rewrite IH, <-app_assoc. f_equal.
Qed.

Lemma delivery_outcomes_codes network i admin_ids :
  Forall (λ o, ∀ code, o.2 = Some code → code ≠ [])
    (delivery_outcomes network i admin_ids).
Proof.
  revert i. induction admin_ids as [|admin_id rest IH]; intros i; [constructor|].
  simpl. constructor; [|apply IH]. simpl.
  pose proof (telegram_try_code (network i)) as Hcode.
  destruct (telegram_try (network i)) as [[] send_error]; [done|].
  destruct Hcode as (code & -> & Hne). by intros ? [= <-].
Qed.

Lemma delivery_outcomes_ids network i admin_ids :
  (delivery_outcomes network i admin_ids).*1 = admin_ids.
Proof.
  revert i. induction admin_ids as [|admin_id rest IH]; intros i; [done|].
  simpl. by rewrite IH.
Qed.

Lemma delivered_count_zero outcomes :
  delivered_count outcomes = 0%Z ↔ Forall (λ o, o.2 ≠ None) outcomes.
Proof.
  induction outcomes as [|[admin_id o] outcomes IH].
  - split; [constructor|done].
  - rewrite delivered_count_cons, Forall_cons. simpl.
    assert (0 ≤ delivered_count outcomes)%Z by (unfold delivered_count; lia).
    destruct o; split.
    + intros Hz. split; [done|]. apply IH. lia.
    + intros [_ Hall%IH]. lia.
    + lia.
    + by intros [? _].
Qed.

(** With no success every recipient has its entry. *)
Lemma failure_entries_all_failed outcomes :
  Forall (λ o, o.2 ≠ None) outcomes →
  length (failure_entries outcomes) = length outcomes.
Proof.
  induction 1 as [|[admin_id o] outcomes Ho Hall IH]; [done|].
  rewrite failure_entries_cons. destruct o; [|done]. simpl length. by rewrite IH.
Qed.

(** One entry per failed recipient, one count per successful one. *)
Lemma failure_entries_length outcomes :
  (Z.of_nat (length (failure_entries outcomes)) + delivered_count outcomes
   = Z.of_nat (length outcomes))%Z.
Proof.
  induction outcomes as [|[admin_id o] outcomes IH]; [done|].
  rewrite delivered_count_cons, failure_entries_cons.
  destruct o; simpl length; lia.
Qed.

Lemma forallb_false_Exists {A} (f : A → bool) (l : list A) :
  forallb f l = false ↔ Exists (λ x, f x = false) l.
Proof.
  induction l as [|x l IH]; simpl.
  - split; [done|by intros ?%Exists_nil].
  - rewrite Exists_cons, andb_false_iff, IH. done.
Qed.

(** The answer of [do_POST] to a request that reaches delivery, when
    building the outbound requests cannot raise. *)
Lemma deliver_report environ ts network req valid :
  do_POST_intake environ req = inr valid →
  from_option (λ t, is_Some (py_int t)) True (thread_id_of environ) →
  utf8_encodable
    (build_admin_message valid (default (u "-") (req_client_address req)) ts) = true →
  Forall (λ admin_id, utf8_encodable admin_id = true) (parse_admin_ids environ) →
  let outcomes := delivery_outcomes network 0 (parse_admin_ids environ) in
  do_POST environ ts network req =
    if (delivered_count outcomes =? 0)%Z then
      if forallb utf8_encodable (failure_entries outcomes) then
        respond_json 502
          {[ u "ok" := PBool false;
             u "error" := PStr (u "telegram_send_failed");
             u "details" := PList (PStr <$> failure_entries outcomes) ]}
      else uncaught UnicodeEncodeError
    else
      respond_json 200
        {[ u "ok" := PBool true;
           u "delivered" := PInt (delivered_count outcomes) ]}.
Proof.
  intros Hintake Hthread Htext Hids outcomes.
  unfold do_POST. rewrite Hintake. unfold do_POST_deliver.
  by rewrite fan_out_report.
Qed.

(** Where nothing raises, the report is the one C3 describes: the fan-out
    counts the recipients whose delivery succeeded and lists one
    [recipient_id:error_code] entry per failed recipient, in the configured
    order; the answer is 200 with the count as soon as one delivery
    succeeded, and 502 telegram_send_failed with every entry in [details]
    when all deliveries failed and the entries can be encoded. *)
Lemma fan_out_report_answer environ ts network req valid :
  do_POST_intake environ req = inr valid →
  from_option (λ t, is_Some (py_int t)) True (thread_id_of environ) →
  utf8_encodable
    (build_admin_message valid (default (u "-") (req_client_address req)) ts) = true →
  Forall (λ admin_id, utf8_encodable admin_id = true) (parse_admin_ids environ) →
  let outcomes := delivery_outcomes network 0 (parse_admin_ids environ) in
  outcomes.*1 = parse_admin_ids environ ∧
  Forall (λ o, ∀ code, o.2 = Some code → code ≠ []) outcomes ∧
  (Z.of_nat (length (failure_entries outcomes)) + delivered_count outcomes
   = Z.of_nat (length (parse_admin_ids environ)))%Z ∧
  (Forall (λ o, o.2 ≠ None) outcomes →
   forallb utf8_encodable (failure_entries outcomes) = true →
     length (failure_entries outcomes) = length (parse_admin_ids environ) ∧
     do_POST environ ts network req =
       respond_json 502
         {[ u "ok" := PBool false;
            u "error" := PStr (u "telegram_send_failed");
            u "details" := PList (PStr <$> failure_entries outcomes) ]}) ∧
  (Exists (λ o, o.2 = None) outcomes →
     (0 < delivered_count outcomes)%Z ∧
     do_POST environ ts network req =
       respond_json 200
         {[ u "ok" := PBool true;
            u "delivered" := PInt (delivered_count outcomes) ]}).
Proof.
  intros Hintake Hthread Htext Hids outcomes.
  assert (Hlen : length outcomes = length (parse_admin_ids environ)).
  { subst outcomes. by rewrite <-(delivery_outcomes_ids network 0) at 2;
      rewrite length_fmap. }
  pose proof (deliver_report environ ts network req valid
                Hintake Hthread Htext Hids) as Hpost.
  cbv zeta in Hpost. fold outcomes in Hpost.
  split; [apply delivery_outcomes_ids|].
  split; [apply delivery_outcomes_codes|].
  split; [rewrite <-Hlen; apply failure_entries_length|].
  split.
  - intros Hall Henc. split; [by rewrite failure_entries_all_failed|].
    rewrite Hpost. apply delivered_count_zero in Hall. by rewrite Hall, Henc.
  - intros Hex.
    assert (delivered_count outcomes ≠ 0)%Z as Hnz.
    { intros Hz%delivered_count_zero. apply Exists_exists in Hex as (o & Ho & Hnone).
      rewrite Forall_forall in Hz. by apply (Hz o). }
    assert (0 ≤ delivered_count outcomes)%Z by (unfold delivered_count; lia).
    split; [lia|]. rewrite Hpost. by rewrite (proj2 (Z.eqb_neq _ _) Hnz).
Qed.

End fan_out_props.

(* ===================================================================== *)
(** ** The handler on the sample deployment *)
(* ===================================================================== *)

Lemma configuration_check_first_witness :
  let req := {| req_path := u "/api/request"; req_content_length := None;
                req_rfile := [Byte.xff]; req_client_address := None |} in
  req_path req = u "/api/request" ∧
  unconfigured_environ !! u "ADMIN_IDS" = None ∧
  @do_POST sample_builtins unconfigured_environ [] all_fail req =
    respond_json 500
      {[ u "ok" := PBool false; u "error" := PStr (u "server_not_configured") ]}.
Proof.
  intros req. split; [reflexivity|]. split; [by vm_compute|].
  apply (@configuration_check_first sample_builtins); [reflexivity|].
  right. right. left. by vm_compute.
Defined.

(** A request whose body is the single byte [0xff], on the sample
    deployment. *)
Lemma undecodable_body_uncaught_witness :
  let req := {| req_path := u "/api/request"; req_content_length := Some (u "1");
                req_rfile := [Byte.xff]; req_client_address := None |} in
  @content_length sample_builtins req = 1%Z ∧
  utf8_decode (req_rfile req) = None ∧
  @do_POST sample_builtins sample_environ [] all_fail req
  = uncaught UnicodeDecodeError.
Proof.
  intros req. split; [reflexivity|]. split; [reflexivity|].
  apply (@undecodable_body_uncaught sample_builtins).
  - reflexivity.
  - by vm_compute.
  - by vm_compute.
  - by vm_compute.
  - reflexivity.
Defined.

Lemma digits_of_nonempty fuel n acc : digits_of fuel n acc ≠ [].
Proof.
  revert n acc. induction fuel as [|fuel IH]; intros n acc; simpl; [done|].
  destruct (n / 10 =? 0)%N; [done|apply IH].
Qed.

Lemma sample_str_truthy v : truthy v = true → @py_str sample_builtins v ≠ [].
Proof.
  destruct v; simpl; try done; try (intros _; str_neq).
  - intros _. unfold decimal. intros [_ Hd]%app_eq_nil.
    by apply digits_of_nonempty in Hd.
  - by destruct s.
Qed.

(* ===================================================================== *)
(** ** Further properties of the sanitizer *)
(* ===================================================================== *)

Section more_str_lemmas.
Implicit Types (c q : char) (s t w : pstr) (P : char → bool).

Lemma str_lstrip_idemp s : str_lstrip (str_lstrip s) = str_lstrip s.
Proof.
  destruct (str_lstrip_head s) as [->|(c & r & -> & Hc)]; [done|].
  simpl. by rewrite Hc.
Qed.

Lemma str_rstrip_idemp s : str_rstrip (str_rstrip s) = str_rstrip s.
Proof.
  induction s as [|c s IH]; [done|]. rewrite str_rstrip_cons.
  destruct (str_rstrip s) as [|c' r] eqn:Hr.
  - destruct (isspace c) eqn:Hc; [done|]. simpl. by rewrite Hc.
  - rewrite str_rstrip_cons, IH. done.
Qed.

Lemma str_strip_idemp s : str_strip (str_strip s) = str_strip s.
Proof.
  unfold str_strip. rewrite (str_strip_comm s), str_lstrip_idemp.
  by rewrite <-str_strip_comm, str_rstrip_idemp.
Qed.

Lemma str_lstrip_no_leading s : no_leading isspace s = true → str_lstrip s = s.
Proof. destruct s as [|c s]; [done|]. simpl. by destruct (isspace c). Qed.

Lemma length_str_rstrip s : length (str_rstrip s) ≤ length s.
Proof.
  induction s as [|c s IH]; [done|]. rewrite str_rstrip_cons.
  destruct (str_rstrip s); [destruct (isspace c)|]; simpl in *; lia.
Qed.

Lemma no_adjacent_cons P c s :
  no_adjacent P (c :: s) = no_leading (λ c', P c && P c') s && no_adjacent P s.
Proof. by destruct s. Qed.

Lemma no_adjacent_take P n s : no_adjacent P s = true → no_adjacent P (take n s) = true.
Proof.
  revert n. induction s as [|c s IH]; intros n; [by destruct n|].
  destruct n as [|n]; [done|]. rewrite firstn_cons, !no_adjacent_cons.
  intros [Hl Hs]%andb_true_iff. rewrite IH by done. rewrite andb_true_r.
  destruct s as [|c' s]; [by destruct n|]. by destruct n.
Qed.

Lemma no_leading_take P n s : no_leading P s = true → no_leading P (take n s) = true.
Proof. destruct s, n; done. Qed.

Lemma no_adjacent_app_free P w t :
  Forall (λ c, P c = false) w → no_adjacent P (w ++ t) = no_adjacent P t.
Proof.
  induction 1 as [|c w Hc Hw IH]; [done|].
  rewrite <-app_comm_cons, no_adjacent_cons, IH.
  destruct (w ++ t); [by destruct t|]. simpl. by rewrite Hc.
Qed.

(** Pieces free of [P], joined by one [P] character. *)
Lemma str_join_shape P q (parts : list pstr) :
  P q = true →
  Forall (λ w, w ≠ [] ∧ Forall (λ c, P c = false) w) parts →
  no_leading P (str_join [q] parts) = true
  ∧ no_adjacent P (str_join [q] parts) = true.
Proof.
  intros Hq. induction 1 as [|w [|w' ws] [Hne Hw] Hws IH]; [done|..].
  - simpl. split.
    + destruct w as [|c w]; [done|]. inversion Hw; subst. simpl. by destruct (P c).
    + rewrite <-(app_nil_r w). by rewrite no_adjacent_app_free.
  - destruct IH as [IHl IHa]. rewrite str_join_cons2. split.
    + destruct w as [|c w]; [done|]. inversion Hw; subst. simpl. by destruct (P c).
    + rewrite no_adjacent_app_free by done.
      change ([q] ++ ?t) with (q :: t). rewrite no_adjacent_cons, IHa, andb_true_r.
      destruct (str_join [q] (w' :: ws)) as [|c t]; [done|].
      simpl in *. destruct (P c); [done|]. by rewrite andb_false_r.
Qed.

Lemma str_join_split_shape s :
  no_leading isspace (str_join [SPACE] (str_split s)) = true
  ∧ no_adjacent isspace (str_join [SPACE] (str_split s)) = true.
Proof.
  apply str_join_shape; [done|].
  eapply Forall_impl; [apply str_split_words|]. by intros w (? & _ & ?).
Qed.

Lemma str_join_singleton sep w : str_join sep [w] = w.
Proof. reflexivity. Qed.

(** Joining the words back keeps every non-whitespace character. *)
Lemma filter_str_join_split s :
  List.filter (λ c, negb (isspace c)) (str_join [SPACE] (str_split s))
  = List.filter (λ c, negb (isspace c)) s.
Proof.
  induction s as [|c s IH]; [done|].
  destruct (isspace c) eqn:Hc.
  - rewrite str_split_cons_space by done. cbn [List.filter]. by rewrite Hc.
  - cbn [List.filter]. rewrite Hc. cbn [negb].
    destruct s as [|c' s'].
    { cbn [str_split]. rewrite Hc, str_join_singleton. cbn [List.filter].
      by rewrite Hc. }
    rewrite str_split_cons2, Hc. destruct (isspace c') eqn:Hc'.
    + destruct (str_split (c' :: s')) as [|w ws] eqn:Hs.
      * rewrite <-IH, str_join_singleton. cbn [List.filter]. by rewrite Hc.
      * rewrite str_join_cons2, <-IH. cbn [app List.filter].
        by rewrite Hc, isspace_SPACE.
    + destruct (str_split_head c' s' Hc') as (w & ws & Hs). rewrite Hs in *.
      rewrite str_join_cons_head, <-IH. cbn [List.filter]. by rewrite Hc.
Qed.

(** On a text already in collapsed form, collapsing changes nothing. *)
Lemma collapse_ws_fixed s :
  (∀ c, c ∈ s → isspace c = true → c = SPACE) →
  no_adjacent isspace s = true → collapse_ws s = s.
Proof.
  induction s as [|c s IH]; [done|]. intros Hsp Hadj.
  rewrite no_adjacent_cons in Hadj. apply andb_true_iff in Hadj as [Hl Hadj].
  assert (IH' : collapse_ws s = s).
  { apply IH; [|done]. intros c' Hc'. apply Hsp. by right. }
  simpl. destruct (isspace c) eqn:Hc.
  - rewrite (Hsp c) by (done || left). destruct s as [|c' s']; [done|].
    simpl in Hl. destruct (isspace c'); [done|]. by rewrite IH'.
  - by rewrite IH'.
Qed.

End more_str_lemmas.

Section more_sanitizer_props.
Implicit Types (payload : gmap pstr pyval) (value : option pyval) (s : pstr).

Lemma clean_text_take s max_len :
  clean_text (Some (PStr s)) max_len
  = take max_len (str_join [SPACE] (str_split s)).
Proof. unfold clean_text. by rewrite str_split_strip. Qed.

Lemma filter_take_prefix (f : char → bool) n s :
  List.filter f (take n s) `prefix_of` List.filter f s.
Proof.
  exists (List.filter f (drop n s)).
  by rewrite <-List.filter_app, take_drop.
Qed.

Lemma clean_text_layout s max_len :
  let r := clean_text (Some (PStr s)) max_len in
  length r ≤ max_len ∧ no_leading isspace r = true ∧ no_adjacent isspace r = true
  ∧ (∀ c, c ∈ r → isspace c = true → c = SPACE).
Proof.
  intros r. subst r. destruct (str_join_split_shape s) as [Hl Ha].
  split; [rewrite clean_text_take, length_take; lia|].
  split; [rewrite clean_text_take; by apply no_leading_take|].
  split; [rewrite clean_text_take; by apply no_adjacent_take|].
  apply clean_text_spaces.
Qed.

(** X1: a cleaned text is at most [max_len] long, does not start with
    whitespace, holds no two neighbouring whitespace characters and no
    whitespace other than the space, and its other characters are, in
    order, the first non-whitespace characters of the input. *)
Theorem clean_text_shape s max_len :
  let r := clean_text (Some (PStr s)) max_len in
  length r ≤ max_len ∧
  no_leading isspace r = true ∧
  no_adjacent isspace r = true ∧
  (∀ c, c ∈ r → isspace c = true → c = SPACE) ∧
  List.filter (λ c, negb (isspace c)) r
    `prefix_of` List.filter (λ c, negb (isspace c)) s.
Proof.
  intros r. subst r.
  destruct (clean_text_layout s max_len) as (Hlen & Hl & Ha & Hsp).
  repeat (split; [done|]).
  rewrite clean_text_take, <-(filter_str_join_split s). apply filter_take_prefix.
Qed.

Lemma str_rstrip_join_split s :
  str_rstrip (str_join [SPACE] (str_split s)) = str_join [SPACE] (str_split s).
Proof.
  rewrite <-(str_split_strip s), str_join_split_collapse.
  unfold str_strip. apply str_rstrip_idemp.
Qed.

(** X2: cleaning a cleaned text again only removes the space that
    truncation may have left at its end; when the first result is shorter
    than [max_len], nothing was cut and cleaning again changes nothing. *)
Theorem clean_text_again value max_len :
  let r := clean_text value max_len in
  clean_text (Some (PStr r)) max_len = str_rstrip r ∧
  (length r < max_len → clean_text (Some (PStr r)) max_len = r).
Proof.
  intros r.
  assert (Hshape : length r ≤ max_len ∧ no_leading isspace r = true
                   ∧ no_adjacent isspace r = true
                   ∧ (∀ c, c ∈ r → isspace c = true → c = SPACE)
                   ∧ (length r < max_len → str_rstrip r = r)).
  { subst r. destruct value as [[| | | |s| |]|];
      try (repeat split; simpl; try lia; by intros ? ?%elem_of_nil).
    destruct (clean_text_layout s max_len) as (Hlen & Hl & Ha & Hsp).
    repeat split; try done. rewrite clean_text_take, length_take. intros Hlt.
    rewrite take_ge by lia. apply str_rstrip_join_split. }
  destruct Hshape as (Hlen & Hl & Ha & Hsp & Hfit).
  assert (Hagain : clean_text (Some (PStr r)) max_len = str_rstrip r).
  { unfold clean_text. rewrite str_join_split_collapse, collapse_ws_fixed by done.
    unfold str_strip. rewrite str_lstrip_no_leading by done.
    apply take_ge. pose proof (length_str_rstrip r). lia. }
  split; [done|]. intros Hlt. by rewrite Hagain, Hfit.
Qed.

Lemma str_split_sep_no_sep sep s l : l ∈ str_split_sep sep s → sep ∉ l.
Proof.
  revert l. induction s as [|c s IH]; intros l; simpl.
  - intros ->%list_elem_of_singleton. by intros ?%elem_of_nil.
  - destruct (N.eqb_spec c sep) as [->|Hne].
    + intros [->|Hl]%elem_of_cons; [by intros ?%elem_of_nil|by apply IH].
    + destruct (str_split_sep sep s) as [|l0 ls] eqn:Hs.
      * intros ->%list_elem_of_singleton [?| ?%elem_of_nil]%elem_of_cons; done.
      * intros [->|Hl]%elem_of_cons.
        -- intros [?|Hin]%elem_of_cons; [done|]. apply (IH l0); [left|done].
        -- apply IH. by right.
Qed.

Lemma kept_lines_pieces t :
  Forall (λ l, l ≠ [] ∧ Forall (λ c, is_LF c = false) l) (kept_lines t).
Proof.
  apply Forall_forall. intros l Hl. unfold kept_lines, keep_trimmed in Hl.
  apply list_elem_of_filter in Hl as [Hne Hl]. split; [done|].
  apply list_elem_of_fmap in Hl as (l0 & -> & Hl0).
  apply Forall_forall. intros c Hc%elem_of_str_strip.
  unfold is_LF. apply N.eqb_neq. intros ->.
  by apply (str_split_sep_no_sep LF t l0).
Qed.

Lemma clean_comment_layout value max_len :
  no_leading is_LF (clean_comment value max_len) = true
  ∧ no_adjacent is_LF (clean_comment value max_len) = true.
Proof.
  destruct value as [[| | | |s| |]|]; try done.
  rewrite clean_comment_spec. unfold comment_field.
  destruct (str_join_shape is_LF LF (kept_lines (normalize_newlines s)))
    as [Hl Ha]; [done|apply kept_lines_pieces|].
  split; [by apply no_leading_take|by apply no_adjacent_take].
Qed.

(** X3: a cleaned comment is at most [max_len] long, holds no carriage
    return, does not start with a line feed and holds no two line feeds in
    a row: no line before the last is empty. *)
Theorem clean_comment_shape value max_len :
  let r := clean_comment value max_len in
  length r ≤ max_len ∧ (CR ∉ r) ∧
  no_leading is_LF r = true ∧ no_adjacent is_LF r = true.
Proof.
  intros r. subst r.
  split; [apply clean_comment_length|]. split; [apply clean_comment_no_cr|].
  apply clean_comment_layout.
Qed.

Lemma clean_text_length value max_len : length (clean_text value max_len) ≤ max_len.
Proof.
  destruct value as [[]|]; simpl; try lia. rewrite length_take. lia.
Qed.

(** X4: every record accepted by [validate_payload] has a name, a car and
    a service of 1 to 80, 120 and 120 characters on a single line (their
    only whitespace is the space), a phone of 6 to 25 characters from the
    allowed class, and a comment of at most 600 characters. *)
Theorem valid_request_bounds payload r :
  validate_payload payload = inl r →
  1 ≤ length (vr_name r) ≤ 80 ∧
  phone_matches (vr_phone r) ∧
  1 ≤ length (vr_car r) ≤ 120 ∧
  1 ≤ length (vr_service r) ≤ 120 ∧
  length (vr_comment r) ≤ 600 ∧
  (∀ c, c ∈ vr_name r ++ vr_car r ++ vr_service r → isspace c = true → c = SPACE).
Proof.
  intros Hr. pose proof (validate_payload_inl _ _ Hr) as ->.
  assert (∃ r, validate_payload payload = inl r) as Hex by eauto.
  apply validate_payload_inl_iff in Hex as (Hname & Hphone & Hre & Hcar & Hservice).
  assert (Hpos : ∀ s : pstr, s ≠ [] → 1 ≤ length s).
  { intros [|] ?; simpl; [done|lia]. }
  simpl. repeat split; try (by apply Hpos); try apply clean_text_length.
  - by apply PHONE_RE_fullmatch_spec.
  - by apply PHONE_RE_fullmatch_spec.
  - by apply PHONE_RE_fullmatch_spec.
  - apply clean_comment_length.
  - intros c [Hc|[Hc|Hc]%elem_of_app]%elem_of_app; by eapply clean_text_spaces.
Qed.

Lemma valid_request_bounds_witness :
  validate_payload sample_payload = inl sample_valid ∧
  1 ≤ length (vr_name sample_valid) ≤ 80 ∧ phone_matches (vr_phone sample_valid).
Proof.
  assert (Hok : validate_payload sample_payload = inl sample_valid) by by vm_compute.
  split; [exact Hok|].
  by destruct (valid_request_bounds _ _ Hok) as (? & ? & _).
Defined.

(** X5: the verdict of [validate_payload] does not depend on the comment
    nor on any key other than the five it reads: changing such a key never
    turns an accepted payload into a rejected one nor changes the reason. *)
Theorem validate_payload_ignores_other_keys payload key v :
  key ∉ [u "name"; u "phone"; u "car"; u "service"] →
  match validate_payload (<[key := v]> payload), validate_payload payload with
  | inl r', inl r =>
      vr_name r' = vr_name r ∧ vr_phone r' = vr_phone r ∧
      vr_car r' = vr_car r ∧ vr_service r' = vr_service r ∧
      (key ≠ u "comment" → r' = r)
  | inr e', inr e => e' = e
  | _, _ => False
  end.
Proof.
  intros Hkey. unfold validate_payload.
  rewrite !(lookup_insert_ne payload key)
    by (intros ->; apply Hkey; set_solver).
  destruct (str_empty (clean_text (payload !! u "name") 80)); [done|].
  destruct (str_empty (clean_text (payload !! u "phone") 40)); [done|].
  destruct (negb _); [done|].
  destruct (str_empty (clean_text (payload !! u "car") 120)); [done|].
  destruct (str_empty (clean_text (payload !! u "service") 120)); [done|].
  simpl. repeat split; try done. intros Hc. by rewrite lookup_insert_ne.
Qed.

Lemma validate_payload_ignores_other_keys_witness :
  (u "utm_source" ∉ [u "name"; u "phone"; u "car"; u "service"]) ∧
  validate_payload (<[u "utm_source" := PInt 7]> sample_payload) = inl sample_valid.
Proof.
  assert (Hnot : u "utm_source" ∉ [u "name"; u "phone"; u "car"; u "service"]).
  { intros Hin. vm_compute in Hin.
    repeat (apply elem_of_cons in Hin as [Hin|Hin]; [discriminate Hin|]).
    by apply elem_of_nil in Hin. }
  split; [exact Hnot|].
  pose proof (validate_payload_ignores_other_keys sample_payload
                (u "utm_source") (PInt 7) Hnot) as Hsame.
  assert (Hok : validate_payload sample_payload = inl sample_valid) by by vm_compute.
  rewrite Hok in Hsame.
  destruct (validate_payload (<[u "utm_source" := PInt 7]> sample_payload)) as [r'|e];
    [|done].
  destruct Hsame as (_ & _ & _ & _ & ->); [done|].
  intros Heq. vm_compute in Heq. discriminate Heq.
Defined.

End more_sanitizer_props.

(* ===================================================================== *)
(** ** Further properties of the configuration readers *)
(* ===================================================================== *)

Section config_props.
Implicit Types (environ : gmap pstr pstr) (s p r : pstr) (c : char).

Lemma str_split_sep_free sep p : sep ∉ p → str_split_sep sep p = [p].
Proof.
  induction p as [|c p IH]; [done|]. intros Hp. simpl.
  destruct (N.eqb_spec c sep) as [->|_]; [destruct Hp; left|].
  rewrite IH; [done|]. intros ?. apply Hp. by right.
Qed.

Lemma str_split_sep_app sep p rest :
  sep ∉ p → str_split_sep sep (p ++ sep :: rest) = p :: str_split_sep sep rest.
Proof.
  induction p as [|c p IH]; intros Hp.
  - simpl. by rewrite N.eqb_refl.
  - simpl. destruct (N.eqb_spec c sep) as [->|_]; [destruct Hp; left|].
    rewrite IH; [done|]. intros ?. apply Hp. by right.
Qed.

Lemma str_strip_app_space pad s :
  forallb isspace pad = true → str_strip (pad ++ s) = str_strip s.
Proof.
  induction pad as [|c pad IH]; [done|]. simpl.
  intros [Hc Hpad]%andb_true_iff. rewrite str_strip_cons_space by done. auto.
Qed.

(** The identifiers kept by [parse_admin_ids] are non-empty, trimmed and
    free of commas. *)
Lemma parse_admin_ids_elem environ admin_id :
  admin_id ∈ parse_admin_ids environ →
  admin_id ≠ [] ∧ str_strip admin_id = admin_id ∧ 44%N ∉ admin_id.
Proof.
  unfold parse_admin_ids. intros [Hne Hin]%list_elem_of_filter.
  apply list_elem_of_fmap in Hin as (part & -> & Hpart).
  split; [done|]. split; [apply str_strip_idemp|].
  intros Hc%elem_of_str_strip.
  by apply (str_split_sep_no_sep 44%N (getenv environ (u "ADMIN_IDS") []) part).
Qed.

Lemma split_join_comma pad (ids : list pstr) :
  forallb isspace pad = true →
  Forall (λ admin_id, admin_id ≠ [] ∧ str_strip admin_id = admin_id
                      ∧ 44%N ∉ admin_id) ids →
  ids ≠ [] →
  str_strip <$> str_split_sep 44%N (pad ++ str_join [44%N; SPACE] ids) = ids.
Proof.
  intros Hpad Hids. revert pad Hpad.
  induction Hids as [|a [|b rest] (Hne & Hstrip & Hcomma) Hrest IH];
    intros pad Hpad Hnil; [done|..].
  - rewrite str_join_singleton, str_split_sep_free.
    + simpl. by rewrite str_strip_app_space, Hstrip.
    + intros [Hin|Hin]%elem_of_app; [|done].
      rewrite forallb_forall in Hpad. by apply list_elem_of_In, Hpad in Hin.
  - rewrite str_join_cons2.
    change (pad ++ a ++ [44%N; SPACE] ++ str_join [44%N; SPACE] (b :: rest))
      with (pad ++ a ++ 44%N :: [SPACE] ++ str_join [44%N; SPACE] (b :: rest)).
    rewrite (app_assoc pad a), str_split_sep_app.
    + rewrite fmap_cons, IH by done. by rewrite str_strip_app_space, Hstrip.
    + intros [Hin|Hin]%elem_of_app; [|done].
      rewrite forallb_forall in Hpad. by apply list_elem_of_In, Hpad in Hin.
Qed.

Lemma filter_nonempty_all (ls : list pstr) :
  Forall (λ l, l ≠ []) ls → filter (λ l : pstr, l ≠ []) ls = ls.
Proof.
  induction 1 as [|l ls Hl Hls IH]; [done|].
  rewrite filter_cons. case_decide; [by rewrite IH|done].
Qed.

(** X6: [parse_admin_ids] returns identifiers that are non-empty, trimmed
    and free of commas, and it reads back, in order and with duplicates,
    any such list written with comma and space between the identifiers. *)
Theorem parse_admin_ids_round_trip environ (ids : list pstr) :
  (∀ admin_id, admin_id ∈ parse_admin_ids environ →
     admin_id ≠ [] ∧ str_strip admin_id = admin_id ∧ 44%N ∉ admin_id) ∧
  (Forall (λ admin_id, admin_id ≠ [] ∧ str_strip admin_id = admin_id
                       ∧ 44%N ∉ admin_id) ids →
   parse_admin_ids (<[u "ADMIN_IDS" := str_join (u ", ") ids]> environ) = ids).
Proof.
  split; [apply parse_admin_ids_elem|]. intros Hids.
  unfold parse_admin_ids, getenv. rewrite lookup_insert_eq.
  destruct ids as [|a rest]; [done|].
  change (u ", ") with [44%N; SPACE].
  rewrite <-(app_nil_l (str_join _ _)), split_join_comma by done.
  apply filter_nonempty_all. eapply Forall_impl; [exact Hids|]. by intros ? [? _].
Qed.

Lemma parse_admin_ids_round_trip_witness :
  parse_admin_ids (<[u "ADMIN_IDS" := str_join (u ", ") [u "7"; u "42"; u "7"]]> ∅)
  = [u "7"; u "42"; u "7"].
Proof.
  apply (parse_admin_ids_round_trip ∅ [u "7"; u "42"; u "7"]).
  repeat constructor; try done; try (by vm_compute);
    intros Hin; vm_compute in Hin;
    repeat (apply elem_of_cons in Hin as [Hin|Hin]; [discriminate Hin|]);
    by apply elem_of_nil in Hin.
Defined.

End config_props.

Section database_url_props.
Implicit Types (s p r v : pstr) (c : char).

Lemma str_startswith_true s p :
  str_startswith s p = true → s = p ++ drop (length p) s.
Proof.
  revert s. induction p as [|a p IH]; intros s; [done|].
  destruct s as [|b s]; [done|]. simpl.
  intros [->%N.eqb_eq Hp]%andb_true_iff. f_equal. by apply IH.
Qed.

Lemma str_rstrip_app_free p r :
  Forall (λ c, isspace c = false) p → str_rstrip (p ++ r) = p ++ str_rstrip r.
Proof.
  induction 1 as [|c p Hc Hp IH]; [done|].
  rewrite <-app_comm_cons, str_rstrip_cons_nonspace by done. by rewrite IH.
Qed.

Lemma str_rstrip_strip v : str_rstrip (str_strip v) = str_strip v.
Proof. unfold str_strip. apply str_rstrip_idemp. Qed.

Lemma scheme_free :
  Forall (λ c, isspace c = false) (u "postgres://")
  ∧ Forall (λ c, isspace c = false) (u "postgresql+asyncpg://")
  ∧ Forall (λ c, isspace c = false) (u "postgresql://").
Proof. repeat split; apply Forall_forall; intros c Hc; vm_compute in Hc;
  repeat (apply elem_of_cons in Hc as [->|Hc]; [reflexivity|]);
  by apply elem_of_nil in Hc.
Qed.

(** A stripped text that opens with one of the two old schemes becomes the
    canonical scheme followed by the same rest, and that is stripped too. *)
Lemma canonical_stripped p r :
  Forall (λ c, isspace c = false) p →
  str_rstrip (p ++ r) = p ++ r →
  str_strip (u "postgresql://" ++ r) = u "postgresql://" ++ r.
Proof.
  intros Hp Hr. rewrite str_rstrip_app_free in Hr by done.
  apply app_inv_head in Hr. destruct scheme_free as (_ & _ & Hcanon).
  unfold str_strip. rewrite (str_lstrip_no_leading (u "postgresql://" ++ r)) by done.
  by rewrite str_rstrip_app_free, Hr.
Qed.

Lemma normalize_database_url_cases v :
  let d := str_strip v in
  (str_startswith d (u "postgres://") = true
   ∧ normalize_database_url v = u "postgresql://" ++ drop 11 d
   ∧ str_strip (normalize_database_url v) = normalize_database_url v)
  ∨ (str_startswith d (u "postgres://") = false
     ∧ str_startswith d (u "postgresql+asyncpg://") = true
     ∧ normalize_database_url v = u "postgresql://" ++ drop 21 d
     ∧ str_strip (normalize_database_url v) = normalize_database_url v)
  ∨ (str_startswith d (u "postgres://") = false
     ∧ str_startswith d (u "postgresql+asyncpg://") = false
     ∧ normalize_database_url v = d).
Proof.
  intros d. unfold normalize_database_url, str_removeprefix. fold d.
  destruct scheme_free as (H1 & H2 & _).
  destruct (str_startswith d (u "postgres://")) eqn:Hs1.
  - left. split; [done|]. split; [done|].
    apply (canonical_stripped (u "postgres://")); [done|].
    rewrite <-(str_startswith_true _ _ Hs1). apply str_rstrip_strip.
  - destruct (str_startswith d (u "postgresql+asyncpg://")) eqn:Hs2.
    + right. left. repeat split; try done.
      apply (canonical_stripped (u "postgresql+asyncpg://")); [done|].
      rewrite <-(str_startswith_true _ _ Hs2). apply str_rstrip_strip.
    + right. right. done.
Qed.

Lemma str_lstrip_nil s : str_lstrip s = [] ↔ forallb isspace s = true.
Proof.
  induction s as [|c s IH]; [done|]. simpl. by destruct (isspace c).
Qed.

Lemma str_strip_nil s : str_strip s = [] ↔ forallb isspace s = true.
Proof.
  split.
  - unfold str_strip. intros Hall%str_rstrip_nil.
    destruct (str_lstrip_head s) as [Hl|(c & r & Hl & Hc)].
    + by apply str_lstrip_nil.
    + rewrite Hl in Hall. simpl in Hall. by rewrite Hc in Hall.
  - intros Hall%str_rstrip_nil. by apply str_strip_of_rstrip_nil.
Qed.

Lemma normalize_database_url_nil v :
  normalize_database_url v = [] ↔ forallb isspace v = true.
Proof.
  pose proof (str_strip_nil v) as Hblank.
  destruct (normalize_database_url_cases v)
    as [(Hs1 & -> & Hst)|[(Hs1 & Hs2 & -> & Hst)|(Hs1 & Hs2 & ->)]]; [| |done].
  - split; [done|]. intros Hall%Hblank. by rewrite Hall in Hs1.
  - split; [done|]. intros Hall%Hblank. by rewrite Hall in Hs2.
Qed.

(** X7: [normalize_database_url] is idempotent, its result never opens
    with one of the two old schemes, and the result is empty exactly when
    the value holds nothing but whitespace. *)
Theorem normalize_database_url_canonical v :
  normalize_database_url (normalize_database_url v) = normalize_database_url v ∧
  str_startswith (normalize_database_url v) (u "postgres://") = false ∧
  str_startswith (normalize_database_url v) (u "postgresql+asyncpg://") = false ∧
  (normalize_database_url v = [] ↔ forallb isspace v = true).
Proof.
  assert (Hnew : ∀ r,
    str_startswith (u "postgresql://" ++ r) (u "postgres://") = false
    ∧ str_startswith (u "postgresql://" ++ r) (u "postgresql+asyncpg://") = false).
  { intros r. split; by vm_compute. }
  pose proof (str_strip_nil v) as Hblank.
  destruct (normalize_database_url_cases v)
    as [(Hs1 & -> & Hst)|[(Hs1 & Hs2 & -> & Hst)|(Hs1 & Hs2 & ->)]].
  - destruct (Hnew (drop 11 (str_strip v))) as [Hn1 Hn2].
    split; [|split; [done|split; [done|]]].
    + unfold normalize_database_url. by rewrite Hst, Hn1, Hn2.
    + split; [done|]. intros Hall%Hblank. by rewrite Hall in Hs1.
  - destruct (Hnew (drop 21 (str_strip v))) as [Hn1 Hn2].
    split; [|split; [done|split; [done|]]].
    + unfold normalize_database_url. by rewrite Hst, Hn1, Hn2.
    + split; [done|]. intros Hall%Hblank. by rewrite Hall in Hs2.
  - split; [|done]. unfold normalize_database_url.
    by rewrite str_strip_idemp, Hs1, Hs2.
Qed.

End database_url_props.

(* ===================================================================== *)
(** ** Further properties of the request handler *)
(* ===================================================================== *)

Section more_handler_props.
Context `{PyBuiltins}.
Implicit Types (environ : gmap pstr pstr) (req : request) (ts : pstr)
  (network : nat → urlopen_outcome) (valid : valid_request).

Lemma utf8_encodable_app a b :
  utf8_encodable (a ++ b) = utf8_encodable a && utf8_encodable b.
Proof. apply forallb_app. Qed.

(** X8: the message built for the administrators can be encoded as UTF-8
    exactly when the five fields, the client address and the time stamp
    can: the labels and the placeholder of an empty comment never get in
    the way. *)
Theorem build_admin_message_encodable data client_ip ts :
  utf8_encodable (build_admin_message data client_ip ts)
  = utf8_encodable (vr_name data) && utf8_encodable (vr_phone data)
    && utf8_encodable (vr_car data) && utf8_encodable (vr_service data)
    && utf8_encodable (vr_comment data) && utf8_encodable client_ip
    && utf8_encodable ts.
Proof.
  destruct data as [name phone car service comment].
  unfold build_admin_message. cbv zeta.
  cbn [vr_name vr_phone vr_car vr_service vr_comment].
  rewrite !utf8_encodable_app.
  destruct comment as [|c comment]; cbn [str_empty];
    repeat match goal with
           | |- context [utf8_encodable (N.pos ?x :: ?l)] =>
               change (utf8_encodable (N.pos x :: l)) with true
           end;
    cbn [andb]; rewrite ?andb_true_r, ?andb_assoc; reflexivity.
Qed.

(** A phone that passed the format check holds ASCII only. *)
Lemma phone_matches_encodable s : phone_matches s → utf8_encodable s = true.
Proof.
  intros [_ Hall]. apply forallb_forall. intros c Hc%list_elem_of_In.
  rewrite Forall_forall in Hall. specialize (Hall c Hc).
  unfold allowed_phone_char in Hall. unfold is_surrogate.
  apply negb_true_iff, andb_false_iff.
  repeat (apply orb_true_iff in Hall as [Hall|Hall]);
    try apply andb_true_iff in Hall as [? ?];
    repeat match goal with
           | Hx : (_ <=? _)%N = true |- _ => apply N.leb_le in Hx
           | Hx : (_ =? _)%N = true |- _ => apply N.eqb_eq in Hx
           end;
    left; apply N.leb_gt; lia.
Qed.

Lemma fan_out_returns bot_token text thread_id network i admin_ids delivered errors :
  from_option (λ t, is_Some (py_int t)) True thread_id →
  utf8_encodable text = true →
  Forall (λ admin_id, utf8_encodable admin_id = true) admin_ids →
  ∃ r, fan_out bot_token text thread_id network i admin_ids delivered errors = Ok r.
Proof.
  intros Hthread Htext Hids. revert i delivered errors.
  induction Hids as [|admin_id rest Hid Hrest IH]; intros i delivered errors;
    [by eexists|].
  cbn [fan_out]. rewrite send_telegram_message_ok by done.
  destruct (telegram_try (network i)) as [[] [[|]|]]; apply IH.
Qed.


Lemma forallb_cons {A} (f : A → bool) x l : forallb f (x :: l) = f x && forallb f l.
Proof. reflexivity. Qed.

(** The loop, when building the requests cannot raise: the count of the
    successes, and a list of entries that can be encoded exactly when the
    failure list can (an entry left out for an empty code would be the
    recipient and a colon). *)
Lemma fan_out_entries bot_token text thread_id network i admin_ids delivered errors :
  from_option (λ t, is_Some (py_int t)) True thread_id →
  utf8_encodable text = true →
  Forall (λ admin_id, utf8_encodable admin_id = true) admin_ids →
  ∃ errors',
    fan_out bot_token text thread_id network i admin_ids delivered errors
    = Ok ((delivered + delivered_count (delivery_outcomes network i admin_ids))%Z,
          errors ++ errors')
    ∧ forallb utf8_encodable errors'
      = forallb utf8_encodable (failure_entries (delivery_outcomes network i admin_ids)).
Proof.
  intros Hthread Htext Hids. revert i delivered errors.
  induction Hids as [|admin_id rest Hid Hrest IH]; intros i delivered errors.
  { exists []. simpl. unfold delivered_count, failure_entries. simpl.
    by rewrite Z.add_0_r, app_nil_r. }
  rewrite delivery_outcomes_cons, delivered_count_cons, failure_entries_cons.
  pose proof (send_telegram_message_ok bot_token admin_id text thread_id
                (network i) Hthread Hid Htext) as Hsend.
  assert (Hentry : utf8_encodable (admin_id ++ u ":" ++ []) = true).
  { rewrite utf8_encodable_app, Hid. done. }
  destruct (telegram_try (network i)) as [[] [[|c code]|]]; cbn [fst snd default].
  - destruct (IH (S i) (delivered + 1)%Z errors) as (errors' & Hfan & Henc).
    exists errors'. split; [|done].
    cbn [fan_out]. rewrite Hsend. cbn [mbind result_bind]. rewrite Hfan.
    do 2 f_equal; lia.
  - destruct (IH (S i) (delivered + 1)%Z errors) as (errors' & Hfan & Henc).
    exists errors'. split; [|done].
    cbn [fan_out]. rewrite Hsend. cbn [mbind result_bind]. rewrite Hfan.
    do 2 f_equal; lia.
  - destruct (IH (S i) (delivered + 1)%Z errors) as (errors' & Hfan & Henc).
    exists errors'. split; [|done].
    cbn [fan_out]. rewrite Hsend. cbn [mbind result_bind]. rewrite Hfan.
    do 2 f_equal; lia.
  - destruct (IH (S i) delivered errors) as (errors' & Hfan & Henc).
    exists errors'. split.
    + cbn [fan_out]. rewrite Hsend. cbn [mbind result_bind]. rewrite Hfan.
      do 2 f_equal; lia.
    + rewrite forallb_cons. unfold id. by rewrite Hentry, Henc.
  - destruct (IH (S i) delivered (errors ++ [admin_id ++ u ":" ++ c :: code]))
      as (errors' & Hfan & Henc).
    exists ((admin_id ++ u ":" ++ c :: code) :: errors'). split.
    + cbn [fan_out]. rewrite Hsend. cbn [mbind result_bind].
      rewrite Hfan, <-app_assoc. do 2 f_equal; lia.
    + by rewrite !forallb_cons, Henc.
  - destruct (IH (S i) delivered errors) as (errors' & Hfan & Henc).
    exists errors'. split.
    + cbn [fan_out]. rewrite Hsend. cbn [mbind result_bind]. rewrite Hfan.
      do 2 f_equal; lia.
    + rewrite forallb_cons. unfold id. by rewrite Hentry, Henc.
Qed.

(** C3, where the code departs from it: a failed fan-out is not always
    reported. For a request that passed validation on a server whose
    thread id is fine, (1) when the message holds a lone surrogate, the
    UTF-8 encoding of the outbound payload raises before the [try] block of
    [send_telegram_message], for the first recipient already and whatever
    Telegram would answer; (2) when every delivery returned a failure and
    one entry of the failure list holds a lone surrogate, the list has its
    one entry per recipient and [respond_json] raises while it encodes the
    envelope. In both cases [UnicodeEncodeError] leaves [do_POST]: nothing
    was delivered, and neither the 502 envelope nor any other response is
    sent. *)
Theorem fan_out_failure_unreported environ ts network req valid :
  do_POST_intake environ req = inr valid →
  from_option (λ t, is_Some (py_int t)) True (thread_id_of environ) →
  let text := build_admin_message valid
                (default (u "-") (req_client_address req)) ts in
  let outcomes := delivery_outcomes network 0 (parse_admin_ids environ) in
  (utf8_encodable text = false →
     do_POST environ ts network req = uncaught UnicodeEncodeError) ∧
  (utf8_encodable text = true →
   Forall (λ admin_id, utf8_encodable admin_id = true) (parse_admin_ids environ) →
   Forall (λ o, o.2 ≠ None) outcomes →
   Exists (λ entry, utf8_encodable entry = false) (failure_entries outcomes) →
     length (failure_entries outcomes) = length (parse_admin_ids environ) ∧
     do_POST environ ts network req = uncaught UnicodeEncodeError).
Proof.
  intros Hintake Hthread text outcomes. split.
  - intros Htext. by apply (unencodable_message_uncaught _ _ _ _ valid).
  - intros Htext Hids Hall Hbad.
    assert (Hlen : length outcomes = length (parse_admin_ids environ)).
    { subst outcomes. by rewrite <-(delivery_outcomes_ids network 0) at 2;
        rewrite length_fmap. }
    split; [by rewrite failure_entries_all_failed|].
    destruct (fan_out_entries (bot_token_of environ) text (thread_id_of environ)
                network 0 (parse_admin_ids environ) 0%Z [] Hthread Htext Hids)
      as (errors & Hfan & Henc).
    fold outcomes in Hfan, Henc. simpl in Hfan.
    apply delivered_count_zero in Hall. apply forallb_false_Exists in Hbad.
    unfold do_POST. rewrite Hintake. unfold do_POST_deliver. fold text.
    by rewrite Hfan, Hall, Henc, Hbad.
Qed.



Lemma validate_payload_inr_codes payload error :
  validate_payload payload = inr error →
  error ∈ [u "name_required"; u "phone_required"; u "phone_invalid";
           u "car_required"; u "service_required"].
Proof.
  unfold validate_payload.
  destruct (str_empty (clean_text (payload !! u "name") 80));
    [intros [= <-]; repeat constructor|].
  destruct (str_empty (clean_text (payload !! u "phone") 40));
    [intros [= <-]; repeat constructor|].
  destruct (negb _); [intros [= <-]; repeat constructor|].
  destruct (str_empty (clean_text (payload !! u "car") 120));
    [intros [= <-]; repeat constructor|].
  destruct (str_empty (clean_text (payload !! u "service") 120));
    [intros [= <-]; repeat constructor|done].
Qed.

(** The loop adds at most one success or one entry per recipient. *)
Lemma fan_out_bounds bot_token text thread_id network i admin_ids
    delivered errors delivered' errors' :
  fan_out bot_token text thread_id network i admin_ids delivered errors
  = Ok (delivered', errors') →
  (delivered ≤ delivered')%Z ∧ length errors ≤ length errors' ∧
  (delivered' - delivered + Z.of_nat (length errors' - length errors)
   ≤ Z.of_nat (length admin_ids))%Z.
Proof.
  revert i delivered errors.
  induction admin_ids as [|admin_id rest IH]; intros i delivered errors.
  { intros [= <- <-]. simpl. lia. }
  cbn [fan_out].
  destruct (send_telegram_message bot_token admin_id text thread_id (network i))
    as [[[] [[|c code]|]]|e]; simpl; try done; intros Hfan%IH;
    rewrite ?length_app in Hfan; simpl in *; lia.
Qed.

(** What the guards of [do_POST] answer. *)
Lemma intake_responses environ req status data :
  do_POST_intake environ req = inl (respond_json status data) →
  ∃ code,
    code ∈ [u "server_not_configured"; u "invalid_body_size"; u "invalid_json";
            u "invalid_payload"; u "name_required"; u "phone_required";
            u "phone_invalid"; u "car_required"; u "service_required"] ∧
    data = {[ u "ok" := PBool false; u "error" := PStr code ]} ∧
    status = (if bool_decide (code = u "server_not_configured")
              then 500 else 400)%Z.
Proof.
  unfold do_POST_intake. destruct (negb _); [done|].
  destruct (_ || _).
  { intros [= <- <-]. eexists. split; [|done]. repeat constructor. }
  destruct (_ || _).
  { intros [= <- <-]. eexists. split; [|done]. repeat constructor. }
  destruct (utf8_decode _) as [text|]; [|done].
  destruct (json_loads text) as [[| | | | | |payload]|[]]; try done;
    try (intros [= <- <-]; eexists; split; [|done]; repeat constructor).
  destruct (validate_payload payload) as [valid|error] eqn:Hv; [done|].
  apply validate_payload_inr_codes in Hv. intros [= <- <-].
  exists error. split.
  - repeat (apply elem_of_cons in Hv as [->|Hv]; [repeat constructor|]).
    by apply elem_of_nil in Hv.
  - repeat (apply elem_of_cons in Hv as [->|Hv]; [done|]).
    by apply elem_of_nil in Hv.
Qed.

(** X10: every JSON answer of [do_POST] has one of the statuses 200, 400,
    500, 502 and an [ok] field that is true exactly on 200. A 200 carries
    the number of deliveries, between 1 and the number of recipients. Every
    other answer carries one of ten error codes, and the code decides the
    status: 500 for server_not_configured, 502 for telegram_send_failed
    (with at most one detail per recipient), 400 for the other eight. *)
Theorem do_POST_envelope environ ts network req status data :
  do_POST environ ts network req = respond_json status data →
  data !! u "ok" = Some (PBool (status =? 200)%Z) ∧
  ((status = 200%Z ∧
    ∃ delivered,
      data = {[ u "ok" := PBool true; u "delivered" := PInt delivered ]} ∧
      (1 ≤ delivered ≤ Z.of_nat (length (parse_admin_ids environ)))%Z)
   ∨ (∃ code,
        code ∈ post_error_codes ∧
        data !! u "error" = Some (PStr code) ∧
        status = (if bool_decide (code = u "server_not_configured") then 500
                  else if bool_decide (code = u "telegram_send_failed") then 502
                  else 400)%Z ∧
        (code = u "telegram_send_failed" →
         ∃ errors, data !! u "details" = Some (PList (PStr <$> errors)) ∧
                   length errors ≤ length (parse_admin_ids environ)))).
Proof.
  unfold do_POST. destruct (do_POST_intake environ req) as [response|valid] eqn:Hin.
  - intros ->. apply intake_responses in Hin as (code & Hcode & -> & ->).
    assert (Hcases : code ∈ post_error_codes
                     ∧ code ≠ u "telegram_send_failed"
                     ∧ ((if bool_decide (code = u "server_not_configured")
                         then 500 else 400) =? 200)%Z = false).
    { repeat (apply elem_of_cons in Hcode as [->|Hcode];
              [split; [repeat constructor|split; [str_neq|done]]|]).
      by apply elem_of_nil in Hcode. }
    destruct Hcases as (Hmem & Hne & Hst). rewrite Hst.
    split; [by rewrite lookup_insert_eq|]. right. exists code.
    split; [done|]. split.
    { rewrite lookup_insert_ne by str_neq. by rewrite lookup_singleton_eq. }
    split; [by rewrite (bool_decide_false _ Hne)|done].
  - unfold do_POST_deliver.
    destruct (fan_out _ _ _ _ _ _ _ _) as [[delivered errors]|e] eqn:Hfan; [|done].
    apply fan_out_bounds in Hfan as (Hd & _ & Hsum). simpl in Hsum.
    destruct (Z.eqb_spec delivered 0) as [->|Hnz];
      [destruct (forallb utf8_encodable errors); [|done]|]; intros [= <- <-].
    + split; [by rewrite lookup_insert_eq|]. right.
      exists (u "telegram_send_failed"). split; [repeat constructor|].
      split.
      { rewrite lookup_insert_ne by str_neq. by rewrite lookup_insert_eq. }
      split; [done|]. intros _. exists errors. split; [|lia].
      rewrite !lookup_insert_ne by str_neq. by rewrite lookup_singleton_eq.
    + split; [by rewrite lookup_insert_eq|]. left. split; [done|].
      exists delivered. split; [done|]. lia.
Qed.

End more_handler_props.

(* ===================================================================== *)
(** ** Further properties of the services cache *)
(* ===================================================================== *)

Section more_cache_props.
Implicit Types (environ : gmap pstr pstr) (c : cache) (now t : Z)
  (fetch : pstr → fetch_outcome) (k : call) (r : call_result).

Lemma serve_cons environ k ks c :
  serve environ (k :: ks) c =
    let r := load_active_services environ (call_now k) (call_fetch k) c in
    (r :: (serve environ ks (cache_after r)).1,
     (serve environ ks (cache_after r)).2).
Proof. simpl. by destruct (serve environ ks _). Qed.

(** After a call the cache holds what the call fetched, or what it held. *)
Lemma cache_after_fetched environ k c :
  let r := load_active_services environ (call_now k) (call_fetch k) c in
  cache_after r = match fetched k r with
                  | Some (t, services) => MkCache (t + 60) (Some services)
                  | None => c
                  end.
Proof.
  simpl. destruct (decide (database_url_of environ = [])) as [Hurl|Hurl].
  { by rewrite load_unconfigured. }
  destruct (cache_lookup c (call_now k)) as [data|] eqn:Hlook.
  { by rewrite (load_hit _ _ _ _ data). }
  rewrite load_miss by done. by destruct (call_fetch k _).
Qed.


(** A call that queries the store found the cache empty or expired. *)
Lemma queried_expired environ now fetch c :
  fetch_calls (load_active_services environ now fetch c) ≠ [] →
  cache_lookup c now = None.
Proof.
  destruct (decide (database_url_of environ = [])) as [Hurl|Hurl].
  { by rewrite load_unconfigured. }
  destruct (cache_lookup c now) as [data|] eqn:Hlook; [|done].
  by rewrite (load_hit _ _ _ _ data).
Qed.

Lemma serve_queries_late environ calls c T j kj rj :
  is_Some (_services_cache_data c) → (T ≤ _services_cache_until c)%Z →
  calls !! j = Some kj → (serve environ calls c).1 !! j = Some rj →
  fetch_calls rj ≠ [] → (T ≤ call_now kj)%Z.
Proof.
  revert c j. induction calls as [|k ks IH]; intros c j [data Hdata] HT; [done|].
  rewrite serve_cons. cbn [fst].
  set (r := load_active_services environ (call_now k) (call_fetch k) c).
  destruct j as [|j]; simpl.
  - intros [= <-] [= <-] Hq%queried_expired. unfold cache_lookup in Hq.
    rewrite Hdata in Hq. destruct (Z.ltb_spec (call_now k) (_services_cache_until c));
      [done|lia].
  - apply IH.
    + pose proof (cache_after_fetched environ k c) as Hafter. simpl in Hafter.
      fold r in Hafter. rewrite Hafter.
      destruct (fetched k r) as [[t services]|]; [by eexists|by eexists].
    + pose proof (cache_after_fetched environ k c) as Hafter. simpl in Hafter.
      fold r in Hafter. rewrite Hafter.
      destruct (fetched k r) as [[t services]|] eqn:Hf; [|done]. simpl.
      unfold fetched in Hf.
      destruct (fetch_calls r) as [|url urls] eqn:Hq; [done|].
      destruct (returned r); [|done]. injection Hf as <- <-.
      assert (Hexp : cache_lookup c (call_now k) = None).
      { apply (queried_expired environ _ (call_fetch k)). fold r. by rewrite Hq. }
      unfold cache_lookup in Hexp. rewrite Hdata in Hexp.
      destruct (Z.ltb_spec (call_now k) (_services_cache_until c)); [done|lia].
Qed.

Lemma fetched_now k r t services :
  fetched k r = Some (t, services) → t = call_now k.
Proof.
  unfold fetched. destruct (fetch_calls r); [done|].
  destruct (returned r); [|done]. by intros [= <- _].
Qed.

(** Among calls that do not overlap, a call that fetches after an earlier
    call fetched successfully read the clock at least 60 units after that
    earlier call did. *)
Lemma serve_fetch_spacing environ calls c i j ki kj ri rj :
  i < j →
  calls !! i = Some ki → (serve environ calls c).1 !! i = Some ri →
  calls !! j = Some kj → (serve environ calls c).1 !! j = Some rj →
  is_Some (fetched ki ri) → fetch_calls rj ≠ [] →
  (call_now ki + 60 ≤ call_now kj)%Z.
Proof.
  revert c i j. induction calls as [|k ks IH]; intros c i j Hij; [done|].
  rewrite serve_cons. cbn [fst].
  destruct j as [|j]; [lia|]. destruct i as [|i]; simpl.
  - intros [= <-] [= <-] Hkj Hrj [[t services] Hf] Hq.
    pose proof (cache_after_fetched environ k c) as Hafter. simpl in Hafter.
    rewrite Hf in Hafter.
    pose proof (fetched_now _ _ _ _ Hf) as ->.
    eapply (serve_queries_late environ ks _ (call_now k + 60) j kj rj);
      try done; rewrite Hafter; [by eexists|done].
  - apply IH. lia.
Qed.

(** X14: the error database_not_configured is returned exactly when
    [DATABASE_URL] is unset or holds nothing but whitespace. *)
Theorem database_not_configured_iff environ now fetch c :
  returned (load_active_services environ now fetch c)
  = inr (u "database_not_configured")
  ↔ forallb isspace (getenv environ (u "DATABASE_URL") []) = true.
Proof.
  rewrite <-normalize_database_url_nil. fold (database_url_of environ). split.
  - destruct (decide (database_url_of environ = [])) as [Hurl|Hurl]; [done|].
    destruct (cache_lookup c now) as [data|] eqn:Hlook.
    { by rewrite (load_hit _ _ _ _ data). }
    rewrite load_miss by done. destruct (fetch _); simpl; try done;
      intros [= Hcode]; vm_compute in Hcode; discriminate Hcode.
  - intros Hurl. by rewrite load_unconfigured.
Qed.

End more_cache_props.

(* ===================================================================== *)
(** ** Properties of the other routes *)
(* ===================================================================== *)

Section routes_props.
Implicit Types (environ : gmap pstr pstr) (c : cache) (now : Z)
  (fetch : pstr → fetch_outcome) (path : pstr).

(** The three errors [load_active_services] can return. *)
Lemma load_error_codes environ now fetch c error :
  returned (load_active_services environ now fetch c) = inr error →
  (error = u "database_not_configured" ∧ database_url_of environ = [])
  ∨ (error = u "asyncpg_not_installed"
     ∧ fetch (database_url_of environ) = RaisedModuleNotFoundError)
  ∨ (error = u "services_query_failed"
     ∧ fetch (database_url_of environ) = RaisedException).
Proof.
  destruct (decide (database_url_of environ = [])) as [Hurl|Hurl].
  { rewrite load_unconfigured by done. intros [= <-]. by left. }
  destruct (cache_lookup c now) as [data|] eqn:Hlook.
  { by rewrite (load_hit _ _ _ _ data). }
  rewrite load_miss by done.
  destruct (fetch _) eqn:Hf; simpl; try done; intros [= <-]; auto.
Qed.

(** X15: [GET /api/services] answers with what [load_active_services]
    returned and leaves the cache as that call left it. A listing gives 200
    with the rows in order and a [count] equal to their number; the errors
    database_not_configured and asyncpg_not_installed give 500 and
    services_query_failed gives 502, each with that code in [error]; the
    [ok] field is true exactly on 200. *)
Theorem do_GET_services environ now fetch c :
  let r := load_active_services environ now fetch c in
  ∃ status data,
    do_GET environ now fetch c (u "/api/services") = (get_json status data, cache_after r) ∧
    data !! u "ok" = Some (PBool (status =? 200)%Z) ∧
    match returned r with
    | inl services =>
        status = 200%Z ∧
        data !! u "services" = Some (PList (service_dict <$> services)) ∧
        data !! u "count" = Some (PInt (Z.of_nat (length services)))
    | inr error =>
        data !! u "error" = Some (PStr error) ∧
        ((status = 500%Z ∧ error = u "database_not_configured"
          ∧ database_url_of environ = [])
         ∨ (status = 500%Z ∧ error = u "asyncpg_not_installed")
         ∨ (status = 502%Z ∧ error = u "services_query_failed"))
    end.
Proof.
  intros r. unfold do_GET. rewrite bool_decide_true by done. cbn [negb]. fold r.
  destruct (returned r) as [services|error] eqn:Hret.
  - eexists _, _. split; [done|]. split; [by rewrite lookup_insert_eq|].
    split; [done|]. split.
    + rewrite lookup_insert_ne by str_neq. by rewrite lookup_insert_eq.
    + rewrite !lookup_insert_ne by str_neq. by rewrite lookup_singleton_eq.
  - apply load_error_codes in Hret as [[-> Hurl]|[[-> _]|[-> _]]];
      (eexists _, _; split; [done|]; split; [by rewrite lookup_insert_eq|];
       split; [rewrite lookup_insert_ne by str_neq; by rewrite lookup_singleton_eq|]);
      auto.
Qed.

Lemma do_POST_routed `{PyBuiltins} environ ts network req :
  req_path req = u "/api/request" →
  ∀ status, do_POST environ ts network req ≠ error_page status.
Proof.
  intros Hpath status. unfold do_POST, do_POST_intake.
  rewrite bool_decide_true by done. cbn [negb].
  destruct (_ || _); [done|]. destruct (_ || _); [done|].
  destruct (utf8_decode _) as [text|]; [|done].
  destruct (json_loads text) as [[| | | | | |payload]|[]]; try done.
  destruct (validate_payload payload) as [valid|error]; [|done].
  unfold do_POST_deliver. destruct (fan_out _ _ _ _ _ _ _ _) as [[d e]|e]; [|done].
  by destruct (d =? 0)%Z, (forallb utf8_encodable e).
Qed.

(** X16: [OPTIONS] advertises the routes the other handlers serve. It
    allows POST exactly on the path that [do_POST] does not answer with
    the 404 page, allows GET exactly on the path that [do_GET] does not
    hand to the static file handler, and is 404 on every other path. *)
Theorem do_OPTIONS_matches_routes path :
  (do_OPTIONS path = no_content (u "POST, OPTIONS")
   ↔ ∀ (B : PyBuiltins) environ ts network req,
       req_path req = path → do_POST environ ts network req ≠ error_page 404) ∧
  (do_OPTIONS path = no_content (u "GET, OPTIONS")
   ↔ ∀ environ now fetch c, (do_GET environ now fetch c path).1 ≠ static_file) ∧
  (do_OPTIONS path = options_error 404
   ↔ path ≠ u "/api/request" ∧ path ≠ u "/api/services").
Proof.
  unfold do_OPTIONS. split; [|split].
  - case_bool_decide as Hp.
    + split; [|done]. intros _ B environ ts network req Hreq.
      apply do_POST_routed. congruence.
    + split.
      * case_bool_decide; [str_neq|done].
      * intros Hall. exfalso.
        apply (Hall sample_builtins ∅ [] all_fail (Request path None [] None) eq_refl).
        unfold do_POST, do_POST_intake. simpl. by rewrite bool_decide_false.
  - case_bool_decide as Hp.
    + split; [str_neq|].
      intros Hall. subst path.
      exfalso. apply (Hall ∅ 0%Z (λ _, RaisedException) cache_init).
      unfold do_GET. by rewrite bool_decide_false by str_neq.
    + case_bool_decide as Hq.
      * split; [|done]. intros _ environ now fetch c. unfold do_GET.
        rewrite bool_decide_true by done. cbn [negb].
        by destruct (returned _).
      * split; [done|]. intros Hall. exfalso.
        apply (Hall ∅ 0%Z (λ _, RaisedException) cache_init).
        unfold do_GET. by rewrite bool_decide_false.
  - repeat case_bool_decide; split; try done; by intros [? ?].
Qed.

End routes_props.

(* ===================================================================== *)
(** ** Properties of the configuration file loader *)
(* ===================================================================== *)

(** Boolean comparisons on code points as propositions. *)
Ltac n_bools :=
  repeat match goal with
         | H : _ && _ = true |- _ => apply andb_true_iff in H as [? ?]
         | H : negb _ = true |- _ => apply negb_true_iff in H
         | H : _ && _ = false |- _ => apply andb_false_iff in H as [?|?]
         | H : (_ <=? _)%N = true |- _ => apply N.leb_le in H
         | H : (_ <=? _)%N = false |- _ => apply N.leb_gt in H
         | H : (_ <? _)%N = true |- _ => apply N.ltb_lt in H
         | H : (_ <? _)%N = false |- _ => apply N.ltb_ge in H
         | H : (_ =? _)%N = true |- _ => apply N.eqb_eq in H
         | H : (_ =? _)%N = false |- _ => apply N.eqb_neq in H
         end.

Section dotenv_props.
Implicit Types (environ : gmap pstr pstr) (s line key value : pstr) (c : char).

Lemma split_once_elem sep s key value :
  split_once sep s = Some (key, value) → s = key ++ sep :: value ∧ sep ∉ key.
Proof.
  revert key. induction s as [|c s IH]; intros key; [done|]. simpl.
  destruct (N.eqb_spec c sep) as [->|Hne].
  - intros [= <- <-]. split; [done|]. by intros ?%elem_of_nil.
  - destruct (split_once sep s) as [[k v]|] eqn:Hs; [|done].
    intros [= <- <-]. destruct (IH k eq_refl) as [-> Hk]. split; [done|].
    by intros [?|?]%elem_of_cons.
Qed.

(** One step of the loop, in terms of what the line assigns. *)
Lemma dotenv_line_assignment environ raw_line :
  dotenv_line environ raw_line =
    match dotenv_assignment raw_line with
    | Some (key, value) =>
        if bool_decide (is_Some (environ !! key)) then Ok environ
        else environ_setitem environ key value
    | None => Ok environ
    end.
Proof.
  unfold dotenv_line, dotenv_assignment.
  destruct (str_empty (str_strip raw_line)); [done|].
  destruct (str_startswith (str_strip raw_line) (u "#")); [done|]. simpl.
  destruct (split_once 61%N (str_strip raw_line)) as [[key value]|] eqn:Hs.
  - apply split_once_elem in Hs as [Hs _].
    rewrite bool_decide_true by (rewrite Hs; set_solver). simpl.
    destruct (str_empty (str_strip key)); [done|]. simpl.
    by destruct (bool_decide (is_Some _)).
  - by destruct (bool_decide _).
Qed.

Lemma environ_setitem_Ok environ key value environ' :
  environ_setitem environ key value = Ok environ' →
  environ' = <[key := value]> environ.
Proof.
  unfold environ_setitem. destruct (negb _); [done|].
  destruct (_ || _); [done|]. by intros [= <-].
Qed.

(** The environment after the lines, variable by variable. *)
Lemma dotenv_lines_lookup environ lines environ' key :
  dotenv_lines environ lines = Ok environ' →
  environ' !! key = match environ !! key with
                    | Some value => Some value
                    | None => dotenv_lookup key lines
                    end.
Proof.
  revert environ. induction lines as [|raw_line rest IH]; intros environ.
  { intros [= <-]. by destruct (environ !! key). }
  cbn [dotenv_lines dotenv_lookup]. rewrite dotenv_line_assignment.
  destruct (dotenv_assignment raw_line) as [[k value]|]; [|apply IH].
  case_bool_decide as Hk.
  - simpl. intros Hrest%IH. rewrite Hrest.
    destruct (environ !! key) eqn:Hkey; [done|].
    case_bool_decide; [|done]. subst k. rewrite Hkey in Hk. by destruct Hk.
  - destruct (environ_setitem environ k value) as [environ1|e] eqn:Hset; [|done].
    apply environ_setitem_Ok in Hset as ->. simpl. intros Hrest%IH. rewrite Hrest.
    case_bool_decide as Heq.
    + subst k. rewrite lookup_insert_eq.
      destruct (environ !! key) eqn:Hkey; [|done]. destruct Hk. by eexists.
    + by rewrite lookup_insert_ne.
Qed.

(** X17: when [load_dotenv] returns, every variable that was already set
    keeps its value, and a variable that was not set takes the value of
    the first line of the file that assigns it; lines that assign nothing
    (blank lines, comments, lines without an equals sign or without a key)
    and later assignments of the same key have no effect. *)
Theorem load_dotenv_lookup raw text environ environ' key :
  utf8_decode raw = Some text →
  load_dotenv (FileBytes raw) environ = Ok environ' →
  environ' !! key = match environ !! key with
                    | Some value => Some value
                    | None => dotenv_lookup key (str_splitlines (translate_newlines text))
                    end.
Proof.
  intros Hdec. unfold load_dotenv. rewrite Hdec. apply dotenv_lines_lookup.
Qed.

Lemma dotenv_lines_subseteq environ lines environ' :
  dotenv_lines environ lines = Ok environ' → environ ⊆ environ'.
Proof.
  intros Hrun. apply map_subseteq_spec. intros key value Hkey.
  by rewrite (dotenv_lines_lookup _ _ _ key Hrun), Hkey.
Qed.

Lemma dotenv_lines_fixed environ lines :
  (∀ raw_line key value, raw_line ∈ lines →
     dotenv_assignment raw_line = Some (key, value) → is_Some (environ !! key)) →
  dotenv_lines environ lines = Ok environ.
Proof.
  induction lines as [|raw_line rest IH]; intros Hset; [done|].
  cbn [dotenv_lines]. rewrite dotenv_line_assignment.
  destruct (dotenv_assignment raw_line) as [[key value]|] eqn:Ha.
  - rewrite bool_decide_true by (eapply Hset; [left|done]). simpl.
    apply IH. intros ? ? ? ?. apply Hset. by right.
  - simpl. apply IH. intros ? ? ? ?. apply Hset. by right.
Qed.

Lemma dotenv_lookup_Some lines raw_line key value :
  raw_line ∈ lines → dotenv_assignment raw_line = Some (key, value) →
  is_Some (dotenv_lookup key lines).
Proof.
  induction lines as [|l rest IH]; [by intros ?%elem_of_nil|].
  intros [->|Hin]%elem_of_cons Ha; cbn [dotenv_lookup].
  - rewrite Ha. rewrite bool_decide_true by done. by eexists.
  - destruct (dotenv_assignment l) as [[k v]|]; [|by apply IH].
    case_bool_decide; [by eexists|by apply IH].
Qed.

(** X18: loading the same file a second time changes nothing and cannot
    fail: once [load_dotenv] has returned, every key the file assigns is
    set. *)
Theorem load_dotenv_idempotent file environ environ' :
  load_dotenv file environ = Ok environ' →
  environ ⊆ environ' ∧ load_dotenv file environ' = Ok environ'.
Proof.
  unfold load_dotenv. destruct file as [| |raw]; [by intros [= <-]|done|].
  destruct (utf8_decode raw) as [text|]; [|done]. intros Hrun.
  split; [by apply dotenv_lines_subseteq in Hrun|].
  apply dotenv_lines_fixed. intros raw_line key value Hin Ha.
  rewrite (dotenv_lines_lookup _ _ _ key Hrun).
  destruct (environ !! key); [by eexists|]. by eapply dotenv_lookup_Some.
Qed.

(** Strict UTF-8 decoding never yields a surrogate. *)
Lemma utf8_decode_N_no_surrogate bs text :
  utf8_decode_N bs = Some text → Forall (λ c, is_surrogate c = false) text.
Proof.
  revert text. induction bs as [bs IH] using (induction_ltof1 _ length).
  unfold ltof in IH. intros text. destruct bs as [|b0 r0]; [by intros [= <-]|].
  cbn [utf8_decode_N].
  assert (Hstep : ∀ c rest, length rest < length (b0 :: r0) →
            (c < 55296 ∨ 57343 < c)%N →
            cons c <$> utf8_decode_N rest = Some text →
            Forall (λ c, is_surrogate c = false) text).
  { intros c rest Hlen Hc Hrest.
    destruct (utf8_decode_N rest) as [t|] eqn:Ht; [|done].
    injection Hrest as <-. constructor; [|by apply (IH rest)].
    unfold is_surrogate.
    destruct (N.leb_spec 55296 c), (N.leb_spec c 57343); try done. lia. }
  unfold is_cont.
  destruct (b0 <? 128)%N eqn:E1.
  { apply Hstep; [simpl; lia|]. n_bools. lia. }
  destruct ((194 <=? b0) && (b0 <=? 223))%N eqn:E2.
  { destruct r0 as [|b1 r1]; [done|].
    destruct ((128 <=? b1) && (b1 <=? 191))%N eqn:E; [|done].
    apply Hstep; [simpl; lia|]. n_bools. lia. }
  destruct ((224 <=? b0) && (b0 <=? 239))%N eqn:E3.
  { destruct r0 as [|b1 [|b2 r2]]; try done.
    match goal with |- context [if ?cond then _ else _] =>
      destruct cond eqn:E end; [|done].
    apply Hstep; [simpl; lia|]. clear E2. n_bools; lia. }
  destruct ((240 <=? b0) && (b0 <=? 244))%N eqn:E4; [|done].
  destruct r0 as [|b1 [|b2 [|b3 r3]]]; try done.
  match goal with |- context [if ?cond then _ else _] =>
    destruct cond eqn:E end; [|done].
  apply Hstep; [simpl; lia|]. clear E2 E3. n_bools; lia.
Qed.

Lemma elem_of_translate_newlines c s :
  c ∈ translate_newlines s → c ∈ s ∨ c = LF.
Proof.
  induction s as [|c0 s IH]; [by intros ?%elem_of_nil|]. simpl.
  destruct (c0 =? CR)%N.
  - destruct s as [|c1 s'].
    + intros ->%list_elem_of_singleton. by right.
    + destruct (c1 =? LF)%N.
      * intros [?|?]%IH; [left; by right|by right].
      * intros [->|[?|?]%IH]%elem_of_cons; [by right|left; by right|by right].
  - intros [->|[?|?]%IH]%elem_of_cons; [left; left|left; by right|by right].
Qed.

Lemma elem_of_splitlines_go skip_lf s l c :
  l ∈ splitlines_go skip_lf s → c ∈ l → c ∈ s.
Proof.
  revert skip_lf l. induction s as [|c0 s IH]; intros skip_lf l;
    [by intros ?%elem_of_nil|].
  cbn [splitlines_go]. destruct (skip_lf && (c0 =? LF)%N).
  { intros Hl Hc. right. by eapply IH. }
  destruct (is_linebreak c0).
  { intros [->|Hl]%elem_of_cons Hc; [by apply elem_of_nil in Hc|].
    right. by eapply IH. }
  destruct (splitlines_go false s) as [|l0 ls] eqn:Hs.
  - intros ->%list_elem_of_singleton ->%list_elem_of_singleton. left.
  - intros [->|Hl]%elem_of_cons Hc.
    + apply elem_of_cons in Hc as [->|Hc]; [left|right].
      apply (IH false l0); [rewrite Hs; left|done].
    + right. apply (IH false l); [rewrite Hs; by right|done].
Qed.

Lemma elem_of_str_strip_char q s c : c ∈ str_strip_char q s → c ∈ s.
Proof.
  unfold str_strip_char. intros Hc.
  assert (Hr : ∀ t, c ∈ str_rstrip_char q t → c ∈ t).
  { induction t as [|c0 t IHt]; [done|]. simpl.
    destruct (str_rstrip_char q t).
    - destruct (c0 =? q)%N; [by intros ?%elem_of_nil|].
      intros ->%list_elem_of_singleton. left.
    - intros [->|?]%elem_of_cons; [left|right; by apply IHt]. }
  apply Hr in Hc. clear Hr. induction s as [|c0 s IHs]; [done|].
  simpl in Hc. destruct (c0 =? q)%N; [right; by apply IHs|done].
Qed.

(** The characters of an assigned key and value come from the line. *)
Lemma dotenv_assignment_elem raw_line key value c :
  dotenv_assignment raw_line = Some (key, value) →
  c ∈ key ∨ c ∈ value → c ∈ raw_line.
Proof.
  unfold dotenv_assignment.
  destruct (_ || _); [done|].
  destruct (split_once 61%N (str_strip raw_line)) as [[k v]|] eqn:Hs; [|done].
  destruct (str_empty (str_strip k)); [done|]. intros [= <- <-].
  apply split_once_elem in Hs as [Hs _]. intros Hc.
  apply elem_of_str_strip. rewrite Hs.
  destruct Hc as [Hc%elem_of_str_strip|Hc].
  - apply elem_of_app. by left.
  - apply elem_of_str_strip_char, elem_of_str_strip_char, elem_of_str_strip in Hc.
    apply elem_of_app. right. by right.
Qed.

(** A run of the loop fails on the assignment of some line. *)
Lemma dotenv_lines_Raise environ lines e :
  dotenv_lines environ lines = Raise e →
  ∃ raw_line key value environ1,
    raw_line ∈ lines ∧ dotenv_assignment raw_line = Some (key, value)
    ∧ environ_setitem environ1 key value = Raise e.
Proof.
  revert environ. induction lines as [|raw_line rest IH]; intros environ; [done|].
  cbn [dotenv_lines]. rewrite dotenv_line_assignment.
  assert (Hrest : dotenv_lines environ rest = Raise e →
            ∃ raw_line0 key value environ1,
              raw_line0 ∈ raw_line :: rest
              ∧ dotenv_assignment raw_line0 = Some (key, value)
              ∧ environ_setitem environ1 key value = Raise e).
  { intros (l & k & v & e1 & Hin & Ha & Hset)%IH. exists l, k, v, e1.
    split; [by right|done]. }
  destruct (dotenv_assignment raw_line) as [[key value]|] eqn:Ha; [|done].
  case_bool_decide; [done|].
  destruct (environ_setitem environ key value) as [environ1|e'] eqn:Hset.
  - simpl. intros (l & k & v & e1 & Hin & Hal & Hsetl)%IH.
    exists l, k, v, e1. split; [by right|done].
  - simpl. intros [= ->]. exists raw_line, key, value, environ.
    split; [left|done].
Qed.

(** X19: [load_dotenv] can fail in three ways only: with [OSError] when
    the path is there and cannot be read, with [UnicodeDecodeError] when
    the bytes read are not valid UTF-8, and with [ValueError] when the text
    read holds a NUL character. A path that does not exist never fails. *)
Theorem load_dotenv_raises file environ e :
  load_dotenv file environ = Raise e →
  (e = OSError ∧ file = RaisedOSError)
  ∨ ∃ raw, file = FileBytes raw ∧
      ((e = UnicodeDecodeError ∧ utf8_decode raw = None)
       ∨ (e = ValueError ∧ ∃ text, utf8_decode raw = Some text ∧ 0%N ∈ text)).
Proof.
  unfold load_dotenv. destruct file as [| |raw]; [done|intros [= <-]; by left|].
  destruct (utf8_decode raw) as [text|] eqn:Hdec.
  2: { intros [= <-]. right. exists raw. split; [done|]. by left. }
  intros (raw_line & key & value & environ1 & Hin & Ha & Hset)%dotenv_lines_Raise.
  right. exists raw. split; [done|]. right.
  assert (Hsrc : ∀ c, c ∈ key ∨ c ∈ value → c ∈ text ∨ c = LF).
  { intros c Hc. apply elem_of_translate_newlines.
    eapply elem_of_splitlines_go; [exact Hin|].
    by eapply dotenv_assignment_elem. }
  assert (Hfs : ∀ s : pstr, (∀ c, c ∈ s → c ∈ text ∨ c = LF) → fs_encodable s = true).
  { intros s Hs. apply forallb_forall. intros c Hc%list_elem_of_In.
    apply orb_true_iff. left. apply negb_true_iff.
    destruct (Hs c Hc) as [Htext| ->]; [|done].
    apply utf8_decode_N_no_surrogate in Hdec. rewrite Forall_forall in Hdec.
    by apply Hdec. }
  unfold environ_setitem in Hset.
  rewrite (Hfs key), (Hfs value) in Hset by (intros ? ?; apply Hsrc; auto).
  simpl in Hset.
  destruct (bool_decide (0%N ∈ key)) eqn:Hk.
  - injection Hset as <-. split; [done|]. exists text. split; [done|].
    apply bool_decide_eq_true in Hk. by destruct (Hsrc 0%N (or_introl Hk)).
  - destruct (bool_decide (0%N ∈ value)) eqn:Hv; [|done].
    injection Hset as <-. split; [done|]. exists text. split; [done|].
    apply bool_decide_eq_true in Hv. by destruct (Hsrc 0%N (or_intror Hv)).
Qed.

End dotenv_props.

(* ===================================================================== *)
(** ** The further properties on the sample deployment *)
(* ===================================================================== *)

(** On the sample deployment with recipients 101, 102, 103. A submission
    whose name is the lone surrogate U+D800 is not answered although every
    recipient would accept the message; and the sample submission is not
    answered when Telegram refuses the three recipients with a description
    that holds U+D800: the three entries are there and the envelope cannot
    be encoded. *)
Lemma fan_out_failure_unreported_witness :
  @do_POST_intake surrogate_builtins sample_environ surrogate_request
  = inr surrogate_valid ∧
  @do_POST surrogate_builtins sample_environ sample_ts all_accept surrogate_request
  = uncaught UnicodeEncodeError ∧
  @do_POST_intake sample_builtins sample_environ sample_request = inr sample_valid ∧
  failure_entries
    (@delivery_outcomes sample_builtins surrogate_replies 0
       (parse_admin_ids sample_environ))
  = [u "101:" ++ [55296%N]; u "102:" ++ [55296%N]; u "103:" ++ [55296%N]] ∧
  @do_POST sample_builtins sample_environ sample_ts surrogate_replies sample_request
  = uncaught UnicodeEncodeError.
Proof.
  assert (Hsurrogate : @do_POST_intake surrogate_builtins sample_environ
                         surrogate_request = inr surrogate_valid) by by vm_compute.
  assert (Hintake : @do_POST_intake sample_builtins sample_environ sample_request
                    = inr sample_valid) by by vm_compute.
  assert (Hthread : from_option (λ t, is_Some (sample_int t)) True
                      (thread_id_of sample_environ)) by by vm_compute.
  assert (Hentries : failure_entries
            (@delivery_outcomes sample_builtins surrogate_replies 0
               (parse_admin_ids sample_environ))
          = [u "101:" ++ [55296%N]; u "102:" ++ [55296%N]; u "103:" ++ [55296%N]])
    by by vm_compute.
  split; [exact Hsurrogate|]. split.
  - destruct (@fan_out_failure_unreported surrogate_builtins
                sample_environ sample_ts all_accept surrogate_request
                surrogate_valid Hsurrogate Hthread) as [Hraise _].
    apply Hraise. by vm_compute.
  - split; [exact Hintake|]. split; [exact Hentries|].
    destruct (@fan_out_failure_unreported sample_builtins
                sample_environ sample_ts surrogate_replies sample_request
                sample_valid Hintake Hthread) as [_ Hraise].
    destruct Hraise as [_ ->]; [by vm_compute| | | |done].
    + apply Forall_forall. intros admin_id Hin. vm_compute in Hin.
      repeat (apply elem_of_cons in Hin as [->|Hin]; [by vm_compute|]).
      by apply elem_of_nil in Hin.
    + apply Forall_forall. intros o Hin. vm_compute in Hin.
      repeat (apply elem_of_cons in Hin as [->|Hin]; [done|]).
      by apply elem_of_nil in Hin.
    + rewrite Hentries. apply Exists_cons. left. by vm_compute.
Defined.


Lemma do_POST_envelope_witness :
  ∃ data,
    @do_POST sample_builtins sample_environ sample_ts all_fail sample_request
    = respond_json 502 data ∧
    data !! u "ok" = Some (PBool false).
Proof.
  eexists. split; [by vm_compute|].
  eapply (@do_POST_envelope sample_builtins sample_environ sample_ts all_fail
            sample_request 502). by vm_compute.
Defined.

Lemma load_dotenv_lookup_witness :
  ∃ environ',
    load_dotenv (FileBytes sample_dotenv) {[ u "BOT_TOKEN" := u "from-env" ]} = Ok environ' ∧
    environ' !! u "BOT_TOKEN" = Some (u "from-env") ∧
    environ' !! u "ADMIN_IDS" = Some (u "101, 102").
Proof.
  destruct (utf8_decode sample_dotenv) as [text|] eqn:Hdec;
    [|vm_compute in Hdec; discriminate Hdec].
  destruct (load_dotenv (FileBytes sample_dotenv) {[ u "BOT_TOKEN" := u "from-env" ]})
    as [environ'|e] eqn:Hload; [|vm_compute in Hload; discriminate Hload].
  exists environ'. split; [done|].
  rewrite !(load_dotenv_lookup _ _ _ _ _ Hdec Hload).
  injection Hdec as <-. split; by vm_compute.
Defined.

Lemma load_dotenv_idempotent_witness :
  ∃ environ',
    load_dotenv (FileBytes sample_dotenv) ∅ = Ok environ' ∧
    load_dotenv (FileBytes sample_dotenv) environ' = Ok environ'.
Proof.
  destruct (load_dotenv (FileBytes sample_dotenv) ∅) as [environ'|e] eqn:Hload;
    [|vm_compute in Hload; discriminate Hload].
  exists environ'. split; [done|].
  by destruct (load_dotenv_idempotent _ _ _ Hload) as [_ ?].
Defined.

Lemma load_dotenv_raises_witness :
  load_dotenv (FileBytes [Byte.x41; Byte.x3d; Byte.x00]) ∅ = Raise ValueError ∧
  ∃ text, utf8_decode [Byte.x41; Byte.x3d; Byte.x00] = Some text ∧ 0%N ∈ text.
Proof.
  assert (Hload : load_dotenv (FileBytes [Byte.x41; Byte.x3d; Byte.x00]) ∅
                  = Raise ValueError) by by vm_compute.
  split; [exact Hload|].
  destruct (load_dotenv_raises _ _ _ Hload)
    as [[[=] _]|(raw & [= <-] & [[[=] _]|[_ Htext]])].
  exact Htext.
Defined.

(* ===================================================================== *)
(** ** Further properties: connection strings, body guards, message *)
(* ===================================================================== *)

Section more_props.
Context `{PyBuiltins}.
Implicit Types (environ : gmap pstr pstr) (req : request) (ts r : pstr)
  (network : nat → urlopen_outcome).

Lemma str_startswith_app p r : str_startswith (p ++ r) p = true.
Proof. induction p as [|a p IH]; [done|]. simpl. by rewrite N.eqb_refl. Qed.

Lemma str_strip_app_free p r :
  p ≠ [] → Forall (λ c, isspace c = false) p →
  str_strip (p ++ r) = p ++ str_rstrip r.
Proof.
  intros Hne Hp. unfold str_strip. rewrite str_lstrip_no_leading.
  - by apply str_rstrip_app_free.
  - destruct Hp as [|c p Hc Hp]; [done|]. simpl. by rewrite Hc.
Qed.

(** X20: the two old spellings of a connection string normalize to the
    same canonical one: for every rest [r], [postgres://r] and
    [postgresql+asyncpg://r] both give [postgresql://] followed by [r]
    without its trailing whitespace. *)
Theorem normalize_database_url_schemes r :
  normalize_database_url (u "postgres://" ++ r) = u "postgresql://" ++ str_rstrip r ∧
  normalize_database_url (u "postgresql+asyncpg://" ++ r)
  = u "postgresql://" ++ str_rstrip r.
Proof.
  destruct scheme_free as (H1 & H3 & _).
  unfold normalize_database_url, str_removeprefix. split.
  - rewrite (str_strip_app_free (u "postgres://")) by done.
    rewrite str_startswith_app. by rewrite drop_app_length.
  - rewrite (str_strip_app_free (u "postgresql+asyncpg://")) by done.
    assert (str_startswith (u "postgresql+asyncpg://" ++ str_rstrip r)
              (u "postgres://") = false) as -> by by vm_compute.
    rewrite str_startswith_app. by rewrite drop_app_length.
Qed.

Lemma size_guard_false req :
  (0 < content_length req ≤ 20000)%Z →
  ((content_length req <=? 0) || (MAX_BODY_BYTES <? content_length req))%Z = false.
Proof.
  intros Hlen. unfold MAX_BODY_BYTES. apply orb_false_iff.
  rewrite Z.leb_gt, Z.ltb_ge. lia.
Qed.

(** The responses of a configured server to a request whose declared
    length passes the size guard never carry invalid_body_size. *)
Lemma sized_body_not_rejected environ ts network req :
  req_path req = u "/api/request" →
  bot_token_of environ ≠ [] → parse_admin_ids environ ≠ [] →
  (0 < content_length req ≤ 20000)%Z →
  ∀ status data,
    do_POST environ ts network req = respond_json status data →
    data !! u "error" ≠ Some (PStr (u "invalid_body_size")).
Proof.
  intros Hpath Htoken Hids Hlen status data. unfold do_POST.
  rewrite intake_configured, size_guard_false by done.
  destruct (utf8_decode _) as [text|]; [|done].
  destruct (json_loads text) as [[| | | | | |payload]|[]]; try done;
    try (intros [= <- <-]; rewrite lookup_insert_ne by str_neq;
         rewrite lookup_singleton_eq; str_neq).
  destruct (validate_payload payload) as [valid|error] eqn:Hv.
  - unfold do_POST_deliver. destruct (fan_out _ _ _ _ _ _ _ _) as [[d e]|e]; [|done].
    destruct (d =? 0)%Z; [destruct (forallb utf8_encodable e); [|done]|];
      intros [= <- <-].
    + rewrite lookup_insert_ne by str_neq. rewrite lookup_insert_eq. str_neq.
    + rewrite lookup_insert_ne by str_neq.
      rewrite lookup_singleton_ne by str_neq. done.
  - apply validate_payload_inr_codes in Hv. intros [= <- <-].
    rewrite lookup_insert_ne by str_neq. rewrite lookup_singleton_eq.
    repeat (apply elem_of_cons in Hv as [->|Hv]; [str_neq|]).
    by apply elem_of_nil in Hv.
Qed.

(** X21: on a configured server, [POST /api/request] is answered with
    invalid_body_size exactly when the declared length is not a number
    from 1 to 20000 (a missing or unreadable header counts as 0), and then
    the status is 400 and the body is not looked at. *)
Theorem invalid_body_size_iff environ ts network req :
  req_path req = u "/api/request" →
  bot_token_of environ ≠ [] → parse_admin_ids environ ≠ [] →
  ((∃ status data,
      do_POST environ ts network req = respond_json status data ∧
      data !! u "error" = Some (PStr (u "invalid_body_size")))
   ↔ (content_length req ≤ 0 ∨ 20000 < content_length req)%Z) ∧
  ((content_length req ≤ 0 ∨ 20000 < content_length req)%Z →
   do_POST environ ts network req =
     respond_json 400
       {[ u "ok" := PBool false; u "error" := PStr (u "invalid_body_size") ]}) ∧
  (req_content_length req ≫= py_int = None → content_length req = 0%Z).
Proof.
  intros Hpath Htoken Hids. split; [|split].
  - split.
    + intros (status & data & Hpost & Herr).
      destruct (decide (0 < content_length req ≤ 20000)%Z) as [Hlen|Hlen]; [|lia].
      by destruct (sized_body_not_rejected environ ts network req
                     Hpath Htoken Hids Hlen status data Hpost).
    + intros Hlen. eexists _, _. split; [by apply body_size_guard|].
      rewrite lookup_insert_ne by str_neq. by rewrite lookup_singleton_eq.
  - by apply body_size_guard.
  - unfold content_length. destruct (req_content_length req) as [v|]; [|done].
    simpl. by destruct (py_int v).
Qed.

End more_props.

Section message_props.
Implicit Types (s p l : pstr) (c sep : char).

Lemma str_split_sep_not_nil sep s : str_split_sep sep s ≠ [].
Proof.
  destruct s as [|c s]; simpl; [done|].
  destruct (c =? sep)%N; [done|]. by destruct (str_split_sep sep s).
Qed.

Lemma str_split_sep_app_any sep a b :
  str_split_sep sep (a ++ sep :: b) = str_split_sep sep a ++ str_split_sep sep b.
Proof.
  induction a as [|c a IH]; simpl.
  - by rewrite N.eqb_refl.
  - rewrite IH. destruct (c =? sep)%N; [done|].
    pose proof (str_split_sep_not_nil sep a). by destruct (str_split_sep sep a).
Qed.

Lemma str_split_sep_prefix sep p s l ls :
  sep ∉ p → str_split_sep sep s = l :: ls →
  str_split_sep sep (p ++ s) = (p ++ l) :: ls.
Proof.
  induction p as [|c p IH]; intros Hp Hs; [done|]. simpl.
  destruct (N.eqb_spec c sep) as [->|_]; [destruct Hp; left|].
  rewrite (IH (λ Hin, Hp (list_elem_of_further _ _ _ Hin)) Hs). done.
Qed.

Lemma LF_not_in_clean_text value max_len : LF ∉ clean_text value max_len.
Proof. intros Hin. by pose proof (clean_text_spaces _ _ _ Hin isspace_LF). Qed.

Lemma LF_not_in_const p : forallb (λ c, negb (c =? LF)%N) p = true → LF ∉ p.
Proof.
  intros Hp Hin. rewrite forallb_forall in Hp.
  apply list_elem_of_In, Hp in Hin. by rewrite N.eqb_refl in Hin.
Qed.

Lemma LF_not_in_label p s :
  forallb (λ c, negb (c =? LF)%N) p = true → LF ∉ s → LF ∉ p ++ s.
Proof.
  intros Hp Hs [Hin|Hin]%elem_of_app; [|done]. by apply (LF_not_in_const p).
Qed.

(** X22: the lines of the message sent to the administrators. For an
    accepted record, a client address and a time stamp without line feed,
    the message starts with the title and the lines of the name, the phone,
    the car and the service, and it ends with the lines of the address and
    of the time; the text of the visitor adds lines only through the
    comment, between these, and the comment line is never left blank. *)
Theorem build_admin_message_lines payload data client_ip ts :
  validate_payload payload = inl data →
  LF ∉ client_ip → LF ∉ ts →
  ∃ first others,
    str_split_sep LF
      (if str_empty (vr_comment data) then [8212%N] else vr_comment data)
    = first :: others ∧
    first ≠ [] ∧
    str_split_sep LF (build_admin_message data client_ip ts)
    = [ [127381; 32; 1053; 1086; 1074; 1072; 1103; 32; 1079; 1072; 1103; 1074;
         1082; 1072; 32; 1089; 32; 1089; 1072; 1081; 1090; 1072; 32; 68; 82; 73;
         86; 79; 78]%N;
        [1048; 1084; 1103; 58; 32]%N ++ vr_name data;
        [1058; 1077; 1083; 1077; 1092; 1086; 1085; 58; 32]%N ++ vr_phone data;
        [1040; 1074; 1090; 1086; 1084; 1086; 1073; 1080; 1083; 1100; 58; 32]%N
          ++ vr_car data;
        [1059; 1089; 1083; 1091; 1075; 1072; 58; 32]%N ++ vr_service data;
        [1050; 1086; 1084; 1084; 1077; 1085; 1090; 1072; 1088; 1080; 1081; 58;
         32]%N ++ first ]
      ++ others
      ++ [ [73; 80; 58; 32]%N ++ client_ip;
           [1042; 1088; 1077; 1084; 1103; 58; 32]%N ++ ts ].
Proof.
  intros Hdata Hip Hts. apply validate_payload_inl in Hdata as ->.
  cbn [vr_name vr_phone vr_car vr_service vr_comment].
  pose proof (LF_not_in_clean_text (payload !! u "name") 80) as Hname.
  pose proof (LF_not_in_clean_text (payload !! u "phone") 40) as Hphone.
  pose proof (LF_not_in_clean_text (payload !! u "car") 120) as Hcar.
  pose proof (LF_not_in_clean_text (payload !! u "service") 120) as Hservice.
  destruct (clean_comment_layout (payload !! u "comment") 600) as [Hlead _].
  unfold build_admin_message. cbv zeta.
  cbn [vr_name vr_phone vr_car vr_service vr_comment].
  set (name := clean_text (payload !! u "name") 80) in *.
  set (phone := clean_text (payload !! u "phone") 40) in *.
  set (car := clean_text (payload !! u "car") 120) in *.
  set (service := clean_text (payload !! u "service") 120) in *.
  set (comment := clean_comment (payload !! u "comment") 600) in *.
  set (shown := if str_empty comment then [8212%N] else comment).
  destruct (str_split_sep_nonempty shown) as (first & others & Hshown).
  exists first, others. split; [done|]. split.
  - subst shown. destruct comment as [|c0 comment0]; cbn [str_empty] in Hshown.
    + by injection Hshown as <- <-.
    + cbn [no_leading] in Hlead. apply negb_true_iff in Hlead.
      unfold is_LF in Hlead. simpl in Hshown. rewrite Hlead in Hshown.
      destruct (str_split_sep LF comment0); by injection Hshown as <- <-.
  - match goal with
    | |- str_split_sep LF ?m = _ =>
        change m with
          ([127381; 32; 1053; 1086; 1074; 1072; 1103; 32; 1079; 1072; 1103; 1074;
            1082; 1072; 32; 1089; 32; 1089; 1072; 1081; 1090; 1072; 32; 68; 82;
            73; 86; 79; 78]%N
           ++ LF :: [1048; 1084; 1103; 58; 32]%N ++ name
           ++ LF :: [1058; 1077; 1083; 1077; 1092; 1086; 1085; 58; 32]%N ++ phone
           ++ LF :: [1040; 1074; 1090; 1086; 1084; 1086; 1073; 1080; 1083; 1100;
                     58; 32]%N ++ car
           ++ LF :: [1059; 1089; 1083; 1091; 1075; 1072; 58; 32]%N ++ service
           ++ LF :: [1050; 1086; 1084; 1084; 1077; 1085; 1090; 1072; 1088; 1080;
                     1081; 58; 32]%N ++ shown
           ++ LF :: [73; 80; 58; 32]%N ++ client_ip
           ++ LF :: [1042; 1088; 1077; 1084; 1103; 58; 32]%N ++ ts)
    end.
    rewrite str_split_sep_app by by apply LF_not_in_const.
    rewrite (app_assoc _ name), str_split_sep_app by by apply LF_not_in_label.
    rewrite (app_assoc _ phone), str_split_sep_app by by apply LF_not_in_label.
    rewrite (app_assoc _ car), str_split_sep_app by by apply LF_not_in_label.
    rewrite (app_assoc _ service), str_split_sep_app by by apply LF_not_in_label.
    rewrite (app_assoc _ shown), str_split_sep_app_any.
    rewrite (str_split_sep_prefix LF _ shown first others)
      by (done || by apply LF_not_in_const).
    rewrite (app_assoc _ client_ip), str_split_sep_app by by apply LF_not_in_label.
    rewrite str_split_sep_free by by apply LF_not_in_label.
    reflexivity.
Qed.

End message_props.

Lemma invalid_body_size_iff_witness :
  let req := Request (u "/api/request") None [] None in
  (content_length (H := sample_builtins) req ≤ 0)%Z ∧
  @do_POST sample_builtins sample_environ sample_ts all_fail req
  = respond_json 400
      {[ u "ok" := PBool false; u "error" := PStr (u "invalid_body_size") ]}.
Proof.
  intros req.
  assert (Hlen : (content_length (H := sample_builtins) req ≤ 0)%Z) by by vm_compute.
  split; [exact Hlen|].
  destruct (@invalid_body_size_iff sample_builtins sample_environ sample_ts
              all_fail req) as (_ & Hguard & _); [by vm_compute..|].
  apply Hguard. by left.
Defined.

Lemma build_admin_message_lines_witness :
  validate_payload sample_payload = inl sample_valid ∧
  length (str_split_sep LF
            (build_admin_message sample_valid (u "203.0.113.7") sample_ts)) = 8.
Proof.
  assert (Hok : validate_payload sample_payload = inl sample_valid) by by vm_compute.
  split; [exact Hok|].
  destruct (build_admin_message_lines sample_payload sample_valid
              (u "203.0.113.7") sample_ts Hok)
    as (first & others & Hshown & _ & ->);
    [by apply LF_not_in_const; vm_compute..|].
  vm_compute in Hshown. injection Hshown as <- <-. reflexivity.
Defined.

(* ===================================================================== *)
(** ** The services cache under overlapping calls *)
(* ===================================================================== *)

Section threads_props.
Implicit Types (environ : gmap pstr pstr) (c : cache) (k : call) (t : thread)
  (e : event) (p : pool) (schedule : list nat) (trace : list (nat * event)).

Lemma run_cons environ i rest p :
  run environ (i :: rest) p =
    match pool_threads p !! i with
    | None => ((i, Idle) :: (run environ rest p).1, (run environ rest p).2)
    | Some t =>
        let p' := Pool (step environ (pool_cache p) t).1.1
                       (<[i := (step environ (pool_cache p) t).1.2]> (pool_threads p)) in
        ((i, (step environ (pool_cache p) t).2) :: (run environ rest p').1,
         (run environ rest p').2)
    end.
Proof.
  cbn [run]. destruct (pool_threads p !! i) as [t|].
  - destruct (step environ (pool_cache p) t) as [[c t'] e]. cbn [fst snd].
    by destruct (run environ rest _).
  - by destruct (run environ rest p).
Qed.

Lemma run_app environ s1 s2 p :
  run environ (s1 ++ s2) p =
    ((run environ s1 p).1 ++ (run environ s2 (run environ s1 p).2).1,
     (run environ s2 (run environ s1 p).2).2).
Proof.
  revert p. induction s1 as [|i s1 IH]; intros p.
  - simpl. by destruct (run environ s2 p).
  - rewrite <-app_comm_cons, !run_cons.
    destruct (pool_threads p !! i) as [t|]; cbn [fst snd]; by rewrite IH.
Qed.

Lemma run_trace_length environ schedule p :
  length (run environ schedule p).1 = length schedule.
Proof.
  revert p. induction schedule as [|i rest IH]; intros p; [done|].
  rewrite run_cons. destruct (pool_threads p !! i); cbn [fst length]; by rewrite IH.
Qed.

Lemma run_threads_length environ schedule p :
  length (pool_threads (run environ schedule p).2) = length (pool_threads p).
Proof.
  revert p. induction schedule as [|i rest IH]; intros p; [done|].
  rewrite run_cons. destruct (pool_threads p !! i); cbn [snd]; rewrite IH; [|done].
  cbn [pool_threads]. by rewrite length_insert.
Qed.

(** The trace follows the schedule. *)
Lemma run_trace_fst environ schedule p : (run environ schedule p).1.*1 = schedule.
Proof.
  revert p. induction schedule as [|i rest IH]; intros p; [done|].
  rewrite run_cons. destruct (pool_threads p !! i); cbn [fst fmap list_fmap];
    by rewrite IH.
Qed.

(** The trace of a prefix of the schedule is a prefix of the trace. *)
Lemma run_take environ schedule p n :
  (run environ (take n schedule) p).1 = take n (run environ schedule p).1.
Proof.
  destruct (decide (n ≤ length schedule)) as [Hn|Hn].
  - rewrite <-(take_drop n schedule) at 2. rewrite run_app. cbn [fst].
    rewrite take_app_length'; [done|]. rewrite run_trace_length, length_take. lia.
  - rewrite !take_ge; [done| |lia]. rewrite run_trace_length. lia.
Qed.

Lemma run_drop environ schedule p n :
  (run environ schedule p).2
  = (run environ (drop n schedule) (run environ (take n schedule) p).2).2.
Proof. rewrite <-(take_drop n schedule) at 1. by rewrite run_app. Qed.

(** The step taken at position [n] of the schedule. *)
Lemma run_step_at environ schedule p n j e :
  (run environ schedule p).1 !! n = Some (j, e) →
  let pn := (run environ (take n schedule) p).2 in
  schedule !! n = Some j ∧
  match pool_threads pn !! j with
  | None => e = Idle ∧ (run environ (take (S n) schedule) p).2 = pn
  | Some t =>
      e = (step environ (pool_cache pn) t).2 ∧
      (run environ (take (S n) schedule) p).2
      = Pool (step environ (pool_cache pn) t).1.1
             (<[j := (step environ (pool_cache pn) t).1.2]> (pool_threads pn))
  end.
Proof.
  intros Hn pn.
  assert (Hj : schedule !! n = Some j).
  { rewrite <-(run_trace_fst environ schedule p), list_lookup_fmap, Hn. done. }
  split; [done|].
  assert (Hlen : length (run environ (take n schedule) p).1 = n).
  { rewrite run_trace_length, length_take. apply lookup_lt_Some in Hj. lia. }
  revert Hn. rewrite <-(take_drop_middle schedule n j Hj) at 1.
  rewrite run_app. cbn [fst]. rewrite run_cons. fold pn.
  rewrite (take_S_r schedule n j Hj), run_app. cbn [snd]. fold pn.
  rewrite run_cons.
  destruct (pool_threads pn !! j) as [t|]; cbn [fst snd run];
    rewrite list_lookup_middle by done; by intros [= <-].
Qed.

Lemma step_cache environ c t :
  (step environ c t).1.1 =
    match (step environ c t).2 with
    | Publish k services => MkCache (call_now k + 60) (Some services)
    | _ => c
    end.
Proof.
  unfold step. destruct t as [k|k|r cs]; [| |done].
  - destruct (str_empty _); [done|]. by destruct (cache_lookup c (call_now k)).
  - by destruct (call_fetch k _).
Qed.

(** The globals hold what the last successful fetch of the trace stored. *)
Lemma run_cache environ schedule p :
  pool_cache (run environ schedule p).2 =
    match last_publish (run environ schedule p).1 with
    | Some (k, services) => MkCache (call_now k + 60) (Some services)
    | None => pool_cache p
    end.
Proof.
  revert p. induction schedule as [|i rest IH]; intros p; [done|].
  rewrite run_cons. destruct (pool_threads p !! i) as [t|]; cbn [fst snd last_publish].
  - rewrite IH. destruct (last_publish _) as [[k services]|]; [done|].
    cbn [pool_cache]. rewrite step_cache.
    by destruct (step environ (pool_cache p) t).2.
  - rewrite IH. by destruct (last_publish _) as [[k services]|].
Qed.

(** A call that is not scheduled stays where it is. *)
Lemma run_other environ schedule p j :
  j ∉ schedule →
  pool_threads (run environ schedule p).2 !! j = pool_threads p !! j.
Proof.
  revert p. induction schedule as [|i rest IH]; intros p Hj; [done|].
  apply not_elem_of_cons in Hj as [Hne Hj].
  rewrite run_cons. destruct (pool_threads p !! i) as [t|]; cbn [snd];
    rewrite IH by done; [|done].
  cbn [pool_threads]. by rewrite list_lookup_insert_ne.
Qed.

(** A call that returned stays returned. *)
Lemma run_returned environ schedule p j r cs :
  pool_threads p !! j = Some (Returned r cs) →
  pool_threads (run environ schedule p).2 !! j = Some (Returned r cs).
Proof.
  revert p. induction schedule as [|i rest IH]; intros p Hj; [done|].
  rewrite run_cons. destruct (pool_threads p !! i) as [t|] eqn:Hi; cbn [snd];
    apply IH; [|done].
  cbn [pool_threads]. destruct (decide (i = j)) as [->|Hne].
  - rewrite Hj in Hi. injection Hi as <-. cbn [step fst snd].
    by rewrite list_insert_id.
  - by rewrite list_lookup_insert_ne.
Qed.

(** The step of a call that looks at the cache. *)
Lemma step_lookup environ c t k :
  is_lookup k (step environ c t).2 →
  t = AtLookup k ∧ database_url_of environ ≠ [] ∧
  step environ c t =
    match cache_lookup c (call_now k) with
    | Some data => (c, Returned (inl data) [], Hit k data)
    | None => (c, AtPublish k, Miss k)
    end.
Proof.
  unfold step. destruct t as [k'|k'|r cs].
  - destruct (str_empty (database_url_of environ)) eqn:Hurl.
    { by intros [?|[? ?]]. }
    apply str_empty_false in Hurl.
    destruct (cache_lookup c (call_now k')) as [data|] eqn:Hlook; cbn [snd].
    + intros [[=]|[data' [= -> ->]]]. by rewrite Hlook.
    + intros [[= ->]|[data' [=]]]. by rewrite Hlook.
  - destruct (call_fetch k' _); by intros [?|[? ?]].
  - by intros [?|[? ?]].
Qed.

Lemma step_fetch environ c k :
  step environ c (AtPublish k) =
    (match call_fetch k (database_url_of environ) with
     | Fetched services => MkCache (call_now k + 60) (Some services)
     | _ => c
     end,
     Returned (fetch_result environ k) [database_url_of environ],
     fetch_event environ k).
Proof. unfold step, fetch_result, fetch_event. by destruct (call_fetch k _). Qed.

(** A listing is stored only by the call that fetched it. *)
Lemma step_publish environ c t k services :
  (step environ c t).2 = Publish k services →
  t = AtPublish k ∧ call_fetch k (database_url_of environ) = Fetched services.
Proof.
  unfold step. destruct t as [k'|k'|r cs]; [| |done].
  - destruct (str_empty _); [done|]. by destruct (cache_lookup c (call_now k')).
  - destruct (call_fetch k' _) eqn:Hf; try done. by intros [= -> ->].
Qed.

Lemma last_publish_elem trace k services :
  last_publish trace = Some (k, services) →
  ∃ n i, trace !! n = Some (i, Publish k services).
Proof.
  induction trace as [|[i e] trace IH]; [done|]. cbn [last_publish].
  destruct (last_publish trace) as [stored|].
  - intros [= ->]. destruct IH as (n & i' & Hn); [done|]. by exists (S n), i'.
  - destruct e; try done. intros [= -> ->]. by exists 0, i.
Qed.

Lemma last_publish_snoc trace i e :
  last_publish (trace ++ [(i, e)]) =
    match e with
    | Publish k services => Some (k, services)
    | _ => last_publish trace
    end.
Proof.
  induction trace as [|[i' e'] trace IH]; [by destruct e|].
  rewrite <-app_comm_cons. cbn [last_publish]. rewrite IH.
  destruct e; try done. 
Qed.

(** The calls between two positions of the schedule. *)
Lemma run_between environ schedule p n m j :
  n ≤ m →
  (∀ i, n ≤ i < m → schedule !! i ≠ Some j) →
  pool_threads (run environ (take m schedule) p).2 !! j
  = pool_threads (run environ (take n schedule) p).2 !! j.
Proof.
  intros Hnm Hj.
  assert (take m schedule = take n schedule ++ drop n (take m schedule)) as ->.
  { rewrite <-(take_drop n (take m schedule)) at 1. f_equal.
    rewrite take_take. f_equal. lia. }
  rewrite run_app. cbn [snd]. apply run_other.
  intros (i & Hi)%list_elem_of_lookup_1.
  rewrite lookup_drop in Hi.
  destruct (decide (n + i < m)) as [Hlt|Hge].
  - rewrite lookup_take_lt in Hi by done. apply (Hj (n + i)); [lia|done].
  - rewrite lookup_take_ge in Hi by lia. done.
Qed.

(** What a call has returned by a position of the schedule, it has returned
    at the end. *)
Lemma run_returned_at environ schedule p n j r cs :
  pool_threads (run environ (take n schedule) p).2 !! j = Some (Returned r cs) →
  pool_threads (run environ schedule p).2 !! j = Some (Returned r cs).
Proof. intros Hj. rewrite (run_drop _ _ _ n). by apply run_returned. Qed.

(** C2, as the code has it, for calls that may overlap. Take any
    interleaving of the calls and a step, at position [q], of a call [kj]
    that looks at the cache, and let the last successful fetch that stored
    its listing before [q] be the one of call [ki]. The listing held is the
    one that fetch returned, and the window is counted from the clock
    reading of [ki], taken before the fetch, not from its completion:
    - when [kj] read the clock before that reading plus 60, it returns the
      same listing without calling [fetch_active_services];
    - when [kj] read that reading plus 60 or more, it misses, and its next
      step ends the one fetch it makes: it returns what the fetch gave, and
      when the fetch succeeded its listing is the one held from then on. *)
Theorem snapshot_fresh_while_held environ schedule p q j e ki services kj :
  let trace := (run environ schedule p).1 in
  let final := pool_threads (run environ schedule p).2 in
  let url := database_url_of environ in
  last_publish (take q trace) = Some (ki, services) →
  trace !! q = Some (j, e) →
  is_lookup kj e →
  call_fetch ki url = Fetched services ∧
  ((call_now kj < call_now ki + 60)%Z →
     e = Hit kj services ∧ final !! j = Some (Returned (inl services) [])) ∧
  ((call_now ki + 60 ≤ call_now kj)%Z →
     e = Miss kj ∧
     ∀ q' e', q < q' → trace !! q' = Some (j, e') →
       (∀ m, q < m < q' → schedule !! m ≠ Some j) →
       e' = fetch_event environ kj ∧
       final !! j = Some (Returned (fetch_result environ kj) [url]) ∧
       ∀ services1, call_fetch kj url = Fetched services1 →
         last_publish (take (S q') trace) = Some (kj, services1)).
Proof.
  intros trace final url Hlast Hq Hlook. subst trace final url.
  rewrite <-run_take in Hlast.
  (* the fetch that stored the listing *)
  assert (Hfetched : call_fetch ki (database_url_of environ) = Fetched services).
  { destruct (last_publish_elem _ _ _ Hlast) as (n & i & Hn).
    apply run_step_at in Hn as [_ Hn].
    destruct (pool_threads _ !! i) as [t|]; [|by destruct Hn].
    destruct Hn as [Hn _]. symmetry in Hn.
    by apply step_publish in Hn as [_ ?]. }
  split; [done|].
  (* the globals when the call looks at them *)
  pose proof (run_cache environ (take q schedule) p) as Hcache.
  rewrite Hlast in Hcache.
  destruct (run_step_at _ _ _ _ _ _ Hq) as [Hj Hstep].
  set (pq := (run environ (take q schedule) p).2) in *.
  destruct (pool_threads pq !! j) as [t|] eqn:Ht.
  2: { destruct Hstep as [-> _]. by destruct Hlook as [?|[? ?]]. }
  destruct Hstep as [He Hnext]. rewrite He in Hlook.
  apply step_lookup in Hlook as (-> & Hurl & Hstep).
  rewrite Hstep in He, Hnext. rewrite Hcache, cache_lookup_fresh in He, Hnext.
  assert (Hlt : j < length (pool_threads pq)) by by eapply lookup_lt_Some.
  split.
  - intros Hfresh. rewrite (proj2 (Z.ltb_lt _ _) Hfresh) in He, Hnext.
    split; [done|]. apply (run_returned_at _ _ _ (S q)).
    rewrite Hnext. cbn [pool_threads fst snd]. by rewrite list_lookup_insert_eq.
  - intros Hstale. rewrite (proj2 (Z.ltb_ge _ _) Hstale) in He, Hnext.
    split; [done|]. intros q' e' Hqq' Hq' Hbetween.
    destruct (run_step_at _ _ _ _ _ _ Hq') as [_ Hstep'].
    assert (Hthere : pool_threads (run environ (take q' schedule) p).2 !! j
                     = Some (AtPublish kj)).
    { rewrite (run_between _ _ _ (S q) q') by (lia || (intros; apply Hbetween; lia)).
      rewrite Hnext. cbn [pool_threads fst snd]. by rewrite list_lookup_insert_eq. }
    rewrite Hthere in Hstep'. rewrite step_fetch in Hstep'.
    destruct Hstep' as [-> Hnext']. cbn [fst snd] in Hnext'.
    split; [done|]. split.
    + apply (run_returned_at _ _ _ (S q')). rewrite Hnext'. cbn [pool_threads].
      rewrite list_lookup_insert_eq; [done|]. by eapply lookup_lt_Some.
    + intros services1 Hf1.
      rewrite (take_S_r _ _ _ Hq'), last_publish_snoc.
      unfold fetch_event. by rewrite Hf1.
Qed.

(** A call that takes its two steps with no other call in between is a
    call of [load_active_services]. *)
Lemma two_steps environ c k :
  let r := load_active_services environ (call_now k) (call_fetch k) c in
  let s1 := step environ c (AtLookup k) in
  let s2 := step environ s1.1.1 s1.1.2 in
  s2.1.1 = cache_after r ∧ s2.1.2 = to_thread r.
Proof.
  unfold step, load_active_services, to_thread.
  destruct (str_empty (database_url_of environ)); [done|].
  destruct (cache_lookup c (call_now k)); [done|]. cbn [fst snd].
  by destruct (call_fetch k (database_url_of environ)).
Qed.

Lemma run_sequential_from environ returned_calls calls c :
  (run environ
     (flat_map (λ i, [i; i]) (seq (length returned_calls) (length calls)))
     (Pool c (returned_calls ++ (AtLookup <$> calls)))).2
  = Pool (serve environ calls c).2
         (returned_calls ++ (to_thread <$> (serve environ calls c).1)).
Proof.
  revert returned_calls c.
  induction calls as [|k ks IH]; intros returned_calls c; [done|].
  cbn [length seq flat_map fmap list_fmap]. rewrite <-app_comm_cons.
  rewrite serve_cons. cbn zeta. cbn [fst snd fmap list_fmap].
  destruct (two_steps environ c k) as [Hc Ht]. cbv zeta in Hc, Ht.
  set (r := load_active_services environ (call_now k) (call_fetch k) c) in *.
  rewrite run_cons. cbn [pool_threads pool_cache].
  rewrite list_lookup_middle by done. cbv zeta. cbn [snd app].
  rewrite run_cons. cbn [pool_threads pool_cache].
  rewrite insert_app_r_alt, Nat.sub_diag by done. cbn [insert list_insert].
  rewrite list_lookup_middle by done. cbv zeta. cbn [snd].
  rewrite insert_app_r_alt, Nat.sub_diag by done. cbn [insert list_insert].
  rewrite Hc, Ht.
  rewrite (cons_middle (to_thread r)), !app_assoc.
  replace (S (length returned_calls)) with (length (returned_calls ++ [to_thread r]))
    by (rewrite length_app; simpl; lia).
  rewrite IH. by rewrite <-app_assoc.
Qed.

(** Calls that do not overlap are the calls of [serve]. *)
Lemma run_sequential environ calls c :
  (run environ (sequential (length calls)) (Pool c (AtLookup <$> calls))).2
  = Pool (serve environ calls c).2 (to_thread <$> (serve environ calls c).1).
Proof. apply (run_sequential_from environ [] calls c). Qed.

(** X12: when the calls do not overlap (each returns before the next one
    looks at the cache), a call that calls [fetch_active_services] after an
    earlier call fetched successfully read the clock at least 60 units
    after that earlier call did. With calls that overlap this is not so. *)
Theorem successful_fetch_spacing environ calls c i j ki kj services rj url urls :
  let final :=
    pool_threads
      (run environ (sequential (length calls)) (Pool c (AtLookup <$> calls))).2 in
  i < j →
  calls !! i = Some ki → calls !! j = Some kj →
  final !! i = Some (Returned (inl services) [url]) →
  final !! j = Some (Returned rj (url :: urls)) →
  (call_now ki + 60 ≤ call_now kj)%Z.
Proof.
  intros final Hij Hki Hkj. subst final. rewrite run_sequential.
  cbn [pool_threads]. rewrite !list_lookup_fmap.
  destruct ((serve environ calls c).1 !! i) as [ri|] eqn:Hri; [|done].
  destruct ((serve environ calls c).1 !! j) as [rj'|] eqn:Hrj; [|done].
  cbn [fmap option_fmap option_map]. unfold to_thread.
  intros [= Hret Hcalls] [= _ Hcalls'].
  apply (serve_fetch_spacing environ calls c i j ki kj ri rj'); try done.
  - unfold fetched. rewrite Hcalls, Hret. by eexists.
  - by rewrite Hcalls'.
Qed.

Lemma steps_of_cons i x rest :
  steps_of i (x :: rest) = (if bool_decide (x = i) then 1 else 0) + steps_of i rest.
Proof. reflexivity. Qed.

(** The step of a call whose fetch fails, on globals that hold nothing
    fresh for it. *)
Lemma step_failing environ c k n :
  database_url_of environ ≠ [] →
  cache_lookup c (call_now k) = None →
  (∀ services, call_fetch k (database_url_of environ) ≠ Fetched services) →
  (step environ c (failing_thread environ k n)).1
  = (c, failing_thread environ k (S n)).
Proof.
  intros Hurl%str_empty_false Hmiss Hfail.
  destruct n as [|[|n]]; cbn [failing_thread].
  - unfold step. by rewrite Hurl, Hmiss.
  - rewrite step_fetch. cbn [fst].
    destruct (call_fetch k (database_url_of environ)) as [services| |] eqn:Hf;
      [by destruct (Hfail services)|done..].
  - done.
Qed.

Lemma run_failing environ calls c schedule (steps : nat → nat) threads :
  database_url_of environ ≠ [] →
  Forall (λ k, cache_lookup c (call_now k) = None
               ∧ ∀ services, call_fetch k (database_url_of environ)
                             ≠ Fetched services) calls →
  length threads = length calls →
  (∀ i k, calls !! i = Some k →
     threads !! i = Some (failing_thread environ k (steps i))) →
  pool_cache (run environ schedule (Pool c threads)).2 = c ∧
  ∀ i k, calls !! i = Some k →
    pool_threads (run environ schedule (Pool c threads)).2 !! i
    = Some (failing_thread environ k (steps i + steps_of i schedule)).
Proof.
  intros Hurl Hcalls. revert steps threads.
  induction schedule as [|x rest IH]; intros steps threads Hlen Hthreads.
  { split; [done|]. intros i k Hk. cbn [run snd pool_threads steps_of].
    rewrite Nat.add_0_r. by apply Hthreads. }
  rewrite run_cons. cbn [pool_threads pool_cache].
  destruct (threads !! x) as [t|] eqn:Hx; cbn [snd].
  - assert (Hlt : x < length calls).
    { rewrite <-Hlen. by eapply lookup_lt_Some. }
    destruct (lookup_lt_is_Some_2 calls x Hlt) as [kx Hkx].
    rewrite (Hthreads x kx Hkx) in Hx. injection Hx as <-.
    rewrite Forall_forall in Hcalls.
    destruct (Hcalls kx) as [Hmiss Hfail]; [by eapply list_elem_of_lookup_2|].
    rewrite (step_failing environ c kx (steps x)) by done. cbn [fst snd].
    destruct (IH (λ i, if bool_decide (x = i) then S (steps i) else steps i)
                (<[x := failing_thread environ kx (S (steps x))]> threads))
      as [Hc Hfinal].
    + by rewrite length_insert.
    + intros i k Hk. destruct (decide (x = i)) as [->|Hne].
      * rewrite bool_decide_true by done. rewrite list_lookup_insert_eq by lia.
        rewrite Hkx in Hk. by injection Hk as <-.
      * rewrite bool_decide_false by done. rewrite list_lookup_insert_ne by done.
        by apply Hthreads.
    + split; [done|]. intros i k Hk. rewrite (Hfinal i k Hk), steps_of_cons.
      f_equal. f_equal. case_bool_decide; lia.
  - destruct (IH steps threads Hlen Hthreads) as [Hc Hfinal].
    split; [done|]. intros i k Hk. rewrite (Hfinal i k Hk), steps_of_cons.
    f_equal. f_equal. case_bool_decide as Hxi; [|lia].
    subst i. apply lookup_ge_None in Hx.
    apply lookup_lt_Some in Hk. lia.
Qed.

(** X13: failures are not remembered, however the calls overlap. While
    the globals hold nothing fresh for the calls and every fetch raises, in
    any interleaving the globals are left as they were and each call, once
    it has taken its two steps, has called [fetch_active_services] once and
    returned the error of its own attempt. *)
Theorem failures_not_cached environ calls c schedule :
  database_url_of environ ≠ [] →
  Forall (λ k, cache_lookup c (call_now k) = None
               ∧ ∀ services, call_fetch k (database_url_of environ)
                             ≠ Fetched services) calls →
  let final := (run environ schedule (Pool c (AtLookup <$> calls))).2 in
  pool_cache final = c ∧
  ∀ i k, calls !! i = Some k →
    pool_threads final !! i
    = Some (match steps_of i schedule with
            | 0 => AtLookup k
            | 1 => AtPublish k
            | _ => Returned
                     (inr (match call_fetch k (database_url_of environ) with
                           | RaisedModuleNotFoundError => u "asyncpg_not_installed"
                           | _ => u "services_query_failed"
                           end))
                     [database_url_of environ]
            end).
Proof.
  intros Hurl Hcalls final. subst final.
  destruct (run_failing environ calls c schedule (λ _, 0) (AtLookup <$> calls)
              Hurl Hcalls) as [Hc Hfinal].
  - by rewrite length_fmap.
  - intros i k Hk. by rewrite list_lookup_fmap, Hk.
  - split; [done|]. intros i k Hk. rewrite (Hfinal i k Hk). cbn [Nat.add].
    unfold failing_thread, fetch_result. rewrite Forall_forall in Hcalls.
    destruct (Hcalls k) as [_ Hfail]; [by eapply list_elem_of_lookup_2|].
    destruct (steps_of i schedule) as [|[|n]]; try done.
    destruct (call_fetch k (database_url_of environ)) as [services| |];
      [by destruct (Hfail services)|done..].
Qed.

End threads_props.

(* ===================================================================== *)
(** ** Overlapping calls on the sample deployment *)
(* ===================================================================== *)

(** The trace of the four overlapping calls. The call that read 65 misses
    and fetches, 25 units after the reading of the call whose fetch stored
    its listing at the third step: the call that read 0 stored its own
    listing after it, with the earlier expiry 60. *)
Lemma overlapping_fetch_shortens_window :
  let k0 := Call 0 (λ _, Fetched [polishing]) 47 in
  let k1 := Call 40 (λ _, Fetched [washing]) 45 in
  let k2 := Call 65 (λ _, Fetched [polishing; washing]) 70 in
  let k3 := Call 50 (λ _, RaisedException) 51 in
  (run sample_environ overlapping_schedule
     (Pool cache_init (AtLookup <$> overlapping_calls))).1
  = [ (0, Miss k0); (1, Miss k1); (1, Publish k1 [washing]);
      (0, Publish k0 [polishing]); (3, Hit k3 [polishing]);
      (2, Miss k2); (2, Publish k2 [polishing; washing]) ] ∧
  (call_now k2 < call_now k1 + 60)%Z.
Proof. intros k0 k1 k2 k3. split; [by vm_compute|]. simpl. lia. Qed.

Lemma snapshot_fresh_while_held_witness :
  let k0 := Call 0 (λ _, Fetched [polishing]) 47 in
  let k2 := Call 65 (λ _, Fetched [polishing; washing]) 70 in
  let k3 := Call 50 (λ _, RaisedException) 51 in
  let r := run sample_environ overlapping_schedule
             (Pool cache_init (AtLookup <$> overlapping_calls)) in
  last_publish (take 4 r.1) = Some (k0, [polishing]) ∧
  r.1 !! 4 = Some (3, Hit k3 [polishing]) ∧
  pool_threads r.2 !! 3 = Some (Returned (inl [polishing]) []) ∧
  last_publish (take 5 r.1) = Some (k0, [polishing]) ∧
  r.1 !! 5 = Some (2, Miss k2) ∧
  r.1 !! 6 = Some (2, Publish k2 [polishing; washing]) ∧
  pool_threads r.2 !! 2
  = Some (Returned (inl [polishing; washing]) [u "postgresql://drivon@db/drivon"]).
Proof.
  intros k0 k2 k3 r.
  assert (H4 : last_publish (take 4 r.1) = Some (k0, [polishing])) by by vm_compute.
  assert (H5 : last_publish (take 5 r.1) = Some (k0, [polishing])) by by vm_compute.
  assert (Hhit : r.1 !! 4 = Some (3, Hit k3 [polishing])) by by vm_compute.
  assert (Hmiss : r.1 !! 5 = Some (2, Miss k2)) by by vm_compute.
  assert (Hnext : r.1 !! 6 = Some (2, Publish k2 [polishing; washing]))
    by by vm_compute.
  split; [exact H4|]. split; [exact Hhit|]. split.
  { destruct (snapshot_fresh_while_held sample_environ overlapping_schedule
                (Pool cache_init (AtLookup <$> overlapping_calls)) 4 3
                (Hit k3 [polishing]) k0 [polishing] k3 H4 Hhit)
      as (_ & Hfresh & _); [right; by eexists|].
    apply Hfresh. simpl. lia. }
  split; [exact H5|]. split; [exact Hmiss|]. split; [exact Hnext|].
  destruct (snapshot_fresh_while_held sample_environ overlapping_schedule
              (Pool cache_init (AtLookup <$> overlapping_calls)) 5 2
              (Miss k2) k0 [polishing] k2 H5 Hmiss)
    as (_ & _ & Hstale); [by left|].
  destruct Hstale as [_ Hfetch]; [simpl; lia|].
  destruct (Hfetch 6 (Publish k2 [polishing; washing])) as (_ & Hfinal & _);
    [lia|exact Hnext|intros m Hm; lia|].
  exact Hfinal.
Defined.

Lemma successful_fetch_spacing_witness :
  let final :=
    pool_threads
      (run sample_environ (sequential (length sample_calls))
         (Pool cache_init (AtLookup <$> sample_calls))).2 in
  final !! 0 = Some (Returned (inl [polishing]) [u "postgresql://drivon@db/drivon"]) ∧
  final !! 2 = Some (Returned (inl [polishing; washing])
                       [u "postgresql://drivon@db/drivon"]) ∧
  (0 + 60 ≤ 75)%Z.
Proof.
  intros final.
  assert (H0 : final !! 0 = Some (Returned (inl [polishing])
                                    [u "postgresql://drivon@db/drivon"]))
    by by vm_compute.
  assert (H2 : final !! 2 = Some (Returned (inl [polishing; washing])
                                    [u "postgresql://drivon@db/drivon"]))
    by by vm_compute.
  split; [exact H0|]. split; [exact H2|].
  apply (successful_fetch_spacing sample_environ sample_calls cache_init 0 2
           (Call 0 (λ _, Fetched [polishing]) 2)
           (Call 75 (λ _, Fetched [polishing; washing]) 77)
           [polishing] (inl [polishing; washing])
           (u "postgresql://drivon@db/drivon") []);
    [lia|reflexivity|reflexivity|exact H0|exact H2].
Defined.

Lemma failures_not_cached_witness :
  let final := (run sample_environ [1; 0; 1; 0]
                  (Pool cache_init (AtLookup <$> failing_calls))).2 in
  pool_cache final = cache_init ∧
  pool_threads final
  = [ Returned (inr (u "services_query_failed")) [u "postgresql://drivon@db/drivon"];
      Returned (inr (u "asyncpg_not_installed")) [u "postgresql://drivon@db/drivon"] ].
Proof.
  intros final.
  destruct (failures_not_cached sample_environ failing_calls cache_init [1; 0; 1; 0])
    as [Hc _].
  - intros Hurl. vm_compute in Hurl. discriminate Hurl.
  - repeat constructor; try done.
  - split; [exact Hc|]. by vm_compute.
Defined.

